(** * A peer-to-peer backup simulator (storage.py): model and properties

    The simulator keeps its nodes in the list [Backup.nodes]; a Python
    reference to a node is rendered as the node's position in that list, and
    a reference to a transfer-completion event as the position of the event
    in a store of all the transfer events created so far (so that the
    [canceled] flag and the aliasing between [uploader.current_upload],
    [downloader.current_download] and the queued event are shared, as they
    are between the Python objects).

    An operation that raises in Python (a failed [assert], an [IndexError],
    a [ZeroDivisionError]) returns [None]; such an exception stops the run.
    Logging is not represented.  Durations and random draws are floating
    point numbers in the source: only the fact that computing them can raise
    is represented, not their value. *)

From Stdlib Require Import ZArith QArith.QArith_base String Lia.
From stdpp Require Import base option list.

(** ** Data model *)

(** The twelve fields of the [Node] dataclass. *)
Record NodeConfig := mkNodeConfig {
  name : string;
  n : Z;
  k : Z;
  data_size : Z;
  storage_size : Z;
  upload_speed : Z;
  download_speed : Z;
  average_uptime : Q;
  average_downtime : Q;
  average_lifetime : Q;
  average_recover_time : Q;
  arrival_time : Q
}.

(** A node: its configuration and the state set up by [__post_init__].
    [remote_blocks_held] is a Python dict (owner -> block_id), kept as an
    association list in insertion order. *)
Record Node := mkNode {
  cfg : NodeConfig;
  online : bool;
  failed : bool;
  block_size : Z;
  free_space : Z;
  local_blocks : list bool;
  backed_up_blocks : list (option nat);
  remote_blocks_held : list (nat * nat);
  current_upload : option nat;
  current_download : option nat;
  total_data_loss_events : Z;
  total_data_recovered : Z;
  total_backups_made : Z;
  total_restores_made : Z
}.

(** The two subclasses of [TransferComplete]. *)
Inductive TransferKind := BlockBackupComplete | BlockRestoreComplete.

Record TransferComplete := mkTransfer {
  kind : TransferKind;
  uploader : nat;
  downloader : nat;
  block_id : nat;
  canceled : bool
}.

(** The events of the queue.  [Transfer e] is the transfer event stored at
    position [e]. *)
Inductive Event :=
  | Online (nd : nat)
  | Recover (nd : nat)
  | Offline (nd : nat)
  | Fail (nd : nat)
  | Transfer (e : nat).

(** The simulation: the nodes, every transfer event created so far, and the
    pending events in the order in which they were scheduled. *)
Record Backup := mkBackup {
  nodes : list Node;
  transfers : list TransferComplete;
  queue : list Event
}.

Global Instance TransferKind_eq_dec : EqDecision TransferKind.
Proof. solve_decision. Defined.

Global Instance Event_eq_dec : EqDecision Event.
Proof. solve_decision. Defined.

(** ** Field updates *)

Definition set_online (b : bool) (x : Node) : Node :=
  mkNode (cfg x) b (failed x) (block_size x) (free_space x) (local_blocks x)
    (backed_up_blocks x) (remote_blocks_held x) (current_upload x)
    (current_download x) (total_data_loss_events x) (total_data_recovered x)
    (total_backups_made x) (total_restores_made x).

Definition set_failed (b : bool) (x : Node) : Node :=
  mkNode (cfg x) (online x) b (block_size x) (free_space x) (local_blocks x)
    (backed_up_blocks x) (remote_blocks_held x) (current_upload x)
    (current_download x) (total_data_loss_events x) (total_data_recovered x)
    (total_backups_made x) (total_restores_made x).

Definition set_free_space (v : Z) (x : Node) : Node :=
  mkNode (cfg x) (online x) (failed x) (block_size x) v (local_blocks x)
    (backed_up_blocks x) (remote_blocks_held x) (current_upload x)
    (current_download x) (total_data_loss_events x) (total_data_recovered x)
    (total_backups_made x) (total_restores_made x).

Definition set_local_blocks (v : list bool) (x : Node) : Node :=
  mkNode (cfg x) (online x) (failed x) (block_size x) (free_space x) v
    (backed_up_blocks x) (remote_blocks_held x) (current_upload x)
    (current_download x) (total_data_loss_events x) (total_data_recovered x)
    (total_backups_made x) (total_restores_made x).

Definition set_backed_up_blocks (v : list (option nat)) (x : Node) : Node :=
  mkNode (cfg x) (online x) (failed x) (block_size x) (free_space x)
    (local_blocks x) v (remote_blocks_held x) (current_upload x)
    (current_download x) (total_data_loss_events x) (total_data_recovered x)
    (total_backups_made x) (total_restores_made x).

Definition set_remote_blocks_held (v : list (nat * nat)) (x : Node) : Node :=
  mkNode (cfg x) (online x) (failed x) (block_size x) (free_space x)
    (local_blocks x) (backed_up_blocks x) v (current_upload x)
    (current_download x) (total_data_loss_events x) (total_data_recovered x)
    (total_backups_made x) (total_restores_made x).

Definition set_current_upload (v : option nat) (x : Node) : Node :=
  mkNode (cfg x) (online x) (failed x) (block_size x) (free_space x)
    (local_blocks x) (backed_up_blocks x) (remote_blocks_held x) v
    (current_download x) (total_data_loss_events x) (total_data_recovered x)
    (total_backups_made x) (total_restores_made x).

Definition set_current_download (v : option nat) (x : Node) : Node :=
  mkNode (cfg x) (online x) (failed x) (block_size x) (free_space x)
    (local_blocks x) (backed_up_blocks x) (remote_blocks_held x)
    (current_upload x) v (total_data_loss_events x) (total_data_recovered x)
    (total_backups_made x) (total_restores_made x).

Definition set_total_data_loss_events (v : Z) (x : Node) : Node :=
  mkNode (cfg x) (online x) (failed x) (block_size x) (free_space x)
    (local_blocks x) (backed_up_blocks x) (remote_blocks_held x)
    (current_upload x) (current_download x) v (total_data_recovered x)
    (total_backups_made x) (total_restores_made x).

Definition set_total_data_recovered (v : Z) (x : Node) : Node :=
  mkNode (cfg x) (online x) (failed x) (block_size x) (free_space x)
    (local_blocks x) (backed_up_blocks x) (remote_blocks_held x)
    (current_upload x) (current_download x) (total_data_loss_events x) v
    (total_backups_made x) (total_restores_made x).

Definition set_total_backups_made (v : Z) (x : Node) : Node :=
  mkNode (cfg x) (online x) (failed x) (block_size x) (free_space x)
    (local_blocks x) (backed_up_blocks x) (remote_blocks_held x)
    (current_upload x) (current_download x) (total_data_loss_events x)
    (total_data_recovered x) v (total_restores_made x).

Definition set_total_restores_made (v : Z) (x : Node) : Node :=
  mkNode (cfg x) (online x) (failed x) (block_size x) (free_space x)
    (local_blocks x) (backed_up_blocks x) (remote_blocks_held x)
    (current_upload x) (current_download x) (total_data_loss_events x)
    (total_data_recovered x) (total_backups_made x) v.

Definition set_canceled (b : bool) (t : TransferComplete) : TransferComplete :=
  mkTransfer (kind t) (uploader t) (downloader t) (block_id t) b.

(** [sim.nodes[i].field = ...]: the node at position [i] is changed in place. *)
Definition upd_node (i : nat) (f : Node → Node) (s : Backup) : Backup :=
  mkBackup (alter f i (nodes s)) (transfers s) (queue s).

Definition upd_transfer (e : nat) (f : TransferComplete → TransferComplete)
    (s : Backup) : Backup :=
  mkBackup (nodes s) (alter f e (transfers s)) (queue s).

(** ** Python containers *)

(** [l[i] = x] on a list: [IndexError] when [i] is out of range. *)
Definition list_assign {A} (l : list A) (i : nat) (x : A) : option (list A) :=
  if decide (i < length l) then Some (<[i:=x]> l) else None.

(** [key in d] for a dict. *)
Definition dict_mem (key : nat) (d : list (nat * nat)) : bool :=
  existsb (λ kv, bool_decide (kv.1 = key)) d.

(** [d[key]] as a lookup. *)
Fixpoint dict_get (key : nat) (d : list (nat * nat)) : option nat :=
  match d with
  | [] => None
  | (k', v) :: d' => if decide (k' = key) then Some v else dict_get key d'
  end.

(** [d[key] = v]: an existing key keeps its place, a new key goes last. *)
Fixpoint dict_set (key v : nat) (d : list (nat * nat)) : list (nat * nat) :=
  match d with
  | [] => [(key, v)]
  | (k', v') :: d' =>
      if decide (k' = key) then (k', v) :: d' else (k', v') :: dict_set key v d'
  end.

(** [sum(bools)]. *)
Definition count_true (l : list bool) : Z :=
  Z.of_nat (length (filter (λ b, b = true) l)).

(** [x in set(p for p in backed_up_blocks if p is not None)]. *)
Definition in_remote_owners (x : nat) (bu : list (option nat)) : bool :=
  existsb (λ o, bool_decide (o = Some x)) bu.

(** ** Node creation *)

(** [Node.__post_init__]: the assertion on [free_space] may fail. *)
Definition Node_post_init (c : NodeConfig) : option Node :=
  let bs := if (0 <? k c)%Z then (data_size c / k c)%Z else 0%Z in
  let fs := (storage_size c - bs * n c)%Z in
  if (0 <=? fs)%Z then
    Some (mkNode c false false bs fs
            (replicate (Z.to_nat (n c)) true)
            (replicate (Z.to_nat (n c)) None)
            [] None None 0 0 0 0)
  else None.

(** ** Scheduling events *)

(** [exp_rv(mean) = expovariate(1 / mean)]: the division raises for a zero
    mean; the value drawn is not represented. *)
Definition exp_rv (mean : Q) : option unit :=
  if Qeq_bool mean 0 then None else Some tt.

(** Modelled from the spec: [Simulation.schedule] of the missing module
    discrete_event_sim ("schedule(delay, event) inserts (t + delay, next_seq,
    event)").  The heap is kept as the list of the pending events in
    insertion order; the scheduled time is not represented. *)
Definition schedule (ev : Event) (s : Backup) : Backup :=
  mkBackup (nodes s) (transfers s) (queue s ++ [ev]).

(** [Backup.__init__]: an [Online] and a [Fail] event for every node. *)
Fixpoint init_events (i : nat) (ns : list Node) : option (list Event) :=
  match ns with
  | [] => Some []
  | nd :: rest =>
      _ ← exp_rv (average_lifetime (cfg nd));
      evs ← init_events (S i) rest;
      Some (Online i :: Fail i :: evs)
  end.

Definition Backup_init (cs : list NodeConfig) : option Backup :=
  ns ← mapM Node_post_init cs;
  evs ← init_events 0 ns;
  Some (mkBackup ns [] evs).

(** [Backup.schedule_transfer]. *)
Definition schedule_transfer (s : Backup) (up dn : nat) (bid : nat)
    (restore : bool) : option Backup :=
  u ← nodes s !! up;
  d ← nodes s !! dn;
  match current_upload u, current_download d with
  | None, None =>
      let speed := Z.min (upload_speed (cfg u)) (download_speed (cfg d)) in
      (* delay = block_size / speed *)
      if (speed =? 0)%Z then None
      else if decide (up = dn) then None (* TransferComplete.__post_init__ *)
      else
        let e := length (transfers s) in
        let ev := mkTransfer
                    (if restore then BlockRestoreComplete
                     else BlockBackupComplete) up dn bid false in
        let s1 := mkBackup (nodes s) (transfers s ++ [ev])
                    (queue s ++ [Transfer e]) in
        Some (upd_node up (set_current_upload (Some e))
                (upd_node dn (set_current_download (Some e)) s1))
  | _, _ => None
  end.

(** ** The transfer scheduler *)

(** [Node.find_block_to_back_up]: the loop over
    [enumerate(zip(local_blocks, backed_up_blocks))]. *)
Fixpoint find_block_from (i : nat) (lb : list bool) (bu : list (option nat))
    : option nat :=
  match lb, bu with
  | held :: lb', peer :: bu' =>
      match held, peer with
      | true, None => Some i
      | _, _ => find_block_from (S i) lb' bu'
      end
  | _, _ => None
  end.

Definition find_block_to_back_up (x : Node) : option nat :=
  find_block_from 0 (local_blocks x) (backed_up_blocks x).

(** First loop of [schedule_next_upload], over [remote_blocks_held.items()]:
    [Some (Some (peer, block_id))] when the loop schedules a restore,
    [Some None] when it runs to its end, [None] when
    [peer.local_blocks[block_id]] raises. *)
Fixpoint upload_restore_loop (s : Backup) (items : list (nat * nat))
    : option (option (nat * nat)) :=
  match items with
  | [] => Some None
  | (peer, bid) :: rest =>
      p ← nodes s !! peer;
      match online p, current_download p with
      | true, None =>
          match local_blocks p !! bid with
          | None => None (* IndexError *)
          | Some true => upload_restore_loop s rest
          | Some false => Some (Some (peer, bid))
          end
      | _, _ => upload_restore_loop s rest
      end
  end.

(** Second loop of [schedule_next_upload], over [sim.nodes]; [i] is the
    position of the head of [ns] in [sim.nodes]. *)
Fixpoint upload_backup_loop (self : nat) (me : Node) (i : nat)
    (ns : list Node) : option nat :=
  match ns with
  | [] => None
  | peer :: rest =>
      if bool_decide (i ≠ self) && online peer
         && negb (in_remote_owners i (backed_up_blocks me))
         && bool_decide (current_download peer = None)
         && (block_size me <=? free_space peer)%Z
      then Some i
      else upload_backup_loop self me (S i) rest
  end.

(** [Node.schedule_next_upload]. *)
Definition schedule_next_upload (s : Backup) (self : nat) : option Backup :=
  me ← nodes s !! self;
  if negb (online me) then None (* assert self.online *)
  else match current_upload me with
  | Some _ => Some s
  | None =>
      r ← upload_restore_loop s (remote_blocks_held me);
      match r with
      | Some (peer, bid) => schedule_transfer s self peer bid true
      | None =>
          match find_block_to_back_up me with
          | None => Some s
          | Some bid =>
              match upload_backup_loop self me 0 (nodes s) with
              | Some peer => schedule_transfer s self peer bid false
              | None => Some s
              end
          end
      end
  end.

(** First loop of [schedule_next_download], over
    [enumerate(zip(local_blocks, backed_up_blocks))]. *)
Fixpoint download_restore_loop (s : Backup) (i : nat) (lb : list bool)
    (bu : list (option nat)) : option (option (nat * nat)) :=
  match lb, bu with
  | held :: lb', peer :: bu' =>
      match held, peer with
      | false, Some p =>
          pn ← nodes s !! p;
          match online pn, current_upload pn with
          | true, None => Some (Some (p, i))
          | _, _ => download_restore_loop s (S i) lb' bu'
          end
      | _, _ => download_restore_loop s (S i) lb' bu'
      end
  | _, _ => Some None
  end.

(** Second loop of [schedule_next_download], over [sim.nodes]. *)
Fixpoint download_backup_loop (self : nat) (me : Node) (i : nat)
    (ns : list Node) : option (nat * nat) :=
  match ns with
  | [] => None
  | peer :: rest =>
      if bool_decide (i ≠ self) && online peer
         && bool_decide (current_upload peer = None)
         && negb (dict_mem i (remote_blocks_held me))
         && (block_size peer <=? free_space me)%Z
      then match find_block_to_back_up peer with
           | Some bid => Some (i, bid)
           | None => download_backup_loop self me (S i) rest
           end
      else download_backup_loop self me (S i) rest
  end.

(** [Node.schedule_next_download]. *)
Definition schedule_next_download (s : Backup) (self : nat) : option Backup :=
  me ← nodes s !! self;
  if negb (online me) then None (* assert self.online *)
  else match current_download me with
  | Some _ => Some s
  | None =>
      r ← download_restore_loop s 0 (local_blocks me) (backed_up_blocks me);
      match r with
      | Some (peer, bid) => schedule_transfer s peer self bid true
      | None =>
          match download_backup_loop self me 0 (nodes s) with
          | Some (peer, bid) => schedule_transfer s peer self bid false
          | None => Some s
          end
      end
  end.

(** ** Events *)

(** [Disconnection.disconnect]. *)
Definition disconnect (s : Backup) (nd : nat) : option Backup :=
  node ← nodes s !! nd;
  let s1 := upd_node nd (set_online false) s in
  s2 ← match current_upload node with
       | None => Some s1
       | Some e =>
           t ← transfers s1 !! e;
           Some (upd_node nd (set_current_upload None)
                   (upd_node (downloader t) (set_current_download None)
                      (upd_transfer e (set_canceled true) s1)))
       end;
  match current_download node with
  | None => Some s2
  | Some e =>
      t ← transfers s2 !! e;
      Some (upd_node nd (set_current_download None)
              (upd_node (uploader t) (set_current_upload None)
                 (upd_transfer e (set_canceled true) s2)))
  end.

(** [Online.process]. *)
Definition Online_process (s : Backup) (nd : nat) : option Backup :=
  node ← nodes s !! nd;
  if online node || failed node then Some s
  else
    let s1 := upd_node nd (set_online true) s in
    s2 ← schedule_next_upload s1 nd;
    s3 ← schedule_next_download s2 nd;
    _ ← exp_rv (average_uptime (cfg node));
    Some (schedule (Offline nd) s3).

(** [Recover.process]. *)
Definition Recover_process (s : Backup) (nd : nat) : option Backup :=
  node ← nodes s !! nd;
  let s1 := upd_node nd (set_failed false) s in
  s2 ← Online_process s1 nd;
  _ ← exp_rv (average_lifetime (cfg node));
  Some (schedule (Fail nd) s2).

(** [Offline.process]. *)
Definition Offline_process (s : Backup) (nd : nat) : option Backup :=
  node ← nodes s !! nd;
  if failed node || negb (online node) then Some s
  else
    s1 ← disconnect s nd;
    _ ← exp_rv (average_downtime (cfg node));
    Some (schedule (Online nd) s1).

(** The loop of [Fail.process] over [node.remote_blocks_held.items()]. *)
Fixpoint Fail_loop (s : Backup) (items : list (nat * nat)) : option Backup :=
  match items with
  | [] => Some s
  | (owner, bid) :: rest =>
      o ← nodes s !! owner;
      bu ← list_assign (backed_up_blocks o) bid None;
      let s1 := upd_node owner (set_backed_up_blocks bu) s in
      s2 ← match online o, current_upload o with
           | true, None => schedule_next_upload s1 owner
           | _, _ => Some s1
           end;
      Fail_loop s2 rest
  end.

Definition lose_local_blocks (x : Node) : Node :=
  set_local_blocks (replicate (Z.to_nat (n (cfg x))) false) x.

Definition count_data_loss (x : Node) : Node :=
  set_total_data_loss_events (total_data_loss_events x + 1)%Z x.

Definition reset_free_space (x : Node) : Node :=
  set_free_space (storage_size (cfg x) - block_size x * n (cfg x))%Z x.

(** [Fail.process], statement by statement. *)
Definition Fail_process (s : Backup) (nd : nat) : option Backup :=
  s1 ← disconnect s nd;
  let s2 := upd_node nd (set_failed true) s1 in
  let s3 := upd_node nd count_data_loss s2 in
  let s4 := upd_node nd lose_local_blocks s3 in
  node ← nodes s4 !! nd;
  s5 ← Fail_loop s4 (remote_blocks_held node);
  let s6 := upd_node nd (set_remote_blocks_held []) s5 in
  let s7 := upd_node nd reset_free_space s6 in
  _ ← exp_rv (average_recover_time (cfg node));
  let s8 := upd_node nd lose_local_blocks s7 in
  let s9 := upd_node nd count_data_loss s8 in
  Some (schedule (Recover nd) s9).

(** [BlockBackupComplete.update_block_state]. *)
Definition backup_update_block_state (s : Backup) (t : TransferComplete)
    : option Backup :=
  owner ← nodes s !! uploader t;
  peer ← nodes s !! downloader t;
  let fs := (free_space peer - block_size owner)%Z in
  if (fs <? 0)%Z then None (* assert peer.free_space >= 0 *)
  else
    let s1 := upd_node (downloader t) (set_free_space fs) s in
    o1 ← nodes s1 !! uploader t;
    bu ← list_assign (backed_up_blocks o1) (block_id t) (Some (downloader t));
    let s2 := upd_node (uploader t) (set_backed_up_blocks bu) s1 in
    let s3 := upd_node (downloader t)
                (λ x, set_remote_blocks_held
                        (dict_set (uploader t) (block_id t)
                           (remote_blocks_held x)) x) s2 in
    o3 ← nodes s3 !! uploader t;
    bu' ← list_assign (backed_up_blocks o3) (block_id t)
            (Some (downloader t));
    let s4 := upd_node (uploader t) (set_backed_up_blocks bu') s3 in
    Some (upd_node (uploader t)
            (λ x, set_total_backups_made (total_backups_made x + 1)%Z x) s4).

(** [BlockRestoreComplete.update_block_state]. *)
Definition restore_update_block_state (s : Backup) (t : TransferComplete)
    : option Backup :=
  owner ← nodes s !! downloader t;
  lb ← list_assign (local_blocks owner) (block_id t) true;
  let s1 := upd_node (downloader t) (set_local_blocks lb) s in
  let s2 := upd_node (downloader t)
              (λ x, set_total_restores_made (total_restores_made x + 1)%Z x)
              s1 in
  if (count_true lb =? k (cfg owner))%Z
  then Some (upd_node (downloader t)
               (λ x, set_total_data_recovered (total_data_recovered x + 1)%Z x)
               s2)
  else Some s2.

Definition update_block_state (s : Backup) (t : TransferComplete)
    : option Backup :=
  match kind t with
  | BlockBackupComplete => backup_update_block_state s t
  | BlockRestoreComplete => restore_update_block_state s t
  end.

(** [TransferComplete.process] of the transfer event at position [e]. *)
Definition TransferComplete_process (s : Backup) (e : nat) : option Backup :=
  t ← transfers s !! e;
  if canceled t then Some s
  else
    u ← nodes s !! uploader t;
    d ← nodes s !! downloader t;
    if negb (online u && online d) then None (* assert *)
    else
      s1 ← update_block_state s t;
      let s2 := upd_node (downloader t) (set_current_download None) s1 in
      let s3 := upd_node (uploader t) (set_current_upload None) s2 in
      s4 ← schedule_next_upload s3 (uploader t);
      schedule_next_download s4 (downloader t).

(** The [process] method of an event, by its class. *)
Definition process (ev : Event) (s : Backup) : option Backup :=
  match ev with
  | Online nd => Online_process s nd
  | Recover nd => Recover_process s nd
  | Offline nd => Offline_process s nd
  | Fail nd => Fail_process s nd
  | Transfer e => TransferComplete_process s e
  end.

(** ** The simulation loop *)

(** Modelled from the spec: [Simulation.run] of the missing module
    discrete_event_sim ("run(max_t) repeatedly pops the earliest event ...
    the event's process step is invoked").  Scheduled times are not
    represented, so any pending event may be the one popped: every run of
    the source is a run of this relation. *)
Definition popped (s : Backup) (q : list Event) : Backup :=
  mkBackup (nodes s) (transfers s) q.

Inductive step (s s' : Backup) : Prop :=
  | step_event q1 ev q2 :
      queue s = q1 ++ ev :: q2 →
      process ev (popped s (q1 ++ q2)) = Some s' →
      step s s'.

(** The states that a run started on the configurations [cs] goes through,
    between two events. *)
Inductive reachable (cs : list NodeConfig) : Backup → Prop :=
  | reachable_init s : Backup_init cs = Some s → reachable cs s
  | reachable_step s s' : reachable cs s → step s s' → reachable cs s'.

(** Running the events found at the given positions of the queue, one after
    the other. *)
Fixpoint run_events (picks : list nat) (s : Backup) : option Backup :=
  match picks with
  | [] => Some s
  | i :: rest =>
      ev ← queue s !! i;
      s' ← process ev (popped s (delete i (queue s)));
      run_events rest s'
  end.

(** ** Summary *)

(** [sum(1 for other in self.nodes if n in other.remote_blocks_held)]. *)
Definition count_holders (s : Backup) (x : nat) : nat :=
  length (filter (λ other, dict_mem x (remote_blocks_held other) = true)
            (nodes s)).

(** The inner loop of [Backup.summary], over [n.backed_up_blocks]. *)
Fixpoint vulnerable_loop (s : Backup) (x : nat) (bu : list (option nat))
    (acc : Z) : Z :=
  match bu with
  | [] => acc
  | None :: rest => vulnerable_loop s x rest acc
  | Some _ :: rest =>
      if decide (count_holders s x = 1)
      then vulnerable_loop s x rest (acc + 1)%Z
      else vulnerable_loop s x rest acc
  end.

(** The outer loop: the pair [(vulnerable_blocks, total_blocks)]. *)
Fixpoint summary_loop (s : Backup) (i : nat) (ns : list Node) (acc : Z * Z)
    : Z * Z :=
  match ns with
  | [] => acc
  | x :: rest =>
      summary_loop s (S i) rest
        (vulnerable_loop s i (backed_up_blocks x) acc.1,
         (acc.2 + n (cfg x))%Z)
  end.

Definition vulnerable_blocks (s : Backup) : Z :=
  (summary_loop s 0 (nodes s) (0%Z, 0%Z)).1.

(** The integer figures that [Backup.summary] prints (the percentages are
    floating point numbers and are left out). *)
Record SummaryFigures := mkSummary {
  sum_data_loss_events : Z;
  sum_data_recovered : Z;
  sum_backups : Z;
  sum_restores : Z;
  sum_vulnerable_blocks : Z;
  sum_total_blocks : Z
}.

(** [sum(f(n) for n in self.nodes)]. *)
Definition sum_over (f : Node → Z) (ns : list Node) : Z :=
  foldr (λ x acc, (f x + acc)%Z) 0%Z ns.

(** [Backup.summary]: with no node at all, the percentage of failed nodes
    divides by zero before anything is printed. *)
Definition summary (s : Backup) : option SummaryFigures :=
  let fig := summary_loop s 0 (nodes s) (0%Z, 0%Z) in
  match nodes s with
  | [] => None
  | _ :: _ =>
      Some (mkSummary (sum_over total_data_loss_events (nodes s))
              (sum_over total_data_recovered (nodes s))
              (sum_over total_backups_made (nodes s))
              (sum_over total_restores_made (nodes s))
              fig.1 fig.2)
  end.

(** ** Invariants of the simulation *)

(** The transfer events that are still in the queue. *)
Definition transfer_ids (q : list Event) : list nat :=
  omap (λ ev, match ev with Transfer e => Some e | _ => None end) q.

(** A transfer in flight: queued and not canceled. *)
Definition inflight (s : Backup) (e : nat) (t : TransferComplete) : Prop :=
  transfers s !! e = Some t ∧ canceled t = false ∧
  e ∈ transfer_ids (queue s).

(** What the scheduler has checked of a transfer and still holds while it is
    in flight. *)
Definition transfer_ok (ns : list Node) (t : TransferComplete) : Prop :=
  uploader t ≠ downloader t ∧
  ∃ u d, ns !! uploader t = Some u ∧ ns !! downloader t = Some d ∧
    match kind t with
    | BlockBackupComplete =>
        backed_up_blocks u !! (block_id t) = Some None ∧
        (Some (downloader t) ∉ backed_up_blocks u) ∧
        (uploader t ∉ (remote_blocks_held d).*1)
    | BlockRestoreComplete => block_id t < length (local_blocks d)
    end.

(** The in-flight slots of the nodes are exactly the transfers in flight. *)
Record InvT (s : Backup) : Prop := mkInvT {
  T_nodup : NoDup (transfer_ids (queue s));
  T_range : ∀ e, e ∈ transfer_ids (queue s) → e < length (transfers s);
  T_up : ∀ U u e, nodes s !! U = Some u →
    (current_upload u = Some e ↔ ∃ t, inflight s e t ∧ uploader t = U);
  T_down : ∀ D d e, nodes s !! D = Some d →
    (current_download d = Some e ↔ ∃ t, inflight s e t ∧ downloader t = D);
  T_ok : ∀ e t, inflight s e t → transfer_ok (nodes s) t
}.

(** An offline node has no transfer in flight. *)
Definition InvO (s : Backup) : Prop :=
  ∀ U u, nodes s !! U = Some u → online u = false →
    current_upload u = None ∧ current_download u = None.

(** [block_size] of the node at position [o]. *)
Definition owner_block_size (ns : list Node) (o : nat) : Z :=
  from_option block_size 0%Z (ns !! o).

(** The space taken by the blocks held for others: each block has the size
    of its owner's blocks. *)
Definition held_size (ns : list Node) (d : list (nat * nat)) : Z :=
  foldr (λ kv acc, (owner_block_size ns kv.1 + acc)%Z) 0%Z d.

(** The invariant on the block tables.  Inside the loop of [Fail.process] on
    node [B], the entries of the items [done] that the loop has gone through
    are already cleared at their owners; between events [done] is empty. *)
Record InvDx (B : nat) (done : list (nat * nat)) (ns : list Node)
    : Prop := mkInvDx {
  D_len : ∀ i x, ns !! i = Some x →
    length (local_blocks x) = Z.to_nat (n (cfg x)) ∧
    length (backed_up_blocks x) = Z.to_nat (n (cfg x));
  D_fwd : ∀ X x i P, ns !! X = Some x →
    backed_up_blocks x !! i = Some (Some P) →
    ∃ p, ns !! P = Some p ∧ (X, i) ∈ remote_blocks_held p;
  D_bwd : ∀ P p X i, ns !! P = Some p → (X, i) ∈ remote_blocks_held p →
    X ≠ P ∧ ∃ x, ns !! X = Some x ∧
      backed_up_blocks x !! i =
        Some (if decide (P = B ∧ (X, i) ∈ done) then None else Some P);
  D_keys : ∀ P p, ns !! P = Some p → NoDup (remote_blocks_held p).*1;
  D_space : ∀ P p, ns !! P = Some p →
    (0 ≤ storage_size (cfg p) - block_size p * n (cfg p))%Z ∧
    (0 ≤ free_space p)%Z ∧
    free_space p =
      (storage_size (cfg p) - block_size p * n (cfg p)
       - held_size ns (remote_blocks_held p))%Z
}.

Definition InvD (ns : list Node) : Prop := InvDx 0 [] ns.

Definition Inv (s : Backup) : Prop :=
  InvD (nodes s) ∧ InvT s ∧ InvO s.

(** What a transfer in flight relies on, at its uploader and at its
    downloader. *)
Definition bu_le (x x' : Node) : Prop :=
  (∀ i, backed_up_blocks x !! i = Some None →
        backed_up_blocks x' !! i = Some None) ∧
  (∀ P, Some P ∈ backed_up_blocks x' → Some P ∈ backed_up_blocks x).

Definition rl_le (x x' : Node) : Prop :=
  (∀ o, o ∈ (remote_blocks_held x').*1 → o ∈ (remote_blocks_held x).*1) ∧
  length (local_blocks x') = length (local_blocks x).

(** The transfer event that [schedule_transfer] creates, and the state it
    leaves. *)
Definition new_transfer (up dn bid : nat) (restore : bool)
    : TransferComplete :=
  mkTransfer (if restore then BlockRestoreComplete else BlockBackupComplete)
    up dn bid false.

Definition with_transfer (s : Backup) (up dn bid : nat) (restore : bool)
    : Backup :=
  let e := length (transfers s) in
  upd_node up (set_current_upload (Some e))
    (upd_node dn (set_current_download (Some e))
       (mkBackup (nodes s) (transfers s ++ [new_transfer up dn bid restore])
          (queue s ++ [Transfer e]))).

(** A node with its two in-flight slots emptied: what the scheduler never
    changes. *)
Definition erase_slots (x : Node) : Node :=
  set_current_upload None (set_current_download None x).

(** The two facts on the block tables that the scheduler relies on. *)
Definition fwd (ns : list Node) : Prop :=
  ∀ X x i P, ns !! X = Some x →
    backed_up_blocks x !! i = Some (Some P) →
    ∃ p, ns !! P = Some p ∧ (X, i) ∈ remote_blocks_held p.

Definition bwd_online (ns : list Node) : Prop :=
  ∀ P p X i, ns !! P = Some p → online p = true →
    (X, i) ∈ remote_blocks_held p →
    ∃ x, ns !! X = Some x ∧ backed_up_blocks x !! i = Some (Some P).

(** Two lists of nodes related position by position. *)
Definition nodes_rel (R : nat → Node → Node → Prop) (ns ns' : list Node)
    : Prop :=
  length ns' = length ns ∧
  ∀ j x x', ns !! j = Some x → ns' !! j = Some x' → R j x x'.

(** The fields that the invariant on the block tables reads are the same. *)
Definition same_data (x x' : Node) : Prop :=
  cfg x' = cfg x ∧ block_size x' = block_size x ∧
  free_space x' = free_space x ∧
  length (local_blocks x') = length (local_blocks x) ∧
  backed_up_blocks x' = backed_up_blocks x ∧
  remote_blocks_held x' = remote_blocks_held x.

Definition same_slots (x x' : Node) : Prop :=
  current_upload x' = current_upload x ∧
  current_download x' = current_download x.

(** What the completion of the backup [t] does to the node at position
    [j], and what the completion of the restore [t] does. *)
Definition backup_rel (t : TransferComplete) (bs : Z) (j : nat)
    (x x' : Node) : Prop :=
  x' = if decide (j = uploader t)
       then set_total_backups_made (total_backups_made x + 1)%Z
              (set_backed_up_blocks
                 (<[block_id t := Some (downloader t)]> (backed_up_blocks x))
                 x)
       else if decide (j = downloader t)
       then set_remote_blocks_held
              (dict_set (uploader t) (block_id t) (remote_blocks_held x))
              (set_free_space (free_space x - bs)%Z x)
       else x.

Definition recovered (x : Node) : Node :=
  if (count_true (local_blocks x) =? k (cfg x))%Z
  then set_total_data_recovered (total_data_recovered x + 1)%Z x
  else x.

Definition restore_rel (t : TransferComplete) (j : nat) (x x' : Node)
    : Prop :=
  x' = if decide (j = downloader t)
       then recovered
              (set_total_restores_made (total_restores_made x + 1)%Z
                 (set_local_blocks (<[block_id t := true]> (local_blocks x))
                    x))
       else x.

(** A node without its links to the rest of the network: the in-flight
    slots and the [online] flag ([erase_conn]), and also the table of its
    backed-up blocks ([erase_links]). *)
Definition erase_conn (x : Node) : Node :=
  set_online false (erase_slots x).

Definition erase_links (x : Node) : Node :=
  set_backed_up_blocks [] (erase_conn x).

(** The statements of [Fail.process] on the failing node itself, the loop
    apart. *)
Definition fail_fields (x : Node) : Node :=
  count_data_loss
    (lose_local_blocks
       (reset_free_space
          (set_remote_blocks_held []
             (lose_local_blocks (count_data_loss (set_failed true x)))))).

(** What the loop of [Fail.process] over [items] does to the node at
    position [j]: the entries of the items are cleared at their owners. *)
Definition cleared_rel (items : list (nat * nat)) (j : nat) (x x' : Node)
    : Prop :=
  erase_links x' = erase_links x ∧
  length (backed_up_blocks x') = length (backed_up_blocks x) ∧
  ∀ i, backed_up_blocks x' !! i =
       if decide ((j, i) ∈ items)
       then (λ _, None) <$> backed_up_blocks x !! i
       else backed_up_blocks x !! i.

(** What [Fail.process] on node [B], which held [items], does to the node at
    position [j]. *)
Definition Fail_rel (B : nat) (items : list (nat * nat)) (j : nat)
    (x x' : Node) : Prop :=
  cleared_rel items j (if decide (j = B) then fail_fields x else x) x'.

(** ** The loop of [Fail.process], as the specification words it *)

(** "For each [(owner, block_id)] in [remote_blocks_held], the failing node
    clears [owner.backed_up_blocks[block_id]]; if that owner is online and
    idle on the upload side, the scheduler is invoked on it." *)
Inductive inbound_loop : Backup → list (nat * nat) → Backup → Prop :=
  | inbound_nil s : inbound_loop s [] s
  | inbound_cons s owner bid o s2 rest s' :
      nodes s !! owner = Some o →
      bid < length (backed_up_blocks o) →
      (if online o && bool_decide (current_upload o = None)
       then schedule_next_upload
              (upd_node owner
                 (set_backed_up_blocks (<[bid:=None]> (backed_up_blocks o)))
                 s) owner = Some s2
       else s2 = upd_node owner
                   (set_backed_up_blocks (<[bid:=None]> (backed_up_blocks o)))
                   s) →
      inbound_loop s2 rest s' →
      inbound_loop s ((owner, bid) :: rest) s'.

(** ** The effect of a disconnection *)

(** The peers of the node [b] in the transfers it is taking part in: the
    downloader of its upload and the uploader of its download. *)
Definition upload_peer (s : Backup) (b : Node) : option nat :=
  e ← current_upload b; downloader <$> transfers s !! e.

Definition download_peer (s : Backup) (b : Node) : option nat :=
  e ← current_download b; uploader <$> transfers s !! e.

(** What [disconnect] on the node [B], which is [b], makes of the node [x]
    at position [j]: [B] goes offline and loses its two slots, the
    downloader of its upload loses its download and the uploader of its
    download loses its upload. *)
Definition disconnected_node (s : Backup) (B : nat) (b : Node) (j : nat)
    (x : Node) : Node :=
  let x1 := if decide (j = B) then set_online false x else x in
  let x2 := if decide (j = B ∨ upload_peer s b = Some j)
            then set_current_download None x1 else x1 in
  if decide (j = B ∨ download_peer s b = Some j)
  then set_current_upload None x2 else x2.

(** What it makes of the transfer event [t] at position [e]: canceled when
    it is the upload or the download of [b]. *)
Definition disconnected_transfer (b : Node) (e : nat)
    (t : TransferComplete) : TransferComplete :=
  if decide (current_upload b = Some e ∨ current_download b = Some e)
  then set_canceled true t else t.

(** The statements of [Fail.process] around its loop.  Before it, on the
    state [s1] that [disconnect] leaves: [node.failed = True], the loss is
    counted and the local blocks are lost.  After it, on the state [s5] that
    the loop leaves: [remote_blocks_held.clear()], the free space is reset,
    the local blocks are lost and the loss is counted once more, and the
    Recover event is scheduled. *)
Definition Fail_start (B : nat) (s1 : Backup) : Backup :=
  upd_node B lose_local_blocks
    (upd_node B count_data_loss (upd_node B (set_failed true) s1)).

Definition Fail_end (B : nat) (s5 : Backup) : Backup :=
  schedule (Recover B)
    (upd_node B count_data_loss
       (upd_node B lose_local_blocks
          (upd_node B reset_free_space
             (upd_node B (set_remote_blocks_held []) s5)))).

(** ** Two small networks *)

(** Node a-0 has one block of 10 bytes and no room for others; node b-0 has
    one block of 5 bytes and 15 bytes for others. *)
Definition demo_cs : list NodeConfig :=
  [ mkNodeConfig "a-0" 1 1 10 10 1 1 1 1 1 1 0;
    mkNodeConfig "b-0" 1 1 5 20 1 1 1 1 1 1 0 ].

Definition no_backup : Backup := mkBackup [] [] [].

(** The state reached from [cs] by processing the events found at the
    positions [picks] of the queue. *)
Definition run_from (cs : list NodeConfig) (picks : list nat) : Backup :=
  default no_backup (Backup_init cs ≫= run_events picks).

(** Both nodes online, the backup of a-0's block to b-0 in flight. *)
Definition st_inflight : Backup := Eval vm_compute in run_from demo_cs [0; 1].

(** The backup has completed: b-0 holds block 0 of a-0. *)
Definition st_backed : Backup := Eval vm_compute in run_from demo_cs [0; 1; 3].

(** a-0 went offline during the transfer: the queued completion is
    canceled. *)
Definition st_canceled : Backup :=
  Eval vm_compute in run_from demo_cs [0; 1; 2].

(** a-0 has failed after its backup. *)
Definition st_failed : Backup :=
  Eval vm_compute in run_from demo_cs [0; 1; 3; 0].

(** a-0 has recovered: the restore of its block from b-0 is in flight. *)
Definition st_recovered : Backup :=
  Eval vm_compute in run_from demo_cs [0; 1; 3; 0; 3].

(** The restore has completed. *)
Definition st_restored : Backup :=
  Eval vm_compute in run_from demo_cs [0; 1; 3; 0; 3; 3].

(** b-0 has failed while holding the block of a-0. *)
Definition st_holder_failed : Backup :=
  Eval vm_compute in run_from demo_cs [0; 1; 3; 1].

(** Three nodes of one block each; a-0 has no room for others.  In
    [st_relay] the block of a-0 is on b-0 and b-0 is uploading its own block
    to c-0; in [st_relay_failed] b-0 has failed. *)
Definition relay_cs : list NodeConfig :=
  [ mkNodeConfig "a-0" 1 1 10 10 1 1 1 1 1 1 0;
    mkNodeConfig "b-0" 1 1 10 20 1 1 1 1 1 1 0;
    mkNodeConfig "c-0" 1 1 10 20 1 1 1 1 1 1 0 ].

Definition st_relay : Backup :=
  Eval vm_compute in run_from relay_cs [0; 1; 2; 4].

Definition st_relay_failed : Backup :=
  Eval vm_compute in run_from relay_cs [0; 1; 2; 4; 1].

Definition no_node : Node :=
  mkNode (mkNodeConfig "" 0 0 0 0 0 0 0 0 0 0 0) false false 0 0 [] [] []
    None None 0 0 0 0.

(** The node at position [i], for the statements about the networks
    above. *)
Definition node_of (s : Backup) (i : nat) : Node :=
  default no_node (nodes s !! i).

(** ** The vulnerable blocks, as the specification words them *)

(** The pairs (owner, block index) of the simulation. *)
Definition block_pairs (s : Backup) : list (nat * nat) :=
  imap pair (nodes s) ≫=
    (λ ix, pair ix.1 <$> seq 0 (length (backed_up_blocks ix.2))).

(** [owner.backed_up_blocks[index]] is present. *)
Definition block_present (s : Backup) (p : nat * nat) : bool :=
  match nodes s !! p.1 with
  | Some x =>
      match backed_up_blocks x !! p.2 with
      | Some (Some _) => true
      | _ => false
      end
  | None => false
  end.

(** The number of remote copies of a block: the nodes that hold it for its
    owner. *)
Definition remote_copies (s : Backup) (owner idx : nat) : nat :=
  length (filter (λ q, dict_get owner (remote_blocks_held q) = Some idx)
            (nodes s)).

(** The figure as the claim words it: the backed-up blocks with exactly one
    remote copy. *)
Definition vulnerable_as_claimed (s : Backup) : Z :=
  Z.of_nat (length (filter
    (λ p, block_present s p = true ∧ remote_copies s p.1 p.2 = 1)
    (block_pairs s))).

(** The figure as the code computes it: the backed-up blocks of the owners
    that exactly one node holds something for. *)
Definition vulnerable_single_holder (s : Backup) : Z :=
  Z.of_nat (length (filter
    (λ p, block_present s p = true ∧ count_holders s p.1 = 1)
    (block_pairs s))).

(** Three nodes of two blocks each, with room for two blocks of others. *)
Definition three_cs : list NodeConfig :=
  [ mkNodeConfig "a-0" 2 2 20 40 1 1 1 1 1 1 0;
    mkNodeConfig "b-0" 2 2 20 40 1 1 1 1 1 1 0;
    mkNodeConfig "c-0" 2 2 20 40 1 1 1 1 1 1 0 ].

(** All six backups have completed: each node has its two blocks on the two
    other nodes. *)
Definition st_three : Backup :=
  Eval vm_compute in run_from three_cs [0; 1; 2; 4; 4; 6; 6; 6; 6].

(** A final state in which each of three nodes has its two blocks recorded
    on one and the same peer, which holds a block for it. *)
Definition with_tables (bu : list (option nat)) (held : list (nat * nat))
    (x : Node) : Node :=
  set_remote_blocks_held held (set_backed_up_blocks bu x).

Definition st_same_peer : Backup :=
  Eval vm_compute in
    mkBackup
      [ with_tables [Some 1; Some 1] [(2, 0)] (node_of (run_from three_cs []) 0);
        with_tables [Some 2; Some 2] [(0, 0)] (node_of (run_from three_cs []) 1);
        with_tables [Some 0; Some 0] [(1, 0)] (node_of (run_from three_cs []) 2) ]
      [] [].

(** What [disconnect] does to the node at a position: the node itself goes
    offline and loses its slots; the slots of the other nodes can only be
    emptied. *)
Definition disconnect_rel (B : nat) (j : nat) (x x' : Node) : Prop :=
  erase_slots x' = erase_slots (if decide (j = B) then set_online false x
                                else x) ∧
  (current_upload x' = current_upload x ∨ current_upload x' = None) ∧
  (current_download x' = current_download x ∨ current_download x' = None) ∧
  (j = B → current_upload x' = None ∧ current_download x' = None).

(** The state of the loop of [Fail.process] on node [B], when the items
    [done] of [B.remote_blocks_held] have been gone through. *)
Definition Fail_loop_inv (B : nat) (items done : list (nat * nat))
    (s : Backup) : Prop :=
  InvDx B done (nodes s) ∧ InvT s ∧ InvO s ∧
  ∃ b, nodes s !! B = Some b ∧ online b = false ∧
       remote_blocks_held b = items.

(** ** Upload selection, as the specification words it *)

Inductive UploadChoice :=
  | UploadRestore (P bid : nat)
  | UploadBackup (i P : nat)
  | UploadNothing.

(** The owner [P] of a held block [bid] can take it back now: it is online,
    has no current download and [P.local_blocks[bid]] is false. *)
Definition restore_wanted (s : Backup) (it : nat * nat) : bool :=
  match nodes s !! it.1 with
  | Some p =>
      online p && bool_decide (current_download p = None)
      && bool_decide (local_blocks p !! it.2 = Some false)
  | None => false
  end.

(** The first such item of [U.remote_blocks_held], in insertion order. *)
Definition first_restore (s : Backup) (me : Node) : option (nat * nat) :=
  find (restore_wanted s) (remote_blocks_held me).

(** The first block of [U] that is present locally and not backed up yet. *)
Definition first_unbacked_block (me : Node) : option nat :=
  find (λ i, bool_decide (local_blocks me !! i = Some true ∧
                          backed_up_blocks me !! i = Some None))
    (seq 0 (length (local_blocks me))).

(** A peer that can take a new block of [U]: distinct from [U], online,
    holding no block of [U], with no current download and room for a block
    of [U]. *)
Definition backup_peer_ok (U : nat) (me : Node) (ip : nat * Node) : bool :=
  bool_decide (ip.1 ≠ U) && online ip.2
  && negb (dict_mem U (remote_blocks_held ip.2))
  && bool_decide (current_download ip.2 = None)
  && (block_size me <=? free_space ip.2)%Z.

(** The first such peer, in the order of [sim.nodes]. *)
Definition first_backup_peer (s : Backup) (U : nat) (me : Node)
    : option nat :=
  fst <$> find (backup_peer_ok U me) (imap pair (nodes s)).

Definition upload_selection (s : Backup) (U : nat) (me : Node)
    : UploadChoice :=
  match first_restore s me with
  | Some (P, bid) => UploadRestore P bid
  | None =>
      match first_unbacked_block me with
      | Some i =>
          match first_backup_peer s U me with
          | Some P => UploadBackup i P
          | None => UploadNothing
          end
      | None => UploadNothing
      end
  end.

(** What the selection makes of the state: the transfer it schedules, if
    any. *)
Definition selected_transfer (s : Backup) (U : nat) (c : UploadChoice)
    : option Backup :=
  match c with
  | UploadRestore P bid => schedule_transfer s U P bid true
  | UploadBackup i P => schedule_transfer s U P i false
  | UploadNothing => Some s
  end.

(** What the scheduler relies on wherever it is called, between two events
    and inside the processing of one: the two block vectors of a node have
    the same length, and the two tables agree on the holders that are
    online. *)
Record sched_pre (ns : list Node) : Prop := mkSchedPre {
  S_len : ∀ i x, ns !! i = Some x →
    length (local_blocks x) = length (backed_up_blocks x);
  S_fwd : fwd ns;
  S_bwd : bwd_online ns
}.

(** The three nodes online, the first of them gone offline while it was
    exchanging blocks with the second: the second and the third are idle. *)
Definition st_idle_backup : Backup :=
  Eval vm_compute in run_from three_cs [0; 1; 2; 3].

(** After [st_three]: the first node has failed and recovered, and the
    second has gone offline while it was giving a block back to the first;
    the third still holds a block of the first. *)
Definition st_idle_restore : Backup :=
  Eval vm_compute in run_from three_cs [0; 1; 2; 4; 4; 6; 6; 6; 6; 0; 5; 3].

(** ** The configuration of a node *)

(** [data_size // k if k > 0 else 0]: the block size that
    [Node.__post_init__] derives from a configuration. *)
Definition own_block_size (c : NodeConfig) : Z :=
  if (0 <? k c)%Z then (data_size c / k c)%Z else 0%Z.

(** The node as it is created: offline, with all its blocks and none backed
    up. *)
Definition fresh_node (c : NodeConfig) : Node :=
  mkNode c false false (own_block_size c)
    (storage_size c - own_block_size c * n c)
    (replicate (Z.to_nat (n c)) true) (replicate (Z.to_nat (n c)) None)
    [] None None 0 0 0 0.

(** ** What a run needs of the configurations *)

(** No division by zero: [schedule_transfer] divides by the slower of two
    speeds and [exp_rv] by a mean time. *)
Definition run_ok (c : NodeConfig) : Prop :=
  upload_speed c ≠ 0%Z ∧ download_speed c ≠ 0%Z ∧
  Qeq_bool (average_uptime c) 0 = false ∧
  Qeq_bool (average_downtime c) 0 = false ∧
  Qeq_bool (average_lifetime c) 0 = false ∧
  Qeq_bool (average_recover_time c) 0 = false.

(** The configurations for which the arithmetic of a run stays within the
    range of the floating-point numbers: positive integer speeds and a data
    size below [2^1000], so that [block_size / speed] is a float; mean times
    between [2^-64] and [2^64] seconds, so that [1 / mean] is neither zero
    nor infinite; an arrival time between zero and [2^64] seconds; at most
    [2^31] blocks. *)
Definition time_in_range (t : Q) : bool :=
  Qle_bool (1 # 2 ^ 64) t && Qle_bool t (inject_Z (2 ^ 64)).

Definition in_range (c : NodeConfig) : Prop :=
  (0 < upload_speed c)%Z ∧ (0 < download_speed c)%Z ∧
  (0 ≤ data_size c < 2 ^ 1000)%Z ∧ (0 ≤ n c ≤ 2 ^ 31)%Z ∧
  time_in_range (average_uptime c) = true ∧
  time_in_range (average_downtime c) = true ∧
  time_in_range (average_lifetime c) = true ∧
  time_in_range (average_recover_time c) = true ∧
  Qle_bool 0 (arrival_time c) = true ∧
  Qle_bool (arrival_time c) (inject_Z (2 ^ 64)) = true.

(** The node that an event is about. *)
Definition event_node (ev : Event) : option nat :=
  match ev with
  | Online nd | Recover nd | Offline nd | Fail nd => Some nd
  | Transfer _ => None
  end.

(** What processing the pending events relies on, besides [Inv]: the
    configurations allow the divisions, the queued events are about nodes of
    the simulation, and the downloader of a backup in flight has the room
    that the scheduler has checked. *)
Record InvP (s : Backup) : Prop := mkInvP {
  P_cfg : ∀ i x, nodes s !! i = Some x → run_ok (cfg x);
  P_events : ∀ ev nd, ev ∈ queue s → event_node ev = Some nd →
    nd < length (nodes s);
  P_room : ∀ e t, inflight s e t → kind t = BlockBackupComplete →
    ∃ u d, nodes s !! uploader t = Some u ∧
      nodes s !! downloader t = Some d ∧
      (block_size u ≤ free_space d)%Z
}.

(** No node holds a block of its own. *)
Definition self_free (ns : list Node) : Prop :=
  ∀ P p X i, ns !! P = Some p → (X, i) ∈ remote_blocks_held p → X ≠ P.

(** ** Download selection, as a search *)

(** The first element of a list for which [f] gives something, with what it
    gives. *)
Fixpoint find_map {A B} (f : A → option B) (l : list A) : option (A * B) :=
  match l with
  | [] => None
  | a :: l' =>
      match f a with
      | Some b => Some (a, b)
      | None => find_map f l'
      end
  end.

Inductive DownloadChoice :=
  | DownloadRestore (P bid : nat)
  | DownloadBackup (P bid : nat)
  | DownloadNothing.

(** The peer to get block [i] back from: the block is missing locally and
    recorded on a peer that is online and has no current upload. *)
Definition restore_source (s : Backup) (lb : list bool)
    (bu : list (option nat)) (i : nat) : option nat :=
  match lb !! i, bu !! i with
  | Some false, Some (Some P) =>
      match nodes s !! P with
      | Some p =>
          if online p && bool_decide (current_upload p = None)
          then Some P else None
      | None => None
      end
  | _, _ => None
  end.

(** The block that the peer [ip] can back up on node [D]: the peer is not
    [D], is online, has no current upload, has no block on [D] yet, [D] has
    the room for one of its blocks, and it has a block to back up. *)
Definition backup_source (D : nat) (me : Node) (ip : nat * Node)
    : option nat :=
  if bool_decide (ip.1 ≠ D) && online ip.2
     && bool_decide (current_upload ip.2 = None)
     && negb (dict_mem ip.1 (remote_blocks_held me))
     && (block_size ip.2 <=? free_space me)%Z
  then find_block_to_back_up ip.2
  else None.

Definition download_selection (s : Backup) (D : nat) (me : Node)
    : DownloadChoice :=
  match find_map (restore_source s (local_blocks me) (backed_up_blocks me))
          (seq 0 (length (local_blocks me))) with
  | Some (i, P) => DownloadRestore P i
  | None =>
      match find_map (backup_source D me) (imap pair (nodes s)) with
      | Some (ip, bid) => DownloadBackup ip.1 bid
      | None => DownloadNothing
      end
  end.

Definition selected_download (s : Backup) (D : nat) (c : DownloadChoice)
    : option Backup :=
  match c with
  | DownloadRestore P bid => schedule_transfer s P D bid true
  | DownloadBackup P bid => schedule_transfer s P D bid false
  | DownloadNothing => Some s
  end.

(** ** What an event adds to the queue *)

(** From [s] to [s'], at most [k] transfers have been scheduled: the queue
    has grown by their completion events, the transfer events that existed
    are as they were. *)
Definition adds_transfers (k : nat) (s s' : Backup) : Prop :=
  (∃ q, queue s' = queue s ++ q ∧ length q ≤ k ∧
     ∀ ev, ev ∈ q → ∃ e, ev = Transfer e ∧ length (transfers s) ≤ e) ∧
  (∀ e t, transfers s !! e = Some t → transfers s' !! e = Some t) ∧
  length (transfers s) ≤ length (transfers s').

(** ** What an event may do to a node *)

(** From one event to the next, the configuration and the block size of a
    node stay, a failed node stays offline, and the counters only grow, the
    recoveries no more than the restores. *)
Record node_step (x x' : Node) : Prop := mkNodeStep {
  NS_cfg : cfg x' = cfg x;
  NS_bs : block_size x' = block_size x;
  NS_flags : (failed x = true → online x = false) →
             failed x' = true → online x' = false;
  NS_loss : (total_data_loss_events x ≤ total_data_loss_events x')%Z;
  NS_bak : (total_backups_made x ≤ total_backups_made x')%Z;
  NS_rec : (total_data_recovered x ≤ total_data_recovered x')%Z;
  NS_res : (total_data_recovered x' - total_data_recovered x
            ≤ total_restores_made x' - total_restores_made x)%Z
}.

(** * Proofs *)

(** ** Lists, dicts and updates *)

Lemma alter_lookup_inv {A} (f : A → A) (l : list A) i j y :
  alter f i l !! j = Some y →
  ∃ x, l !! j = Some x ∧ y = if decide (i = j) then f x else x.
Proof.
  rewrite list_lookup_alter. case_decide; subst.
  - destruct (l !! j) as [x|]; simpl; [|done]. intros [= <-]. eauto.
  - eauto.
Qed.

Lemma alter_lookup_fwd {A} (f : A → A) (l : list A) i j x :
  l !! j = Some x →
  alter f i l !! j = Some (if decide (i = j) then f x else x).
Proof.
  intros H. rewrite list_lookup_alter. case_decide; subst; by rewrite ?H.
Qed.

Lemma list_assign_Some {A} (l : list A) i x l' :
  list_assign l i x = Some l' ↔ i < length l ∧ l' = <[i:=x]> l.
Proof.
  unfold list_assign. destruct (decide (i < length l)) as [Hlt|Hge].
  - split; [intros [= <-]; done|]. by intros [_ ->].
  - split; [done|]. by intros [? _].
Qed.

Lemma list_assign_is_Some {A} (l : list A) i x :
  i < length l → list_assign l i x = Some (<[i:=x]> l).
Proof. intros. by apply list_assign_Some. Qed.

Lemma dict_mem_true key d : dict_mem key d = true ↔ key ∈ d.*1.
Proof.
  unfold dict_mem. rewrite existsb_exists, list_elem_of_fmap. split.
  - intros (kv & Hin & Hk). apply bool_decide_eq_true in Hk.
    exists kv. split; [done|]. by apply list_elem_of_In.
  - intros (kv & -> & Hin). exists kv. split; [by apply list_elem_of_In|].
    by apply bool_decide_eq_true.
Qed.

Lemma dict_mem_false key d : dict_mem key d = false ↔ key ∉ d.*1.
Proof.
  rewrite <- dict_mem_true. destruct (dict_mem key d); naive_solver.
Qed.

Lemma dict_set_fresh key v d :
  key ∉ d.*1 → dict_set key v d = d ++ [(key, v)].
Proof.
  induction d as [|[k' v'] d IH]; simpl; [done|].
  rewrite not_elem_of_cons. intros [Hne Hd].
  case_decide; [congruence|]. by rewrite IH.
Qed.

Lemma dict_get_elem key v d :
  NoDup d.*1 → (key, v) ∈ d → dict_get key d = Some v.
Proof.
  induction d as [|[k' v'] d IH]; simpl.
  - intros _ Hin. by apply elem_of_nil in Hin.
  - rewrite NoDup_cons, elem_of_cons. intros [Hk Hd] [Heq|Hin].
    + injection Heq as <- <-. by rewrite decide_True.
    + case_decide; subst.
      * exfalso. apply Hk. apply list_elem_of_fmap. by exists (key, v).
      * by apply IH.
Qed.

Lemma dict_get_Some key v d : dict_get key d = Some v → (key, v) ∈ d.
Proof.
  induction d as [|[k' v'] d IH]; simpl; [done|].
  case_decide; subst.
  - intros [= ->]. apply elem_of_cons. by left.
  - intros Hg. apply elem_of_cons. right. by apply IH.
Qed.

Lemma in_remote_owners_true x bu :
  in_remote_owners x bu = true ↔ Some x ∈ bu.
Proof.
  unfold in_remote_owners. rewrite existsb_exists. split.
  - intros (o & Hin & Ho). apply bool_decide_eq_true in Ho. subst.
    by apply list_elem_of_In.
  - intros Hin. exists (Some x). split; [by apply list_elem_of_In|].
    by apply bool_decide_eq_true.
Qed.

Lemma in_remote_owners_false x bu :
  in_remote_owners x bu = false ↔ Some x ∉ bu.
Proof.
  rewrite <- in_remote_owners_true.
  destruct (in_remote_owners x bu); naive_solver.
Qed.

Lemma transfer_ids_app q1 q2 :
  transfer_ids (q1 ++ q2) = transfer_ids q1 ++ transfer_ids q2.
Proof. unfold transfer_ids. apply omap_app. Qed.

Lemma elem_of_transfer_ids e q : e ∈ transfer_ids q ↔ Transfer e ∈ q.
Proof.
  unfold transfer_ids. rewrite list_elem_of_omap. split.
  - intros (ev & Hin & Hev). destruct ev; naive_solver.
  - intros Hin. by exists (Transfer e).
Qed.

Lemma held_size_app ns d1 d2 :
  held_size ns (d1 ++ d2) = (held_size ns d1 + held_size ns d2)%Z.
Proof.
  unfold held_size. induction d1 as [|kv d1 IH]; simpl; [done|].
  rewrite IH. lia.
Qed.

(** [held_size] only looks at the block sizes, which no update changes. *)
Lemma held_size_ext ns ns' d :
  (∀ o, owner_block_size ns' o = owner_block_size ns o) →
  held_size ns' d = held_size ns d.
Proof.
  intros H. unfold held_size. induction d as [|kv d IH]; simpl; [done|].
  by rewrite IH, H.
Qed.

Lemma owner_block_size_alter ns i f o :
  (∀ x, block_size (f x) = block_size x) →
  owner_block_size (alter f i ns) o = owner_block_size ns o.
Proof.
  intros Hf. unfold owner_block_size. rewrite list_lookup_alter.
  case_decide; subst; [|done]. destruct (ns !! o); simpl; [apply Hf|done].
Qed.

(** ** The loops of the scheduler *)

Lemma find_block_from_Some i lb bu b :
  find_block_from i lb bu = Some b →
  i ≤ b ∧ lb !! (b - i) = Some true ∧ bu !! (b - i) = Some None.
Proof.
  revert i bu. induction lb as [|held lb IH]; intros i [|peer bu]; simpl;
    try done.
  destruct held, peer as [p|]; try (intros H; apply IH in H as (? & ? & ?);
    replace (b - i) with (S (b - S i)) by lia; simpl; split; [lia|done]).
  intros [= ->]. rewrite Nat.sub_diag. split; [lia|done].
Qed.

Lemma find_block_to_back_up_Some x b :
  find_block_to_back_up x = Some b →
  local_blocks x !! b = Some true ∧ backed_up_blocks x !! b = Some None.
Proof.
  intros H. apply find_block_from_Some in H as (_ & H1 & H2).
  by rewrite Nat.sub_0_r in H1, H2.
Qed.

Lemma upload_restore_loop_Some s items peer bid :
  upload_restore_loop s items = Some (Some (peer, bid)) →
  (peer, bid) ∈ items ∧
  ∃ p, nodes s !! peer = Some p ∧ online p = true ∧
    current_download p = None ∧ local_blocks p !! bid = Some false.
Proof.
  induction items as [|[pe b] items IH]; simpl; [done|].
  intros H. apply bind_Some in H as (p & Hp & H).
  assert (upload_restore_loop s items = Some (Some (peer, bid)) →
    (peer, bid) ∈ (pe, b) :: items ∧
    ∃ p, nodes s !! peer = Some p ∧ online p = true ∧
      current_download p = None ∧ local_blocks p !! bid = Some false) as IH'.
  { intros H'. apply IH in H' as [? ?]. split; [|done].
    apply elem_of_cons. by right. }
  destruct (online p) eqn:Hon; [|by apply IH'].
  destruct (current_download p) eqn:Hcd; [by apply IH'|].
  destruct (local_blocks p !! b) as [[]|] eqn:Hlb; [by apply IH'| |done].
  injection H as <- <-. split; [apply elem_of_cons; by left|eauto].
Qed.

Lemma upload_backup_loop_Some self me i ns peer :
  upload_backup_loop self me i ns = Some peer →
  i ≤ peer ∧ ∃ p, ns !! (peer - i) = Some p ∧ peer ≠ self ∧
    online p = true ∧ (Some peer ∉ backed_up_blocks me) ∧
    current_download p = None ∧ (block_size me ≤ free_space p)%Z.
Proof.
  revert i. induction ns as [|p ns IH]; intros i; simpl; [done|].
  destruct (bool_decide (i ≠ self) && online p
            && negb (in_remote_owners i (backed_up_blocks me))
            && bool_decide (current_download p = None)
            && (block_size me <=? free_space p)%Z) eqn:Hc.
  - intros [= <-]. rewrite Nat.sub_diag. split; [lia|]. exists p.
    rewrite !andb_true_iff in Hc. destruct Hc as [[[[H1 H2] H3] H4] H5].
    apply bool_decide_eq_true in H1, H4. apply negb_true_iff in H3.
    apply in_remote_owners_false in H3. apply Z.leb_le in H5. done.
  - intros H. apply IH in H as (Hle & p' & Hp' & Hrest).
    split; [lia|]. exists p'.
    replace (peer - i) with (S (peer - S i)) by lia. done.
Qed.

Lemma download_restore_loop_Some s i lb bu peer bid :
  download_restore_loop s i lb bu = Some (Some (peer, bid)) →
  i ≤ bid ∧ lb !! (bid - i) = Some false ∧ bu !! (bid - i) = Some (Some peer) ∧
  ∃ p, nodes s !! peer = Some p ∧ online p = true ∧ current_upload p = None.
Proof.
  revert i bu. induction lb as [|held lb IH]; intros i [|o bu]; simpl;
    try done.
  assert (download_restore_loop s (S i) lb bu = Some (Some (peer, bid)) →
    i ≤ bid ∧ (held :: lb) !! (bid - i) = Some false ∧
    (o :: bu) !! (bid - i) = Some (Some peer) ∧
    ∃ p, nodes s !! peer = Some p ∧ online p = true ∧
      current_upload p = None) as IH'.
  { intros H. apply IH in H as (? & ? & ? & ?).
    replace (bid - i) with (S (bid - S i)) by lia. simpl.
    split; [lia|done]. }
  destruct held; [by destruct o|]. destruct o as [p|]; [|done].
  intros H. apply bind_Some in H as (pn & Hpn & H).
  destruct (online pn) eqn:Hon; [|by apply IH'].
  destruct (current_upload pn) eqn:Hcu; [by apply IH'|].
  injection H as <- <-. rewrite Nat.sub_diag. simpl.
  split; [lia|]. eauto 10.
Qed.

Lemma download_backup_loop_Some self me i ns peer bid :
  download_backup_loop self me i ns = Some (peer, bid) →
  i ≤ peer ∧ ∃ p, ns !! (peer - i) = Some p ∧ peer ≠ self ∧
    online p = true ∧ current_upload p = None ∧
    (peer ∉ (remote_blocks_held me).*1) ∧
    find_block_to_back_up p = Some bid.
Proof.
  revert i. induction ns as [|p ns IH]; intros i; simpl; [done|].
  assert (download_backup_loop self me (S i) ns = Some (peer, bid) →
    i ≤ peer ∧ ∃ p', (p :: ns) !! (peer - i) = Some p' ∧ peer ≠ self ∧
      online p' = true ∧ current_upload p' = None ∧
      (peer ∉ (remote_blocks_held me).*1) ∧
      find_block_to_back_up p' = Some bid) as IH'.
  { intros H. apply IH in H as (Hle & p' & Hp' & Hrest).
    split; [lia|]. exists p'.
    replace (peer - i) with (S (peer - S i)) by lia. done. }
  destruct (bool_decide (i ≠ self) && online p
            && bool_decide (current_upload p = None)
            && negb (dict_mem i (remote_blocks_held me))
            && (block_size p <=? free_space me)%Z) eqn:Hc; [|done].
  destruct (find_block_to_back_up p) as [b|] eqn:Hfb; [|done].
  intros [= <- <-]. rewrite Nat.sub_diag. split; [lia|]. exists p.
  rewrite !andb_true_iff in Hc. destruct Hc as [[[[H1 H2] H3] H4] H5].
  apply bool_decide_eq_true in H1, H3. apply negb_true_iff in H4.
  apply dict_mem_false in H4. done.
Qed.

(** ** Transfers in flight *)

(** Inverts a lookup in a list of nodes after a chain of updates. *)
Ltac alter_inv H :=
  repeat lazymatch type of H with
  | alter _ _ _ !! _ = Some _ =>
      let x := fresh "x" in let Hx := fresh "Hx" in let E := fresh "E" in
      apply alter_lookup_inv in H as (x & Hx & E); try rename Hx into H
  end.

Lemma inflight_fun s e t t' : inflight s e t → inflight s e t' → t = t'.
Proof. intros (H1 & _) (H2 & _). congruence. Qed.

Lemma inflight_up_inj s e t e' t' :
  InvT s → inflight s e t → inflight s e' t' →
  uploader t = uploader t' → e = e'.
Proof.
  intros HT H1 H2 Heq.
  destruct (T_ok s HT e t H1) as (_ & u & d & Hu & _).
  assert (current_upload u = Some e) as E1 by (apply (T_up s HT _ _ _ Hu); eauto).
  assert (current_upload u = Some e') as E2
    by (apply (T_up s HT _ _ _ Hu); eauto).
  congruence.
Qed.

Lemma inflight_down_inj s e t e' t' :
  InvT s → inflight s e t → inflight s e' t' →
  downloader t = downloader t' → e = e'.
Proof.
  intros HT H1 H2 Heq.
  destruct (T_ok s HT e t H1) as (_ & u & d & _ & Hd & _).
  assert (current_download d = Some e) as E1
    by (apply (T_down s HT _ _ _ Hd); eauto).
  assert (current_download d = Some e') as E2
    by (apply (T_down s HT _ _ _ Hd); eauto).
  congruence.
Qed.

Lemma bu_le_eq x x' : backed_up_blocks x' = backed_up_blocks x → bu_le x x'.
Proof. intros E. unfold bu_le. rewrite E. done. Qed.

Lemma rl_le_eq x x' :
  remote_blocks_held x' = remote_blocks_held x →
  length (local_blocks x') = length (local_blocks x) → rl_le x x'.
Proof. intros E E'. unfold rl_le. rewrite E, E'. done. Qed.

Lemma transfer_ok_mono ns ns' t :
  transfer_ok ns t →
  (∀ u, ns !! uploader t = Some u →
        ∃ u', ns' !! uploader t = Some u' ∧ bu_le u u') →
  (∀ d, ns !! downloader t = Some d →
        ∃ d', ns' !! downloader t = Some d' ∧ rl_le d d') →
  transfer_ok ns' t.
Proof.
  intros (Hne & u & d & Hu & Hd & Hk) HU HD.
  destruct (HU u Hu) as (u' & Hu' & Hb1 & Hb2).
  destruct (HD d Hd) as (d' & Hd' & Hr1 & Hr2).
  split; [done|]. exists u', d'. split; [done|]. split; [done|].
  destruct (kind t).
  - destruct Hk as (K1 & K2 & K3). split; [by apply Hb1|].
    split; [intros Hin; by apply K2, Hb2|intros Hin; by apply K3, Hr1].
  - by rewrite Hr2.
Qed.

Lemma InvT_shrink s s' :
  InvT s →
  NoDup (transfer_ids (queue s')) →
  (∀ e, e ∈ transfer_ids (queue s') → e < length (transfers s')) →
  (∀ e t, inflight s' e t → inflight s e t) →
  (∀ j x', nodes s' !! j = Some x' → ∃ x, nodes s !! j = Some x ∧
     (∀ e, current_upload x' = Some e ↔
           current_upload x = Some e ∧ ∃ t, inflight s' e t) ∧
     (∀ e, current_download x' = Some e ↔
           current_download x = Some e ∧ ∃ t, inflight s' e t)) →
  (∀ e t, inflight s' e t → transfer_ok (nodes s) t →
          transfer_ok (nodes s') t) →
  InvT s'.
Proof.
  intros HT Hnd Hrg Hsub Hnodes Hok. split; [done|done| | |].
  - intros U u' e Hu'. destruct (Hnodes U u' Hu') as (u & Hu & Hcu & _).
    rewrite Hcu. split.
    + intros [Hc [t Ht]]. exists t. split; [done|].
      apply (T_up s HT _ _ _ Hu) in Hc as (t1 & Ht1 & <-).
      by rewrite (inflight_fun s e t t1) by auto.
    + intros (t & Ht & <-). split; [|eauto].
      apply (T_up s HT _ _ _ Hu). eauto.
  - intros D d' e Hd'. destruct (Hnodes D d' Hd') as (d & Hd & _ & Hcd).
    rewrite Hcd. split.
    + intros [Hc [t Ht]]. exists t. split; [done|].
      apply (T_down s HT _ _ _ Hd) in Hc as (t1 & Ht1 & <-).
      by rewrite (inflight_fun s e t t1) by auto.
    + intros (t & Ht & <-). split; [|eauto].
      apply (T_down s HT _ _ _ Hd). eauto.
  - intros e t Ht. apply (Hok e t Ht). apply (T_ok s HT e). auto.
Qed.

(** Updates that touch neither the slots nor the transfers in flight. *)
Lemma InvT_frame s s' :
  InvT s →
  NoDup (transfer_ids (queue s')) →
  (∀ e, e ∈ transfer_ids (queue s') → e < length (transfers s')) →
  (∀ e t, inflight s' e t ↔ inflight s e t) →
  (∀ j x', nodes s' !! j = Some x' → ∃ x, nodes s !! j = Some x ∧
     current_upload x' = current_upload x ∧
     current_download x' = current_download x) →
  (∀ e t, inflight s e t → transfer_ok (nodes s) t →
          transfer_ok (nodes s') t) →
  InvT s'.
Proof.
  intros HT Hnd Hrg Hin Hnodes Hok.
  apply (InvT_shrink s s' HT); [done|done| | |].
  - intros e t. by rewrite Hin.
  - intros j x' Hx'. destruct (Hnodes j x' Hx') as (x & Hx & Eu & Ed).
    exists x. split; [done|]. rewrite Eu, Ed. split; intros e.
    + split; [|by intros [? _]]. intros Hc. split; [done|].
      apply (T_up s HT _ _ _ Hx) in Hc as (t & Ht & _).
      exists t. by apply Hin.
    + split; [|by intros [? _]]. intros Hc. split; [done|].
      apply (T_down s HT _ _ _ Hx) in Hc as (t & Ht & _).
      exists t. by apply Hin.
  - intros e t Ht. apply (Hok e). by apply Hin.
Qed.

(** A transfer leaves the set of the transfers in flight: it completes or
    it is canceled. *)
Lemma InvT_retire s s' e0 t0 :
  InvT s → inflight s e0 t0 →
  NoDup (transfer_ids (queue s')) →
  (∀ e, e ∈ transfer_ids (queue s') → e < length (transfers s')) →
  (∀ e t, inflight s' e t ↔ inflight s e t ∧ e ≠ e0) →
  (∀ j x', nodes s' !! j = Some x' → ∃ x, nodes s !! j = Some x ∧
     current_upload x' =
       (if decide (j = uploader t0) then None else current_upload x) ∧
     current_download x' =
       (if decide (j = downloader t0) then None else current_download x)) →
  (∀ e t, inflight s e t → e ≠ e0 → transfer_ok (nodes s) t →
          transfer_ok (nodes s') t) →
  InvT s'.
Proof.
  intros HT H0 Hnd Hrg Hin Hnodes Hok.
  apply (InvT_shrink s s' HT); [done|done| | |].
  - intros e t Ht. by apply Hin in Ht as [? _].
  - intros j x' Hx'. destruct (Hnodes j x' Hx') as (x & Hx & Eu & Ed).
    exists x. split; [done|]. rewrite Eu, Ed. split; intros e.
    + destruct (decide (j = uploader t0)) as [->|Hj].
      * split; [done|]. intros [Hc [t Ht]]. apply Hin in Ht as [Ht Hne].
        apply (T_up s HT _ _ _ Hx) in Hc as (t1 & Ht1 & E1).
        destruct Hne. by apply (inflight_up_inj s e t1 e0 t0).
      * split; [|by intros [? _]]. intros Hc. split; [done|].
        apply (T_up s HT _ _ _ Hx) in Hc as (t1 & Ht1 & E1).
        exists t1. apply Hin. split; [done|]. intros ->.
        rewrite (inflight_fun s e0 t0 t1) in Hj by auto. by subst.
    + destruct (decide (j = downloader t0)) as [->|Hj].
      * split; [done|]. intros [Hc [t Ht]]. apply Hin in Ht as [Ht Hne].
        apply (T_down s HT _ _ _ Hx) in Hc as (t1 & Ht1 & E1).
        destruct Hne. by apply (inflight_down_inj s e t1 e0 t0).
      * split; [|by intros [? _]]. intros Hc. split; [done|].
        apply (T_down s HT _ _ _ Hx) in Hc as (t1 & Ht1 & E1).
        exists t1. apply Hin. split; [done|]. intros ->.
        rewrite (inflight_fun s e0 t0 t1) in Hj by auto. by subst.
  - intros e t Ht. apply Hin in Ht as [Ht Hne]. by apply (Hok e).
Qed.

Lemma schedule_transfer_Some s up dn bid r s' :
  schedule_transfer s up dn bid r = Some s' ↔
  ∃ u d, nodes s !! up = Some u ∧ nodes s !! dn = Some d ∧
    current_upload u = None ∧ current_download d = None ∧
    Z.min (upload_speed (cfg u)) (download_speed (cfg d)) ≠ 0%Z ∧
    up ≠ dn ∧ s' = with_transfer s up dn bid r.
Proof.
  unfold schedule_transfer. split.
  - intros H. apply bind_Some in H as (u & Hu & H).
    apply bind_Some in H as (d & Hd & H).
    destruct (current_upload u) eqn:Hcu; [done|].
    destruct (current_download d) eqn:Hcd; [done|].
    destruct (Z.eqb_spec (Z.min (upload_speed (cfg u))
                (download_speed (cfg d))) 0) as [|Hsp]; [done|].
    destruct (decide (up = dn)) as [|Hne]; [done|].
    injection H as <-. exists u, d. done.
  - intros (u & d & Hu & Hd & Hcu & Hcd & Hsp & Hne & ->).
    rewrite Hu. simpl. rewrite Hd. simpl. rewrite Hcu, Hcd.
    destruct (Z.eqb_spec (Z.min (upload_speed (cfg u))
                (download_speed (cfg d))) 0) as [|_]; [done|].
    by destruct (decide (up = dn)).
Qed.

Lemma inflight_with_transfer s up dn bid r e t :
  InvT s →
  inflight (with_transfer s up dn bid r) e t ↔
  inflight s e t ∨
  (e = length (transfers s) ∧ t = new_transfer up dn bid r).
Proof.
  intros HT. unfold inflight, with_transfer. simpl.
  rewrite transfer_ids_app. simpl. rewrite elem_of_app, list_elem_of_singleton.
  split.
  - intros (Hl & Hc & Hq).
    destruct (decide (e < length (transfers s))) as [Hlt|Hge].
    + left. rewrite lookup_app_l in Hl by done. split; [done|].
      split; [done|]. destruct Hq as [| ->]; [done|lia].
    + right. rewrite lookup_app_r in Hl by lia.
      destruct (e - length (transfers s)) as [|k] eqn:Ek; [|done].
      simpl in Hl. injection Hl as <-. split; [|done].
      apply lookup_lt_Some in Hl || idtac.
      destruct Hq as [Hq| ->]; [|done].
      apply (T_range s HT) in Hq. lia.
  - intros [(Hl & Hc & Hq)|[-> ->]].
    + split; [by apply lookup_app_l_Some|]. auto.
    + rewrite lookup_app_r by lia. rewrite Nat.sub_diag. simpl. auto.
Qed.

Lemma transfer_ok_same ns ns' t :
  (∀ j x, ns !! j = Some x → ∃ x', ns' !! j = Some x' ∧
     backed_up_blocks x' = backed_up_blocks x ∧
     remote_blocks_held x' = remote_blocks_held x ∧
     length (local_blocks x') = length (local_blocks x)) →
  transfer_ok ns t → transfer_ok ns' t.
Proof.
  intros H Hok. apply (transfer_ok_mono ns ns' t Hok).
  - intros u Hu. destruct (H _ _ Hu) as (u' & Hu' & E1 & E2 & E3).
    exists u'. split; [done|]. by apply bu_le_eq.
  - intros d Hd. destruct (H _ _ Hd) as (d' & Hd' & E1 & E2 & E3).
    exists d'. split; [done|]. by apply rl_le_eq.
Qed.

Lemma InvT_add s up dn bid r u d :
  InvT s → InvO s →
  nodes s !! up = Some u → nodes s !! dn = Some d →
  current_upload u = None → current_download d = None → up ≠ dn →
  online u = true → online d = true →
  transfer_ok (nodes s) (new_transfer up dn bid r) →
  InvT (with_transfer s up dn bid r) ∧ InvO (with_transfer s up dn bid r).
Proof.
  intros HT HO Hu Hd Hcu Hcd Hne Hou Hod Hok.
  pose proof (inflight_with_transfer s up dn bid r) as Hin.
  set (s' := with_transfer s up dn bid r) in *.
  assert (∀ j x, nodes s !! j = Some x → ∃ x', nodes s' !! j = Some x' ∧
     backed_up_blocks x' = backed_up_blocks x ∧
     remote_blocks_held x' = remote_blocks_held x ∧
     length (local_blocks x') = length (local_blocks x)) as Hsame.
  { intros j x Hx. eexists. split.
    - unfold s', with_transfer. simpl.
      apply alter_lookup_fwd, alter_lookup_fwd, Hx.
    - by repeat case_decide. }
  split; [split|].
  - unfold s', with_transfer. simpl. rewrite transfer_ids_app. simpl.
    apply NoDup_app. split; [apply (T_nodup s HT)|].
    split; [|apply NoDup_singleton].
    intros e He ->%list_elem_of_singleton. apply (T_range s HT) in He. lia.
  - unfold s', with_transfer. simpl. intros e.
    rewrite transfer_ids_app, elem_of_app, length_app. simpl.
    intros [He| ->%list_elem_of_singleton]; [|lia].
    apply (T_range s HT) in He. lia.
  - intros U u' e Hu'. unfold s', with_transfer in Hu'. simpl in Hu'.
    alter_inv Hu'. setoid_rewrite (Hin _ _ HT).
    destruct (decide (up = U)) as [<-|HU].
    + assert (current_upload u' = Some (length (transfers s))) as ->
        by (by subst).
      split.
      * intros [= <-]. eexists. split; [by right|done].
      * intros (t & [Ht| [-> ->]] & Eu); [|done].
        assert (current_upload u = Some e) as Hc
          by (apply (T_up s HT _ _ _ Hu); eauto).
        congruence.
    + assert (current_upload u' = current_upload x0) as ->
        by (subst; by case_decide).
      rewrite (T_up s HT _ _ e Hu'). split.
      * intros (t & Ht & Eu). eauto.
      * intros (t & [Ht| [-> ->]] & Eu); [eauto|done].
  - intros D d' e Hd'. unfold s', with_transfer in Hd'. simpl in Hd'.
    alter_inv Hd'. setoid_rewrite (Hin _ _ HT).
    destruct (decide (dn = D)) as [<-|HD].
    + assert (current_download d' = Some (length (transfers s))) as ->
        by (subst; by case_decide).
      split.
      * intros [= <-]. eexists. split; [by right|done].
      * intros (t & [Ht| [-> ->]] & Eu); [|done].
        assert (current_download d = Some e) as Hc
          by (apply (T_down s HT _ _ _ Hd); eauto).
        congruence.
    + assert (current_download d' = current_download x0) as ->
        by (subst; by case_decide).
      rewrite (T_down s HT _ _ e Hd'). split.
      * intros (t & Ht & Eu). eauto.
      * intros (t & [Ht| [-> ->]] & Eu); [eauto|done].
  - intros e t [Ht| [-> ->]]%(Hin _ _ HT).
    + apply (transfer_ok_same (nodes s)); [done|]. by apply (T_ok s HT e).
    + by apply (transfer_ok_same (nodes s)).
  - intros U u' Hu' Hoff. unfold with_transfer in Hu'. simpl in Hu'.
    alter_inv Hu'.
    assert (online u' = online x0) as Eo by (subst; by repeat case_decide).
    rewrite Eo in Hoff. destruct (HO U x0 Hu' Hoff) as [Hc1 Hc2].
    destruct (decide (up = U)) as [<-|HU]; [congruence|].
    destruct (decide (dn = U)) as [<-|HD]; [congruence|].
    by subst.
Qed.

(** ** The scheduler keeps the invariant of the transfers *)

Lemma erase_slots_alter (ns : list Node) (i : nat) f :
  (∀ x, erase_slots (f x) = erase_slots x) →
  erase_slots <$> alter f i ns = erase_slots <$> ns.
Proof.
  intros Hf. apply list_eq. intros j. rewrite !list_lookup_fmap.
  rewrite list_lookup_alter. case_decide; subst; [|done].
  destruct (ns !! j); simpl; [by rewrite Hf|done].
Qed.

Lemma with_transfer_frame s up dn bid r :
  erase_slots <$> nodes (with_transfer s up dn bid r)
  = erase_slots <$> nodes s.
Proof.
  unfold with_transfer. simpl. by rewrite !erase_slots_alter.
Qed.

Lemma erase_slots_lookup (ns ns' : list Node) (j : nat) x' :
  erase_slots <$> ns' = erase_slots <$> ns → ns' !! j = Some x' →
  ∃ x, ns !! j = Some x ∧ erase_slots x' = erase_slots x.
Proof.
  intros E Hx'. apply (f_equal (λ l, l !! j)) in E.
  rewrite !list_lookup_fmap, Hx' in E.
  destruct (ns !! j) as [x|]; [|done].
  exists x. split; [done|].
  injection E; intros.
  unfold erase_slots, set_current_upload, set_current_download; simpl.
  congruence.
Qed.

Lemma schedule_next_upload_inv s U s' :
  schedule_next_upload s U = Some s' →
  ∃ me, nodes s !! U = Some me ∧ online me = true ∧
    (s' = s ∨
     current_upload me = None ∧
     ∃ P bid p, nodes s !! P = Some p ∧ online p = true ∧
       current_download p = None ∧ U ≠ P ∧
       (s' = with_transfer s U P bid true ∧
        (P, bid) ∈ remote_blocks_held me ∧
        local_blocks p !! bid = Some false
        ∨
        s' = with_transfer s U P bid false ∧
        backed_up_blocks me !! bid = Some None ∧
        Some P ∉ backed_up_blocks me)).
Proof.
  unfold schedule_next_upload. intros H.
  apply bind_Some in H as (me & Hme & H). exists me. split; [done|].
  destruct (online me) eqn:Hon; [|done]. simpl in H. split; [done|].
  destruct (current_upload me) eqn:Hcu; [left; congruence|].
  apply bind_Some in H as (r & Hr & H). destruct r as [[P bid]|].
  - right. split; [done|].
    apply upload_restore_loop_Some in Hr as (Hin & p & Hp & Hpo & Hpc & Hl).
    apply schedule_transfer_Some in H
      as (u & d & Hu & Hd & _ & _ & _ & Hne & ->).
    exists P, bid, p. eauto 10.
  - destruct (find_block_to_back_up me) as [bid|] eqn:Hfb;
      [|left; congruence].
    destruct (upload_backup_loop U me 0 (nodes s)) as [P|] eqn:Hl;
      [|left; congruence].
    right. split; [done|].
    apply upload_backup_loop_Some in Hl
      as (_ & p & Hp & HPU & Hpo & Hnin & Hpc & _).
    rewrite Nat.sub_0_r in Hp.
    apply find_block_to_back_up_Some in Hfb as [_ Hbu].
    apply schedule_transfer_Some in H
      as (u & d & Hu & Hd & _ & _ & _ & Hne & ->).
    exists P, bid, p. eauto 10.
Qed.

Lemma schedule_next_download_inv s D s' :
  schedule_next_download s D = Some s' →
  ∃ me, nodes s !! D = Some me ∧ online me = true ∧
    (s' = s ∨
     current_download me = None ∧
     ∃ P bid p, nodes s !! P = Some p ∧ online p = true ∧
       current_upload p = None ∧ P ≠ D ∧
       (s' = with_transfer s P D bid true ∧
        local_blocks me !! bid = Some false
        ∨
        s' = with_transfer s P D bid false ∧
        (P ∉ (remote_blocks_held me).*1) ∧
        backed_up_blocks p !! bid = Some None)).
Proof.
  unfold schedule_next_download. intros H.
  apply bind_Some in H as (me & Hme & H). exists me. split; [done|].
  destruct (online me) eqn:Hon; [|done]. simpl in H. split; [done|].
  destruct (current_download me) eqn:Hcd; [left; congruence|].
  apply bind_Some in H as (r & Hr & H). destruct r as [[P bid]|].
  - right. split; [done|].
    apply download_restore_loop_Some in Hr
      as (_ & Hlb & Hbu & p & Hp & Hpo & Hpc).
    rewrite Nat.sub_0_r in Hlb, Hbu.
    apply schedule_transfer_Some in H
      as (u & d & Hu & Hd & _ & _ & _ & Hne & ->).
    exists P, bid, p. eauto 10.
  - destruct (download_backup_loop D me 0 (nodes s)) as [[P bid]|] eqn:Hl;
      [|left; congruence].
    right. split; [done|].
    apply download_backup_loop_Some in Hl
      as (_ & p & Hp & HPD & Hpo & Hpc & Hnin & Hfb).
    rewrite Nat.sub_0_r in Hp.
    apply find_block_to_back_up_Some in Hfb as [_ Hbu].
    apply schedule_transfer_Some in H
      as (u & d & Hu & Hd & _ & _ & _ & Hne & ->).
    exists P, bid, p. eauto 10.
Qed.

Lemma schedule_next_upload_InvT s U s' :
  InvT s → InvO s → bwd_online (nodes s) →
  schedule_next_upload s U = Some s' →
  InvT s' ∧ InvO s' ∧ erase_slots <$> nodes s' = erase_slots <$> nodes s.
Proof.
  intros HT HO Hbwd H.
  apply schedule_next_upload_inv in H
    as (me & Hme & Hon & [->|(Hcu & P & bid & p & Hp & Hpo & Hpc & Hne & H)]);
    [done|].
  destruct H as [(-> & Hin & Hlb)|(-> & Hbu & Hnin)].
  - split; [|split; [|apply with_transfer_frame]];
      eapply (InvT_add s U P bid true me p); try done.
    + split; [done|]. exists me, p. simpl. split; [done|].
      split; [done|]. by apply lookup_lt_Some in Hlb.
    + split; [done|]. exists me, p. simpl. split; [done|].
      split; [done|]. by apply lookup_lt_Some in Hlb.
  - assert (transfer_ok (nodes s) (new_transfer U P bid false)) as Hok.
    { split; [done|]. exists me, p. simpl. split; [done|].
      split; [done|]. split; [done|]. split; [done|].
      intros (kv & -> & Hkv)%list_elem_of_fmap. destruct kv as [X i].
      destruct (Hbwd P p X i Hp Hpo Hkv) as (x & Hx & Hxi). simpl in *.
      assert (x = me) as -> by congruence.
      apply Hnin. apply list_elem_of_lookup. eauto. }
    split; [|split; [|apply with_transfer_frame]];
      by eapply (InvT_add s U P bid false me p).
Qed.

Lemma schedule_next_download_InvT s D s' :
  InvT s → InvO s → fwd (nodes s) →
  schedule_next_download s D = Some s' →
  InvT s' ∧ InvO s' ∧ erase_slots <$> nodes s' = erase_slots <$> nodes s.
Proof.
  intros HT HO Hfwd H.
  apply schedule_next_download_inv in H
    as (me & Hme & Hon & [->|(Hcd & P & bid & p & Hp & Hpo & Hpc & Hne & H)]);
    [done|].
  destruct H as [(-> & Hlb)|(-> & Hnin & Hbu)].
  - assert (transfer_ok (nodes s) (new_transfer P D bid true)) as Hok.
    { split; [done|]. exists p, me. simpl. split; [done|].
      split; [done|]. by apply lookup_lt_Some in Hlb. }
    split; [|split; [|apply with_transfer_frame]];
      by eapply (InvT_add s P D bid true p me).
  - assert (transfer_ok (nodes s) (new_transfer P D bid false)) as Hok.
    { split; [done|]. exists p, me. simpl. split; [done|].
      split; [done|]. split; [done|]. split; [|done].
      intros (i & Hi)%list_elem_of_lookup.
      destruct (Hfwd P p i D Hp Hi) as (d & Hd & Hin).
      assert (d = me) as -> by congruence.
      apply Hnin. apply list_elem_of_fmap. by exists (P, i). }
    split; [|split; [|apply with_transfer_frame]];
      by eapply (InvT_add s P D bid false p me).
Qed.

(** ** Node lists related position by position *)

Lemma nodes_rel_bwd R ns ns' j x' :
  nodes_rel R ns ns' → ns' !! j = Some x' →
  ∃ x, ns !! j = Some x ∧ R j x x'.
Proof.
  intros [Hlen HR] Hx'. destruct (ns !! j) as [x|] eqn:Hx; [eauto|].
  apply lookup_lt_Some in Hx'. apply lookup_ge_None in Hx. lia.
Qed.

Lemma nodes_rel_fwd R ns ns' j x :
  nodes_rel R ns ns' → ns !! j = Some x →
  ∃ x', ns' !! j = Some x' ∧ R j x x'.
Proof.
  intros [Hlen HR] Hx. destruct (ns' !! j) as [x'|] eqn:Hx'; [eauto|].
  apply lookup_lt_Some in Hx. apply lookup_ge_None in Hx'. lia.
Qed.

Lemma nodes_rel_impl (R R' : nat → Node → Node → Prop) ns ns' :
  (∀ j x x', ns !! j = Some x → R j x x' → R' j x x') →
  nodes_rel R ns ns' → nodes_rel R' ns ns'.
Proof. intros H [Hlen HR]. split; [done|]. eauto. Qed.

Lemma nodes_rel_trans (R1 R2 R : nat → Node → Node → Prop) ns1 ns2 ns3 :
  (∀ j x y z, R1 j x y → R2 j y z → R j x z) →
  nodes_rel R1 ns1 ns2 → nodes_rel R2 ns2 ns3 → nodes_rel R ns1 ns3.
Proof.
  intros H H1 H2. split; [destruct H1, H2; congruence|].
  intros j x z Hx Hz.
  destruct (nodes_rel_fwd _ _ _ _ _ H1 Hx) as (y & Hy & Hxy).
  destruct H2 as [_ H2]. eauto.
Qed.

Lemma nodes_rel_erase ns ns' :
  erase_slots <$> ns' = erase_slots <$> ns →
  nodes_rel (λ _ x x', erase_slots x' = erase_slots x) ns ns'.
Proof.
  intros E. split.
  - apply (f_equal length) in E. by rewrite !length_fmap in E.
  - intros j x x' Hx Hx'.
    destruct (erase_slots_lookup _ _ _ _ E Hx') as (y & Hy & Ey).
    congruence.
Qed.

Lemma erase_slots_same_data x x' :
  erase_slots x' = erase_slots x → same_data x x'.
Proof.
  intros E. injection E; intros. unfold same_data. repeat split; congruence.
Qed.

(** Proves a relation between a list of nodes and the same list after a
    chain of updates, from the relation at each position. *)
Ltac nodes_rel_tac :=
  split;
  [ simpl; rewrite ?length_alter; try done
  | let j := fresh "j" in let x := fresh "x" in let x' := fresh "x'" in
    let Hx := fresh "Hx" in let Hx' := fresh "Hx'" in
    intros j x x' Hx Hx'; simpl in Hx'; alter_inv Hx';
    simplify_eq ].

(** ** The invariant on the block tables only reads the block tables *)

Lemma owner_block_size_rel ns ns' o :
  nodes_rel (λ _ x x', block_size x' = block_size x) ns ns' →
  owner_block_size ns' o = owner_block_size ns o.
Proof.
  intros HR. unfold owner_block_size.
  destruct (ns !! o) as [x|] eqn:Hx.
  - destruct (nodes_rel_fwd _ _ _ _ _ HR Hx) as (x' & -> & E). done.
  - destruct (ns' !! o) as [x'|] eqn:Hx'; [|done].
    destruct (nodes_rel_bwd _ _ _ _ _ HR Hx') as (x & Hx0 & _). congruence.
Qed.

Lemma InvDx_same B done ns ns' :
  nodes_rel (λ _ x x', same_data x x') ns ns' →
  InvDx B done ns → InvDx B done ns'.
Proof.
  intros HR HD.
  assert (∀ d, held_size ns' d = held_size ns d) as Hhs.
  { intros d. apply held_size_ext. intros o. apply owner_block_size_rel.
    eapply nodes_rel_impl; [|done]. by intros ??? _ (_ & ? & _). }
  split.
  - intros i x' Hx'.
    destruct (nodes_rel_bwd _ _ _ _ _ HR Hx') as (x & Hx & Ec & _ & _ & El & Eb & _).
    rewrite El, Eb, Ec. by apply (D_len B done ns HD i).
  - intros X x' i P Hx' Hi.
    destruct (nodes_rel_bwd _ _ _ _ _ HR Hx') as (x & Hx & _ & _ & _ & _ & Eb & _).
    rewrite Eb in Hi. destruct (D_fwd B done ns HD X x i P Hx Hi) as (p & Hp & Hin).
    destruct (nodes_rel_fwd _ _ _ _ _ HR Hp) as (p' & Hp' & _ & _ & _ & _ & _ & Er).
    exists p'. by rewrite Er.
  - intros P p' X i Hp' Hin.
    destruct (nodes_rel_bwd _ _ _ _ _ HR Hp') as (p & Hp & _ & _ & _ & _ & _ & Er).
    rewrite Er in Hin.
    destruct (D_bwd B done ns HD P p X i Hp Hin) as (Hne & x & Hx & Hi).
    split; [done|].
    destruct (nodes_rel_fwd _ _ _ _ _ HR Hx) as (x' & Hx' & _ & _ & _ & _ & Eb & _).
    exists x'. by rewrite Eb.
  - intros P p' Hp'.
    destruct (nodes_rel_bwd _ _ _ _ _ HR Hp') as (p & Hp & _ & _ & _ & _ & _ & Er).
    rewrite Er. by apply (D_keys B done ns HD P).
  - intros P p' Hp'.
    destruct (nodes_rel_bwd _ _ _ _ _ HR Hp') as (p & Hp & Ec & Es & Ef & _ & _ & Er).
    rewrite Er, Ec, Es, Ef, Hhs. by apply (D_space B done ns HD P).
Qed.

Lemma InvDx_erase B done ns ns' :
  erase_slots <$> ns' = erase_slots <$> ns →
  InvDx B done ns → InvDx B done ns'.
Proof.
  intros E. apply InvDx_same.
  eapply nodes_rel_impl; [|by apply nodes_rel_erase].
  intros ??? _. apply erase_slots_same_data.
Qed.

Lemma InvDx_fwd B done ns : InvDx B done ns → fwd ns.
Proof. intros HD. exact (D_fwd B done ns HD). Qed.

Lemma InvD_bwd_online ns : InvD ns → bwd_online ns.
Proof.
  intros HD P p X i Hp _ Hin.
  destruct (D_bwd 0 [] ns HD P p X i Hp Hin) as (_ & x & Hx & Hi).
  exists x. split; [done|]. rewrite Hi.
  rewrite decide_False; [done|]. intros [_ H]. by apply elem_of_nil in H.
Qed.

(** ** Popping an event *)

Lemma ids_pop_other q1 ev q2 :
  (∀ e, ev ≠ Transfer e) →
  transfer_ids (q1 ++ ev :: q2) = transfer_ids (q1 ++ q2).
Proof.
  intros H. rewrite !transfer_ids_app. f_equal. destruct ev; try done.
  by destruct (H e).
Qed.

Lemma ids_pop_transfer q1 e q2 :
  NoDup (transfer_ids (q1 ++ Transfer e :: q2)) →
  NoDup (transfer_ids (q1 ++ q2)) ∧
  ∀ e', e' ∈ transfer_ids (q1 ++ q2) ↔
        e' ∈ transfer_ids (q1 ++ Transfer e :: q2) ∧ e' ≠ e.
Proof.
  rewrite !transfer_ids_app. simpl.
  intros Hnd. apply NoDup_app in Hnd as (H1 & H12 & H2).
  apply NoDup_cons in H2 as [He2 H2]. split.
  - apply NoDup_app. split; [done|]. split; [|done].
    intros x Hx Hx2. apply (H12 x Hx). apply elem_of_cons. by right.
  - intros e'. rewrite !elem_of_app, elem_of_cons. split.
    + intros [H|H].
      * split; [by left|]. intros ->. apply (H12 e H).
        apply elem_of_cons. by left.
      * split; [by right; right|]. by intros ->.
    + intros [[H|[H|H]] Hne]; [by left|done|by right].
Qed.

Lemma Inv_pop s q1 ev q2 :
  Inv s → queue s = q1 ++ ev :: q2 →
  (∀ e t, ev = Transfer e → transfers s !! e = Some t → canceled t = true) →
  Inv (popped s (q1 ++ q2)).
Proof.
  intros (HD & HT & HO) Hq Hev. split; [done|]. split; [|done].
  assert (NoDup (transfer_ids (q1 ++ q2)) ∧
          (∀ e t, inflight (popped s (q1 ++ q2)) e t ↔ inflight s e t) ∧
          (∀ e, e ∈ transfer_ids (q1 ++ q2) → e ∈ transfer_ids (queue s)))
    as (Hnd & Hin & Hsub).
  { pose proof (T_nodup s HT) as Hnd. rewrite Hq in Hnd.
    unfold inflight, popped. simpl. rewrite Hq.
    assert ((∃ e, ev = Transfer e) ∨ ∀ e, ev ≠ Transfer e) as [[e ->]|Hne]
      by (destruct ev; eauto).
    - apply ids_pop_transfer in Hnd as [Hnd Hiff]. split; [done|]. split.
      + intros e' t. rewrite Hiff. split; [by intros (? & ? & ? & _)|].
        intros (Hl & Hc & Hm). repeat split; try done. intros ->.
        rewrite (Hev e t) in Hc by done. done.
      + intros e'. rewrite Hiff. by intros [? _].
    - rewrite ids_pop_other in * by done. done. }
  apply (InvT_frame s); try done.
  - intros e He. apply (T_range s HT). by apply Hsub.
  - intros j x' Hx'. exists x'. done.
Qed.

(** ** Simple updates keep the invariant *)

Ltac decide_cases := repeat (case_decide; simplify_eq); simpl.

Lemma Inv_upd_node s B f :
  (∀ x, same_data x (f x) ∧ same_slots x (f x) ∧
        (online (f x) = false → online x = false)) →
  Inv s → Inv (upd_node B f s).
Proof.
  intros Hf (HD & HT & HO).
  assert (nodes_rel (λ _ x x', same_data x x' ∧ same_slots x x' ∧
            (online x' = false → online x = false))
            (nodes s) (nodes (upd_node B f s))) as HR.
  { nodes_rel_tac. case_decide; [apply Hf|]. by repeat split. }
  split; [|split].
  - apply (InvDx_same 0 [] (nodes s)); [|done].
    eapply nodes_rel_impl; [|done]. by intros ??? _ [? _].
  - apply (InvT_frame s); try done.
    + apply (T_nodup s HT).
    + apply (T_range s HT).
    + intros j x' Hx'.
      destruct (nodes_rel_bwd _ _ _ _ _ HR Hx') as (x & Hx & _ & Hs & _).
      eauto.
    + intros e t _. apply transfer_ok_same. intros j x Hx.
      destruct (nodes_rel_fwd _ _ _ _ _ HR Hx)
        as (x' & Hx' & (_ & _ & _ & ? & ? & ?) & _).
      eauto.
  - intros U u' Hu' Hoff.
    destruct (nodes_rel_bwd _ _ _ _ _ HR Hu') as (u & Hu & _ & [E1 E2] & Ho).
    rewrite E1, E2. apply (HO U u Hu). auto.
Qed.

Lemma Inv_schedule ev s :
  (∀ e, ev ≠ Transfer e) → Inv s → Inv (schedule ev s).
Proof.
  intros Hev (HD & HT & HO). split; [done|]. split; [|done].
  assert (transfer_ids (queue (schedule ev s)) = transfer_ids (queue s))
    as Eq.
  { simpl. rewrite transfer_ids_app. destruct ev; simpl;
      rewrite ?app_nil_r; try done. by destruct (Hev e). }
  apply (InvT_frame s); try done.
  - rewrite Eq. apply (T_nodup s HT).
  - intros e. rewrite Eq. apply (T_range s HT).
  - intros e t. unfold inflight. by rewrite Eq.
  - intros j x' Hx'. eauto.
Qed.

Lemma Inv_schedule_next_upload s U s' :
  Inv s → schedule_next_upload s U = Some s' → Inv s'.
Proof.
  intros (HD & HT & HO) H.
  apply schedule_next_upload_InvT in H as (HT' & HO' & E);
    [|done|done|by apply InvD_bwd_online].
  split; [|done]. by apply (InvDx_erase 0 [] (nodes s)).
Qed.

Lemma Inv_schedule_next_download s D s' :
  Inv s → schedule_next_download s D = Some s' → Inv s'.
Proof.
  intros (HD & HT & HO) H.
  apply schedule_next_download_InvT in H as (HT' & HO' & E);
    [|done|done|by apply (InvDx_fwd 0 [])].
  split; [|done]. by apply (InvDx_erase 0 [] (nodes s)).
Qed.

(** ** Online, Recover *)

Lemma Inv_Online_process s B s' :
  Inv s → Online_process s B = Some s' → Inv s'.
Proof.
  intros HI H. unfold Online_process in H.
  apply bind_Some in H as (node & Hnode & H).
  destruct (online node || failed node); [congruence|].
  apply bind_Some in H as (s2 & H2 & H).
  apply bind_Some in H as (s3 & H3 & H).
  apply bind_Some in H as (? & _ & H). injection H as <-.
  apply Inv_schedule; [done|].
  apply (Inv_schedule_next_download s2 B); [|done].
  eapply Inv_schedule_next_upload; [|exact H2].
  apply Inv_upd_node; [|done]. intros y. by repeat split.
Qed.

Lemma Inv_Recover_process s B s' :
  Inv s → Recover_process s B = Some s' → Inv s'.
Proof.
  intros HI H. unfold Recover_process in H.
  apply bind_Some in H as (node & Hnode & H).
  apply bind_Some in H as (s2 & H2 & H).
  apply bind_Some in H as (? & _ & H). injection H as <-.
  apply Inv_schedule; [done|].
  eapply Inv_Online_process; [|exact H2].
  apply Inv_upd_node; [|done]. intros y. by repeat split.
Qed.

(** ** Disconnection *)

Lemma InvT_cancel s s' e t :
  InvT s → inflight s e t →
  transfers s' = alter (set_canceled true) e (transfers s) →
  queue s' = queue s →
  nodes_rel (λ j x x',
    current_upload x' =
      (if decide (j = uploader t) then None else current_upload x) ∧
    current_download x' =
      (if decide (j = downloader t) then None else current_download x) ∧
    backed_up_blocks x' = backed_up_blocks x ∧
    remote_blocks_held x' = remote_blocks_held x ∧
    length (local_blocks x') = length (local_blocks x))
    (nodes s) (nodes s') →
  InvT s'.
Proof.
  intros HT Hin Et Eq HR. apply (InvT_retire s s' e t); try done.
  - rewrite Eq. apply (T_nodup s HT).
  - intros e'. rewrite Eq, Et, length_alter. apply (T_range s HT).
  - intros e' t'. unfold inflight. rewrite Eq, Et, list_lookup_alter.
    destruct (decide (e = e')) as [<-|Hne].
    + destruct Hin as (-> & _). simpl. split; [|by intros [_ ?]].
      by intros ([= <-] & ? & _).
    + split; [|by intros [? _]]. intros ?. split; [done|congruence].
  - intros j x' Hx'.
    destruct (nodes_rel_bwd _ _ _ _ _ HR Hx') as (x & Hx & ? & ? & _).
    eauto.
  - intros e' t' _ _. apply transfer_ok_same. intros j x Hx.
    destruct (nodes_rel_fwd _ _ _ _ _ HR Hx) as (x' & Hx' & _ & _ & ? & ? & ?).
    eauto.
Qed.

Lemma erase_slots_set_cu v x :
  erase_slots (set_current_upload v x) = erase_slots x.
Proof. done. Qed.

Lemma erase_slots_set_cd v x :
  erase_slots (set_current_download v x) = erase_slots x.
Proof. done. Qed.

Lemma disconnect_spec s B s' :
  InvT s → InvO s → disconnect s B = Some s' →
  InvT s' ∧ InvO s' ∧ queue s' = queue s ∧
  nodes_rel (disconnect_rel B) (nodes s) (nodes s').
Proof.
  intros HT HO H. unfold disconnect in H.
  apply bind_Some in H as (node & Hnode & H).
  apply bind_Some in H as (s2 & H2 & H).
  remember (upd_node B (set_online false) s) as s1 eqn:Es1.
  assert (InvT s1) as HT1.
  { subst s1. apply (InvT_frame s); try done.
    - apply (T_nodup s HT).
    - apply (T_range s HT).
    - intros j x' Hx'. simpl in Hx'. alter_inv Hx'. exists x.
      split; [done|]. subst. by case_decide.
    - intros e t _. apply transfer_ok_same. intros j x Hx. eexists.
      split; [by apply alter_lookup_fwd|]. by case_decide. }
  assert (InvT s2 ∧ queue s2 = queue s ∧
    nodes_rel (λ j x x',
      erase_slots x' = erase_slots (if decide (j = B) then set_online false x
                                    else x) ∧
      (current_upload x' = current_upload x ∨ current_upload x' = None) ∧
      (current_download x' = current_download x ∨
       j ≠ B ∧ current_download x' = None) ∧
      (j = B → current_upload x' = None))
      (nodes s) (nodes s2)) as (HT2 & Eq2 & HR2).
  { destruct (current_upload node) as [e1|] eqn:Hcu.
    - apply bind_Some in H2 as (t & Ht & H2). injection H2 as <-.
      pose proof (proj1 (T_up s HT B node e1 Hnode) Hcu)
        as (t1 & Hin1 & Eup).
      assert (t = t1) as ->
        by (destruct Hin1 as (? & _); subst s1; simpl in Ht; congruence).
      assert (inflight s1 e1 t1) as Hin1' by (by subst s1).
      destruct (T_ok s HT e1 t1 Hin1) as (Hne & _).
      split; [|split; [by rewrite Es1|]].
      + apply (InvT_cancel s1 _ e1 t1); try done.
        clear Es1. nodes_rel_tac.
        repeat case_decide; subst; simpl; done.
      + subst s1. nodes_rel_tac.
        decide_cases; repeat split; auto; intros; congruence.
    - injection H2 as <-. subst s1. split; [done|]. split; [done|].
      nodes_rel_tac. decide_cases; repeat split; auto; intros; congruence. }
  destruct (current_download node) as [e2|] eqn:Hcd.
  - apply bind_Some in H as (t & Ht & H). injection H as <-.
    pose proof (proj1 (T_down s HT B node e2 Hnode) Hcd)
      as (t2 & Hin2 & Edn).
    destruct (T_ok s HT e2 t2 Hin2) as (Hne & _).
    destruct (nodes_rel_fwd _ _ _ _ _ HR2 Hnode)
      as (node2 & Hnode2 & _ & _ & [Ecd|[? _]] & _); [|done].
    rewrite Hcd in Ecd.
    pose proof (proj1 (T_down s2 HT2 B node2 e2 Hnode2) Ecd)
      as (t2' & Hin2' & Edn').
    assert (t = t2') as -> by (destruct Hin2' as (? & _); congruence).
    destruct (T_ok s2 HT2 e2 t2' Hin2') as (Hne' & _).
    assert (InvT (upd_node B (set_current_download None)
              (upd_node (uploader t2') (set_current_upload None)
                 (upd_transfer e2 (set_canceled true) s2)))) as HT3.
    { apply (InvT_cancel s2 _ e2 t2'); try done.
      nodes_rel_tac.
      decide_cases; try done; congruence. }
    assert (nodes_rel (disconnect_rel B) (nodes s)
              (nodes (upd_node B (set_current_download None)
                (upd_node (uploader t2') (set_current_upload None)
                   (upd_transfer e2 (set_canceled true) s2))))) as HR3.
    { eapply (nodes_rel_trans _ (λ j x x', x' =
          (if decide (B = j) then set_current_download None
             (if decide (uploader t2' = j) then set_current_upload None x
              else x)
           else if decide (uploader t2' = j) then set_current_upload None x
                else x))); [|exact HR2|].
      - intros j x y z (E & Hu & Hd & HB) ->. unfold disconnect_rel.
        repeat case_decide; subst; simpl;
          rewrite ?erase_slots_set_cu, ?erase_slots_set_cd;
          repeat split; try done; try tauto; try congruence;
          try (intros _; tauto); try (by right).
        all: try (destruct Hd as [Hd|[Hd1 Hd2]]; [by left|by right]).
        all: try (intros _; split; [tauto|done]).
      - nodes_rel_tac. by repeat case_decide. }
    split; [done|]. split; [|split; [done|done]].
    intros U u' Hu' Hoff.
    destruct (nodes_rel_bwd _ _ _ _ _ HR3 Hu') as (u & Hu & E & Hc1 & Hc2 & HB).
    destruct (decide (U = B)) as [->|HU]; [by apply HB|].
    assert (online u = false) as Hoff'.
    { injection E; intros. congruence. }
    destruct (HO U u Hu Hoff') as [E1 E2].
    rewrite E1 in Hc1. rewrite E2 in Hc2. tauto.
  - injection H as <-. split; [done|]. split; [|split; [done|]].
    + intros U u' Hu' Hoff.
      destruct (nodes_rel_bwd _ _ _ _ _ HR2 Hu')
        as (u & Hu & E & Hc1 & Hc2 & HB).
      destruct (decide (U = B)) as [->|HU].
      * split; [by apply HB|]. assert (u = node) as -> by congruence.
        destruct Hc2 as [->|[_ ?]]; done.
      * assert (online u = false) as Hoff'.
        { injection E; intros. congruence. }
        destruct (HO U u Hu Hoff') as [E1 E2].
        rewrite E1 in Hc1. rewrite E2 in Hc2.
        split; [tauto|]. destruct Hc2 as [?|[_ ?]]; done.
    + eapply nodes_rel_impl; [|exact HR2].
      intros j x x' Hx (E & Hu & Hd & HB). unfold disconnect_rel.
      split; [done|]. split; [done|]. split; [tauto|].
      intros ->. split; [by apply HB|]. assert (x = node) as -> by congruence.
      destruct Hd as [->|[_ ?]]; done.
Qed.

(** ** Offline *)

Lemma disconnect_rel_same_data B j x x' :
  disconnect_rel B j x x' → same_data x x'.
Proof.
  intros (E & _). apply erase_slots_same_data in E.
  by case_decide.
Qed.

Lemma Inv_disconnect s B s' :
  Inv s → disconnect s B = Some s' → Inv s'.
Proof.
  intros (HD & HT & HO) H.
  apply disconnect_spec in H as (HT' & HO' & _ & HR); [|done|done].
  split; [|done]. apply (InvDx_same 0 [] (nodes s)); [|done].
  eapply nodes_rel_impl; [|exact HR].
  intros j x x' _. apply disconnect_rel_same_data.
Qed.

Lemma Inv_Offline_process s B s' :
  Inv s → Offline_process s B = Some s' → Inv s'.
Proof.
  intros HI H. unfold Offline_process in H.
  apply bind_Some in H as (node & Hnode & H).
  destruct (failed node || negb (online node)); [congruence|].
  apply bind_Some in H as (s1 & H1 & H).
  apply bind_Some in H as (? & _ & H). injection H as <-.
  apply Inv_schedule; [done|]. by apply (Inv_disconnect s B).
Qed.

(** ** Completion of a transfer *)

Lemma restore_update_spec s t s1 :
  restore_update_block_state s t = Some s1 →
  ∃ d, nodes s !! downloader t = Some d ∧
    block_id t < length (local_blocks d) ∧
    transfers s1 = transfers s ∧ queue s1 = queue s ∧
    nodes_rel (restore_rel t) (nodes s) (nodes s1).
Proof.
  unfold restore_update_block_state. intros H.
  apply bind_Some in H as (d & Hd & H).
  apply bind_Some in H as (lb & Hlb & H).
  apply list_assign_Some in Hlb as [Hlt ->].
  exists d. split; [done|]. split; [done|].
  destruct (count_true (<[block_id t:=true]> (local_blocks d)) =? k (cfg d))%Z
    eqn:Hk; injection H as <-; (split; [done|]); (split; [done|]);
    nodes_rel_tac; unfold restore_rel, recovered; decide_cases;
    by rewrite ?Hk.
Qed.

Lemma backup_update_spec s t s1 :
  uploader t ≠ downloader t →
  backup_update_block_state s t = Some s1 →
  ∃ u d, nodes s !! uploader t = Some u ∧ nodes s !! downloader t = Some d ∧
    block_id t < length (backed_up_blocks u) ∧
    (0 ≤ free_space d - block_size u)%Z ∧
    transfers s1 = transfers s ∧ queue s1 = queue s ∧
    nodes_rel (backup_rel t (block_size u)) (nodes s) (nodes s1).
Proof.
  unfold backup_update_block_state. intros Hne H.
  apply bind_Some in H as (u & Hu & H).
  apply bind_Some in H as (d & Hd & H).
  destruct (Z.ltb_spec (free_space d - block_size u) 0) as [|Hfs]; [done|].
  apply bind_Some in H as (o1 & Ho1 & H).
  apply bind_Some in H as (bu & Hbu & H).
  apply bind_Some in H as (o3 & Ho3 & H).
  apply bind_Some in H as (bu' & Hbu' & H). injection H as <-.
  simpl in Ho1, Ho3. alter_inv Ho1. alter_inv Ho3. simplify_eq.
  rewrite decide_False in Hbu by done.
  apply list_assign_Some in Hbu as [Hlt ->].
  repeat (case_decide; try congruence). simpl in Hbu'.
  apply list_assign_Some in Hbu' as [_ ->].
  exists u, d. split; [done|]. split; [done|]. split; [done|].
  split; [done|]. split; [done|]. split; [done|].
  nodes_rel_tac. unfold backup_rel. decide_cases; try done.
  by rewrite list_insert_insert_eq.
Qed.

Lemma InvD_bwd ns P p X i :
  InvD ns → ns !! P = Some p → (X, i) ∈ remote_blocks_held p →
  X ≠ P ∧ ∃ x, ns !! X = Some x ∧ backed_up_blocks x !! i = Some (Some P).
Proof.
  intros HD Hp Hin.
  destruct (D_bwd 0 [] ns HD P p X i Hp Hin) as (Hne & x & Hx & Hi).
  split; [done|]. exists x. split; [done|]. rewrite Hi.
  rewrite decide_False; [done|]. intros [_ H]. by apply elem_of_nil in H.
Qed.

Lemma backup_rel_fields t bs j x x' :
  uploader t ≠ downloader t → backup_rel t bs j x x' →
  cfg x' = cfg x ∧ block_size x' = block_size x ∧
  local_blocks x' = local_blocks x ∧
  backed_up_blocks x' =
    (if decide (j = uploader t)
     then <[block_id t := Some (downloader t)]> (backed_up_blocks x)
     else backed_up_blocks x) ∧
  remote_blocks_held x' =
    (if decide (j = downloader t)
     then dict_set (uploader t) (block_id t) (remote_blocks_held x)
     else remote_blocks_held x) ∧
  free_space x' =
    (if decide (j = downloader t) then (free_space x - bs)%Z
     else free_space x) ∧
  current_upload x' = current_upload x ∧
  current_download x' = current_download x ∧
  online x' = online x.
Proof.
  intros Hne ->. decide_cases; try done; congruence.
Qed.

Lemma InvD_backup ns ns' t u d :
  InvD ns → transfer_ok ns t → kind t = BlockBackupComplete →
  ns !! uploader t = Some u → ns !! downloader t = Some d →
  (0 ≤ free_space d - block_size u)%Z →
  nodes_rel (backup_rel t (block_size u)) ns ns' →
  InvD ns'.
Proof.
  intros HD (Hne & u0 & d0 & Hu0 & Hd0 & Hk) Ek Hu Hd Hfs HR.
  rewrite Ek in Hk. assert (u0 = u) as -> by congruence.
  assert (d0 = d) as -> by congruence. clear Hu0 Hd0.
  destruct Hk as (K1 & K2 & K3).
  pose proof (dict_set_fresh _ (block_id t) _ K3) as Eds.
  assert (∀ j x', ns' !! j = Some x' → ∃ x, ns !! j = Some x ∧
            backup_rel t (block_size u) j x x') as Hget
    by (intros; by eapply nodes_rel_bwd).
  assert (∀ j x, ns !! j = Some x → ∃ x', ns' !! j = Some x' ∧
            backup_rel t (block_size u) j x x') as Hput
    by (intros; by eapply nodes_rel_fwd).
  assert (∀ d, held_size ns' d = held_size ns d) as Hhs.
  { intros l. apply held_size_ext. intros o. apply owner_block_size_rel.
    eapply nodes_rel_impl; [|done]. intros j x x' _ Hrel.
    by apply backup_rel_fields in Hrel as (_ & ? & _). }
  split.
  - intros j x' Hx'. destruct (Hget j x' Hx') as (x & Hx & Hrel).
    apply backup_rel_fields in Hrel as (Ec & _ & El & Eb & _); [|done].
    rewrite Ec, El, Eb.
    destruct (D_len 0 [] ns HD j x Hx) as [L1 L2].
    split; [done|]. case_decide; by rewrite ?length_insert.
  - intros X x' i Q Hx' Hi. destruct (Hget X x' Hx') as (x & Hx & Hrel).
    apply backup_rel_fields in Hrel as (_ & _ & _ & Eb & _); [|done].
    rewrite Eb in Hi.
    assert (∀ q, ns !! Q = Some q → (X, i) ∈ remote_blocks_held q →
      ∃ p, ns' !! Q = Some p ∧ (X, i) ∈ remote_blocks_held p) as Hold.
    { intros q Hq Hin. destruct (Hput Q q Hq) as (q' & Hq' & Hrel).
      apply backup_rel_fields in Hrel as (_ & _ & _ & _ & Er & _); [|done].
      exists q'. split; [done|]. rewrite Er.
      case_decide; [|done]. simplify_eq. rewrite Eds.
      apply elem_of_app. by left. }
    destruct (decide (X = uploader t)) as [->|HX].
    + simplify_eq.
      apply list_lookup_insert_Some in Hi as [(<- & [= <-] & Hlt)|(Hni & Hi)].
      * destruct (Hput _ d Hd) as (d' & Hd' & Hrel).
        apply backup_rel_fields in Hrel as (_ & _ & _ & _ & Er & _); [|done].
        exists d'. split; [done|]. rewrite Er, decide_True by done.
        rewrite Eds. apply elem_of_app. right. by apply list_elem_of_singleton.
      * destruct (D_fwd 0 [] ns HD _ u i Q Hu Hi) as (q & Hq & Hin). eauto.
    + destruct (D_fwd 0 [] ns HD X x i Q Hx Hi) as (q & Hq & Hin). eauto.
  - intros Q q' X i Hq' Hin.
    rewrite decide_False by (intros [_ H]; by apply elem_of_nil in H).
    destruct (Hget Q q' Hq') as (q & Hq & Hrel).
    apply backup_rel_fields in Hrel as (_ & _ & _ & _ & Er & _); [|done].
    rewrite Er in Hin.
    assert (∀ x, X ≠ Q → ns !! X = Some x →
      backed_up_blocks x !! i = Some (Some Q) →
      ¬ (X = uploader t ∧ i = block_id t) →
      X ≠ Q ∧ ∃ x', ns' !! X = Some x' ∧
        backed_up_blocks x' !! i = Some (Some Q)) as Hold.
    { intros x HXQ Hx Hi Hnot. split; [done|].
      destruct (Hput X x Hx) as (x' & Hx' & Hrel).
      apply backup_rel_fields in Hrel as (_ & _ & _ & Eb & _); [|done].
      exists x'. split; [done|]. rewrite Eb. case_decide; [|done].
      rewrite list_lookup_insert_ne; [done|]. intros <-. tauto. }
    destruct (decide (Q = downloader t)) as [->|HQ].
    + simplify_eq. rewrite Eds in Hin.
      apply elem_of_app in Hin as [Hin|Hin%list_elem_of_singleton].
      * destruct (InvD_bwd ns _ d X i HD Hd Hin) as (HXP & x & Hx & Hi).
        apply (Hold x); try done. intros [-> _]. apply K3.
        apply list_elem_of_fmap. by exists (uploader t, i).
      * injection Hin as -> ->. split; [done|].
        destruct (Hput _ u Hu) as (u' & Hu' & Hrel).
        apply backup_rel_fields in Hrel as (_ & _ & _ & Eb & _); [|done].
        exists u'. split; [done|]. rewrite Eb, decide_True by done.
        apply list_lookup_insert_eq. by apply lookup_lt_Some in K1.
    + destruct (InvD_bwd ns Q q X i HD Hq Hin) as (HXQ & x & Hx & Hi).
      apply (Hold x); try done. intros [-> ->]. simplify_eq.
  - intros Q q' Hq'. destruct (Hget Q q' Hq') as (q & Hq & Hrel).
    apply backup_rel_fields in Hrel as (_ & _ & _ & _ & Er & _); [|done].
    rewrite Er. pose proof (D_keys 0 [] ns HD Q q Hq) as Hnd.
    case_decide; [|done]. simplify_eq. rewrite Eds, fmap_app.
    apply NoDup_app. split; [done|]. split; [|apply NoDup_singleton].
    intros o Ho ->%list_elem_of_singleton. done.
  - intros Q q' Hq'. destruct (Hget Q q' Hq') as (q & Hq & Hrel).
    apply backup_rel_fields in Hrel as (Ec & Es & _ & _ & Er & Ef & _);
      [|done].
    rewrite Ec, Es, Er, Ef, Hhs.
    destruct (D_space 0 [] ns HD Q q Hq) as (S1 & S2 & S3).
    case_decide; [|done]. simplify_eq. split; [done|]. split; [done|].
    rewrite Eds, held_size_app. simpl. unfold owner_block_size.
    rewrite Hu. simpl. lia.
Qed.

Lemma restore_rel_fields t j x x' :
  restore_rel t j x x' →
  same_data x x' ∧ same_slots x x' ∧ online x' = online x.
Proof.
  intros ->. unfold recovered.
  case_decide; [|by repeat split].
  destruct (_ =? _)%Z; repeat split; simpl; by rewrite ?length_insert.
Qed.

Lemma clear_slots_rel (ns : list Node) U P :
  nodes_rel (λ j y z,
    z = if decide (U = j)
        then set_current_upload None
               (if decide (P = j) then set_current_download None y else y)
        else if decide (P = j) then set_current_download None y else y)
    ns (alter (set_current_upload None) U
          (alter (set_current_download None) P ns)).
Proof. nodes_rel_tac. done. Qed.

(** The state in which a transfer has completed and left its two slots. *)
Lemma Inv_complete s s3 e t q1 q2 :
  Inv s → queue s = q1 ++ Transfer e :: q2 → inflight s e t →
  transfers s3 = transfers s → queue s3 = q1 ++ q2 →
  InvD (nodes s3) →
  nodes_rel (λ j x x',
    current_upload x' =
      (if decide (j = uploader t) then None else current_upload x) ∧
    current_download x' =
      (if decide (j = downloader t) then None else current_download x) ∧
    online x' = online x ∧
    length (local_blocks x') = length (local_blocks x) ∧
    (j ≠ uploader t → backed_up_blocks x' = backed_up_blocks x) ∧
    (j ≠ downloader t → remote_blocks_held x' = remote_blocks_held x))
    (nodes s) (nodes s3) →
  Inv s3.
Proof.
  intros (HD & HT & HO) Hq Hin Et Eq HD3 HR. split; [done|].
  pose proof (T_nodup s HT) as Hnd. rewrite Hq in Hnd.
  apply ids_pop_transfer in Hnd as [Hnd Hiff].
  split.
  - apply (InvT_retire s s3 e t); try done.
    + by rewrite Eq.
    + intros e'. rewrite Eq, Et, Hiff, <- Hq. intros [He' _].
      by apply (T_range s HT).
    + intros e' t'. unfold inflight. rewrite Eq, Et, Hiff, <- Hq. tauto.
    + intros j x' Hx'.
      destruct (nodes_rel_bwd _ _ _ _ _ HR Hx') as (x & Hx & ? & ? & _).
      eauto.
    + intros e' t' Hin' Hne Hok'.
      apply (transfer_ok_mono (nodes s) _ t' Hok').
      * intros u Hu.
        destruct (nodes_rel_fwd _ _ _ _ _ HR Hu)
          as (u' & Hu' & _ & _ & _ & _ & Eb & _).
        exists u'. split; [done|]. apply bu_le_eq, Eb. intros E.
        apply Hne. by apply (inflight_up_inj s e' t' e t).
      * intros d Hd.
        destruct (nodes_rel_fwd _ _ _ _ _ HR Hd)
          as (d' & Hd' & _ & _ & _ & El & _ & Er).
        exists d'. split; [done|]. apply rl_le_eq; [|done]. apply Er.
        intros E. apply Hne. by apply (inflight_down_inj s e' t' e t).
  - intros U u' Hu' Hoff.
    destruct (nodes_rel_bwd _ _ _ _ _ HR Hu') as (u & Hu & E1 & E2 & Eo & _).
    rewrite Eo in Hoff. destruct (HO U u Hu Hoff) as [C1 C2].
    rewrite E1, E2, C1, C2. by repeat case_decide.
Qed.

Lemma Inv_TransferComplete_process s q1 e q2 s' :
  Inv s → queue s = q1 ++ Transfer e :: q2 →
  TransferComplete_process (popped s (q1 ++ q2)) e = Some s' →
  Inv s'.
Proof.
  intros HI Hq H. unfold TransferComplete_process in H.
  apply bind_Some in H as (t & Ht & H). simpl in Ht.
  destruct (canceled t) eqn:Hc.
  { injection H as <-. apply (Inv_pop s q1 (Transfer e) q2); [done|done|].
    intros e0 t0 [= <-] Ht0. congruence. }
  apply bind_Some in H as (u & Hu & H).
  apply bind_Some in H as (d & Hd & H).
  destruct (negb (online u && online d)); [done|].
  apply bind_Some in H as (s1 & H1 & H).
  apply bind_Some in H as (s4 & H4 & H).
  eapply Inv_schedule_next_download; [|exact H].
  eapply Inv_schedule_next_upload; [|exact H4].
  assert (inflight s e t) as Hin.
  { split; [done|]. split; [done|]. rewrite Hq.
    apply elem_of_transfer_ids, elem_of_app. right. apply elem_of_cons.
    by left. }
  destruct HI as (HD & HT & HO).
  pose proof (T_ok s HT e t Hin) as Hok.
  pose proof Hok as (Hne & u0 & d0 & Hu0 & Hd0 & Hk).
  simpl in Hu, Hd. simplify_eq.
  unfold update_block_state in H1. destruct (kind t) eqn:Ek.
  - apply backup_update_spec in H1
      as (u' & d' & Hu' & Hd' & Hlt & Hfs & Et & Eq & HR); [|done].
    simpl in Hu', Hd', Et, Eq, HR. simplify_eq.
    assert (InvD (nodes s1)) as HD1
      by (by apply (InvD_backup (nodes s) _ t u d)).
    apply (Inv_complete s _ e t q1 q2); try done.
    + eapply InvDx_same; [|exact HD1].
      eapply nodes_rel_impl; [|apply clear_slots_rel].
      intros j x x' _ ->. by decide_cases.
    + eapply nodes_rel_trans; [|exact HR|apply clear_slots_rel].
      intros j x y z Hrel ->.
      apply backup_rel_fields in Hrel
        as (_ & _ & El & Eb & Er & _ & Eu & Ed & Eo); [|done].
      decide_cases; rewrite ?El, ?Eb, ?Er, ?Eu, ?Ed, ?Eo;
        repeat split; try done; intros; by decide_cases.
  - apply restore_update_spec in H1 as (d' & Hd' & Hlt & Et & Eq & HR).
    simpl in Hd', Et, Eq, HR. simplify_eq.
    assert (InvD (nodes s1)) as HD1.
    { eapply InvDx_same; [|exact HD].
      eapply nodes_rel_impl; [|exact HR].
      intros j x x' _ Hrel. by apply restore_rel_fields in Hrel as [? _]. }
    apply (Inv_complete s _ e t q1 q2); try done.
    + eapply InvDx_same; [|exact HD1].
      eapply nodes_rel_impl; [|apply clear_slots_rel].
      intros j x x' _ ->. by decide_cases.
    + eapply nodes_rel_trans; [|exact HR|apply clear_slots_rel].
      intros j x y z Hrel ->.
      apply restore_rel_fields in Hrel
        as ((_ & _ & _ & El & Eb & Er) & (Eu & Ed) & Eo).
      decide_cases; rewrite ?El, ?Eb, ?Er, ?Eu, ?Ed, ?Eo;
        repeat split; try done.
Qed.

(** ** Fail *)

Lemma InvTO_mono s s' :
  InvT s → InvO s →
  transfers s' = transfers s → queue s' = queue s →
  nodes_rel (λ _ x x', same_slots x x' ∧ online x' = online x ∧
                       bu_le x x' ∧ rl_le x x') (nodes s) (nodes s') →
  InvT s' ∧ InvO s'.
Proof.
  intros HT HO Et Eq HR. split.
  - apply (InvT_frame s); try done.
    + rewrite Eq. apply (T_nodup s HT).
    + intros e. rewrite Eq, Et. apply (T_range s HT).
    + intros e t. unfold inflight. by rewrite Eq, Et.
    + intros j x' Hx'.
      destruct (nodes_rel_bwd _ _ _ _ _ HR Hx') as (x & Hx & [? ?] & _).
      eauto.
    + intros e t _ Hok. apply (transfer_ok_mono (nodes s) _ t Hok).
      * intros u Hu.
        destruct (nodes_rel_fwd _ _ _ _ _ HR Hu) as (u' & Hu' & _ & _ & ? & _).
        eauto.
      * intros d Hd.
        destruct (nodes_rel_fwd _ _ _ _ _ HR Hd) as (d' & Hd' & _ & _ & _ & ?).
        eauto.
  - intros U u' Hu' Hoff.
    destruct (nodes_rel_bwd _ _ _ _ _ HR Hu') as (u & Hu & [E1 E2] & Eo & _).
    rewrite E1, E2. apply (HO U u Hu). congruence.
Qed.

Lemma bu_le_clear x i :
  bu_le x (set_backed_up_blocks (<[i:=None]> (backed_up_blocks x)) x).
Proof.
  split; simpl.
  - intros j Hj. destruct (decide (i = j)) as [<-|Hne].
    + apply list_lookup_insert_eq. by apply lookup_lt_Some in Hj.
    + by rewrite list_lookup_insert_ne.
  - intros P (j & Hj)%list_elem_of_lookup.
    apply list_lookup_insert_Some in Hj as [(_ & ? & _)|(_ & Hj)]; [done|].
    apply list_elem_of_lookup. eauto.
Qed.

(** One turn of the loop of [Fail.process] on node [B]: the entry of the
    item [(X, i)] is cleared at its owner. *)
Lemma InvDx_clear B done ns b X i o :
  InvDx B done ns → ns !! B = Some b →
  (X, i) ∈ remote_blocks_held b → (X, i) ∉ done →
  ns !! X = Some o →
  InvDx B (done ++ [(X, i)])
    (alter (set_backed_up_blocks (<[i:=None]> (backed_up_blocks o))) X ns).
Proof.
  intros HD Hb Hin Hnd Ho.
  set (f := set_backed_up_blocks (<[i:=None]> (backed_up_blocks o))).
  assert (nodes_rel (λ j x x', x' = if decide (X = j) then f x else x)
            ns (alter f X ns)) as HR by (by nodes_rel_tac).
  assert (∀ j x', alter f X ns !! j = Some x' → ∃ x, ns !! j = Some x ∧
            x' = if decide (X = j) then f x else x) as Hget
    by (intros j0 x0 H0; exact (nodes_rel_bwd _ _ _ _ _ HR H0)).
  assert (∀ j x, ns !! j = Some x → ∃ x', alter f X ns !! j = Some x' ∧
            x' = if decide (X = j) then f x else x) as Hput
    by (intros j0 x0 H0; exact (nodes_rel_fwd _ _ _ _ _ HR H0)).
  assert (∀ d, held_size (alter f X ns) d = held_size ns d) as Hhs.
  { intros l. apply held_size_ext. intros q. by apply owner_block_size_alter. }
  destruct (D_bwd B done ns HD B b X i Hb Hin) as (HXB & o' & Ho' & Hoi).
  assert (o' = o) as -> by congruence.
  rewrite decide_False in Hoi by tauto.
  split.
  - intros j x' Hx'. destruct (Hget j x' Hx') as (x & Hx & ->).
    destruct (D_len B done ns HD j x Hx) as [L1 L2].
    case_decide; [|done]. simplify_eq. simpl. by rewrite length_insert.
  - intros Y y' j Q Hy' Hj. destruct (Hget Y y' Hy') as (y & Hy & ->).
    assert (backed_up_blocks y !! j = Some (Some Q)) as Hj'.
    { case_decide; [|done]. simplify_eq. simpl in Hj.
      apply list_lookup_insert_Some in Hj as [(_ & ? & _)|(_ & Hj)]; done. }
    destruct (D_fwd B done ns HD Y y j Q Hy Hj') as (q & Hq & Hinq).
    destruct (Hput Q q Hq) as (q' & Hq' & ->). exists (if decide (X = Q) then f q else q).
    split; [done|]. by case_decide.
  - intros Q q' Y j Hq' Hinq. destruct (Hget Q q' Hq') as (q & Hq & ->).
    assert ((Y, j) ∈ remote_blocks_held q) as Hinq' by (by case_decide).
    destruct (D_bwd B done ns HD Q q Y j Hq Hinq') as (HYQ & y & Hy & Hyj).
    split; [done|]. destruct (Hput Y y Hy) as (y' & Hy' & ->).
    eexists. split; [done|].
    destruct (decide (X = Y)) as [<-|HXY].
    + simplify_eq. simpl. destruct (decide (i = j)) as [<-|Hij].
      * rewrite list_lookup_insert_eq by (by apply lookup_lt_Some in Hoi).
        rewrite Hoi in Hyj. rewrite decide_True; [done|].
        case_decide; [done|]. simplify_eq. split; [done|].
        apply elem_of_app. right. by apply list_elem_of_singleton.
      * rewrite list_lookup_insert_ne by done. rewrite Hyj.
        do 2 f_equal. apply decide_ext. rewrite elem_of_app.
        rewrite list_elem_of_singleton. split; [tauto|].
        intros [? [?|?]]; [done|congruence].
    + rewrite Hyj. do 2 f_equal. apply decide_ext. rewrite elem_of_app.
      rewrite list_elem_of_singleton. split; [tauto|].
      intros [? [?|?]]; [done|congruence].
  - intros Q q' Hq'. destruct (Hget Q q' Hq') as (q & Hq & ->).
    pose proof (D_keys B done ns HD Q q Hq). by case_decide.
  - intros Q q' Hq'. destruct (Hget Q q' Hq') as (q & Hq & ->).
    rewrite Hhs. pose proof (D_space B done ns HD Q q Hq). by case_decide.
Qed.

Lemma Fail_loop_inv_bwd_online B items done s :
  Fail_loop_inv B items done s → bwd_online (nodes s).
Proof.
  intros (HD & _ & _ & b & Hb & Hoff & _) P p X i Hp Hon Hin.
  destruct (D_bwd B done _ HD P p X i Hp Hin) as (_ & x & Hx & Hi).
  exists x. split; [done|]. rewrite Hi, decide_False; [done|].
  intros [-> _]. congruence.
Qed.

Lemma Fail_loop_keeps B items rest :
  ∀ done s s',
    Fail_loop_inv B items done s → items = done ++ rest →
    Fail_loop s rest = Some s' →
    Fail_loop_inv B items items s'.
Proof.
  induction rest as [|[X i] rest IH]; intros done s s' HL Hitems H.
  { simpl in H. injection H as <-. rewrite app_nil_r in Hitems. by subst. }
  simpl in H. apply bind_Some in H as (o & Ho & H).
  apply bind_Some in H as (bu & Hbu & H).
  apply list_assign_Some in Hbu as [Hlt ->].
  apply bind_Some in H as (s2 & H2 & H).
  apply (IH (done ++ [(X, i)]) s2 s'); [|by rewrite <- app_assoc|done].
  destruct HL as (HD & HT & HO & b & Hb & Hoff & Hrem).
  assert ((X, i) ∈ remote_blocks_held b) as Hin.
  { rewrite Hrem, Hitems. apply elem_of_app. right. apply elem_of_cons.
    by left. }
  destruct (D_bwd B done _ HD B b X i Hb Hin) as (HXB & _).
  assert ((X, i) ∉ done) as Hnd.
  { pose proof (D_keys B done _ HD B b Hb) as Hk.
    rewrite Hrem, Hitems, fmap_app in Hk.
    apply NoDup_app in Hk as (_ & Hk & _). intros Hd.
    apply (Hk X); [apply list_elem_of_fmap; by exists (X, i)|].
    simpl. apply elem_of_cons. by left. }
  set (s1 := upd_node X
               (set_backed_up_blocks (<[i:=None]> (backed_up_blocks o))) s)
    in *.
  assert (Fail_loop_inv B items (done ++ [(X, i)]) s1) as HL1.
  { split; [by apply (InvDx_clear B done (nodes s) b)|].
    assert (InvT s1 ∧ InvO s1) as [HT1 HO1].
    { apply (InvTO_mono s); try done. nodes_rel_tac.
      case_decide; simplify_eq.
      - split; [done|]. split; [done|]. split; [apply bu_le_clear|].
        by apply rl_le_eq.
      - split; [done|]. split; [done|]. split; [by apply bu_le_eq|].
        by apply rl_le_eq. }
    split; [done|]. split; [done|]. exists b. split; [|done].
    unfold s1. simpl. by rewrite list_lookup_alter_ne. }
  assert (s2 = s1 ∨ schedule_next_upload s1 X = Some s2) as [->|Hs2].
  { destruct (online o); [|left; congruence].
    destruct (current_upload o); [left; congruence|by right]. }
  { done. }
  pose proof (Fail_loop_inv_bwd_online _ _ _ _ HL1) as Hbwd.
  destruct HL1 as (HD1 & HT1 & HO1 & b1 & Hb1 & Hoff1 & Hrem1).
  apply schedule_next_upload_InvT in Hs2 as (HT2 & HO2 & E); try done.
  split; [by apply (InvDx_erase _ _ (nodes s1))|].
  split; [done|]. split; [done|].
  destruct (nodes_rel_fwd _ _ _ _ _ (nodes_rel_erase _ _ E) Hb1)
    as (b2 & Hb2 & Eb).
  exists b2. split; [done|]. injection Eb; intros. split; congruence.
Qed.

(** The end of [Fail.process]: the failed node forgets the blocks it held,
    all of which are cleared at their owners. *)
Lemma InvD_fail_end B ns b f :
  InvDx B (remote_blocks_held b) ns → ns !! B = Some b →
  (∀ x, cfg (f x) = cfg x ∧ block_size (f x) = block_size x ∧
        backed_up_blocks (f x) = backed_up_blocks x ∧
        remote_blocks_held (f x) = [] ∧
        length (local_blocks (f x)) = Z.to_nat (n (cfg x)) ∧
        free_space (f x) =
          (storage_size (cfg x) - block_size x * n (cfg x))%Z) →
  InvD (alter f B ns).
Proof.
  intros HD Hb Hf.
  assert (nodes_rel (λ j x x', x' = if decide (B = j) then f x else x)
            ns (alter f B ns)) as HR by (by nodes_rel_tac).
  assert (∀ j x', alter f B ns !! j = Some x' → ∃ x, ns !! j = Some x ∧
            x' = if decide (B = j) then f x else x) as Hget
    by (intros j0 x0 H0; exact (nodes_rel_bwd _ _ _ _ _ HR H0)).
  assert (∀ j x, ns !! j = Some x → ∃ x', alter f B ns !! j = Some x' ∧
            x' = if decide (B = j) then f x else x) as Hput
    by (intros j0 x0 H0; exact (nodes_rel_fwd _ _ _ _ _ HR H0)).
  assert (∀ d, held_size (alter f B ns) d = held_size ns d) as Hhs.
  { intros l. apply held_size_ext. intros q.
    apply owner_block_size_alter. intros x. by destruct (Hf x) as (_ & ? & _). }
  assert (∀ j x, backed_up_blocks (if decide (B = j) then f x else x)
                 = backed_up_blocks x) as Hbu.
  { intros j x. case_decide; [|done]. by destruct (Hf x) as (_ & _ & ? & _). }
  split.
  - intros j x' Hx'. destruct (Hget j x' Hx') as (x & Hx & ->).
    destruct (D_len _ _ ns HD j x Hx) as [L1 L2]. rewrite Hbu.
    case_decide; [|done]. destruct (Hf x) as (-> & _ & _ & _ & -> & _).
    done.
  - intros Y y' j Q Hy' Hj. destruct (Hget Y y' Hy') as (y & Hy & ->).
    rewrite Hbu in Hj.
    destruct (D_fwd _ _ ns HD Y y j Q Hy Hj) as (q & Hq & Hinq).
    destruct (Hput Q q Hq) as (q' & Hq' & ->). eexists. split; [done|].
    case_decide; [|done]. simplify_eq.
    destruct (D_bwd _ _ ns HD _ _ Y j Hb Hinq) as (_ & y0 & Hy0 & Hy0j).
    rewrite decide_True in Hy0j by done. congruence.
  - intros Q q' Y j Hq' Hinq. destruct (Hget Q q' Hq') as (q & Hq & ->).
    rewrite decide_False by (intros [_ H]; by apply elem_of_nil in H).
    destruct (decide (B = Q)) as [<-|HBQ].
    { destruct (Hf q) as (_ & _ & _ & Er & _). rewrite Er in Hinq.
      by apply elem_of_nil in Hinq. }
    destruct (D_bwd _ _ ns HD Q q Y j Hq Hinq) as (HYQ & y & Hy & Hyj).
    split; [done|]. destruct (Hput Y y Hy) as (y' & Hy' & ->).
    eexists. split; [done|]. rewrite Hbu, Hyj, decide_False; [done|].
    intros [-> _]. done.
  - intros Q q' Hq'. destruct (Hget Q q' Hq') as (q & Hq & ->).
    case_decide; [|by apply (D_keys _ _ ns HD Q)].
    destruct (Hf q) as (_ & _ & _ & -> & _). apply NoDup_nil_2.
  - intros Q q' Hq'. destruct (Hget Q q' Hq') as (q & Hq & ->).
    rewrite Hhs. destruct (D_space _ _ ns HD Q q Hq) as (S1 & S2 & S3).
    case_decide; [|done].
    destruct (Hf q) as (-> & -> & _ & -> & _ & ->). simpl. lia.
Qed.

Lemma disconnect_offline s B s' b :
  InvT s → InvO s → disconnect s B = Some s' →
  nodes s' !! B = Some b → online b = false.
Proof.
  intros HT HO H Hb.
  apply disconnect_spec in H as (_ & _ & _ & HR); [|done|done].
  destruct (nodes_rel_bwd _ _ _ _ _ HR Hb) as (b0 & Hb0 & E & _).
  rewrite decide_True in E by done. by injection E.
Qed.

Lemma InvDx_nil B B' ns : InvDx B [] ns → InvDx B' [] ns.
Proof.
  intros HD. split; try apply HD.
  intros P p X i Hp Hin.
  destruct (D_bwd B [] ns HD P p X i Hp Hin) as (Hne & x & Hx & Hi).
  split; [done|]. exists x. split; [done|]. rewrite Hi.
  rewrite !decide_False; [done|..]; intros [_ H]; by apply elem_of_nil in H.
Qed.

Lemma Inv_Fail_process s B s' :
  Inv s → Fail_process s B = Some s' → Inv s'.
Proof.
  intros HI H. unfold Fail_process in H.
  apply bind_Some in H as (s1 & H1 & H).
  apply bind_Some in H as (node & Hnode & H).
  apply bind_Some in H as (s5 & H5 & H).
  apply bind_Some in H as ([] & _ & H). injection H as <-.
  pose proof (Inv_disconnect s B s1 HI H1) as (HD1 & HT1 & HO1).
  destruct HI as (HD & HT & HO).
  remember (upd_node B lose_local_blocks
              (upd_node B count_data_loss
                 (upd_node B (set_failed true) s1))) as s4 eqn:Es4.
  assert (nodes_rel (λ j x x', same_data x x' ∧ same_slots x x' ∧
            online x' = online x ∧
            remote_blocks_held x' = remote_blocks_held x)
            (nodes s1) (nodes s4)) as HR4.
  { subst s4. nodes_rel_tac.
    destruct (D_len 0 [] _ HD1 j x Hx) as [L1 L2].
    decide_cases; repeat split; try done.
    unfold lose_local_blocks. simpl. by rewrite length_replicate. }
  assert (Fail_loop_inv B (remote_blocks_held node) [] s4) as HL4.
  { split; [|split; [|split]].
    - apply (InvDx_nil 0). apply (InvDx_same 0 [] (nodes s1)); [|done].
      eapply nodes_rel_impl; [|exact HR4]. by intros ??? _ [? _].
    - apply (InvTO_mono s1); try done; [by subst s4..|].
      eapply nodes_rel_impl; [|exact HR4].
      intros j x x' _ ((_ & _ & _ & El & Eb & Er) & Hs & Eo & _).
      split; [done|]. split; [done|].
      split; [by apply bu_le_eq|by apply rl_le_eq].
    - apply (InvTO_mono s1); try done; [by subst s4..|].
      eapply nodes_rel_impl; [|exact HR4].
      intros j x x' _ ((_ & _ & _ & El & Eb & Er) & Hs & Eo & _).
      split; [done|]. split; [done|].
      split; [by apply bu_le_eq|by apply rl_le_eq].
    - exists node. split; [done|]. split; [|done].
      destruct (nodes_rel_bwd _ _ _ _ _ HR4 Hnode) as (b1 & Hb1 & _ & _ & Eo & _).
      rewrite Eo. by apply (disconnect_offline s B s1). }
  apply (Fail_loop_keeps B (remote_blocks_held node) (remote_blocks_held node)
           [] s4 s5) in HL4; [|done|done].
  destruct HL4 as (HD5 & HT5 & HO5 & b5 & Hb5 & Hoff5 & Hrem5).
  apply Inv_schedule; [done|].
  set (f := count_data_loss ∘ lose_local_blocks ∘ reset_free_space
            ∘ set_remote_blocks_held []).
  assert (nodes (upd_node B count_data_loss
            (upd_node B lose_local_blocks
               (upd_node B reset_free_space
                  (upd_node B (set_remote_blocks_held []) s5))))
          = alter f B (nodes s5)) as En.
  { simpl. unfold f. by rewrite !list_alter_alter_eq. }
  split; [|].
  - rewrite En. rewrite <- Hrem5 in HD5.
    apply (InvD_fail_end B (nodes s5) b5); [done|done|].
    intros x. unfold f. simpl. repeat split; try done.
    by rewrite length_replicate.
  - apply (InvTO_mono s5); try done. rewrite En. nodes_rel_tac.
    destruct (D_len _ _ _ HD5 j x Hx) as [L1 L2].
    case_decide; [|by repeat split]. unfold f. simpl.
    split; [done|]. split; [done|]. split; [by apply bu_le_eq|].
    split; simpl; [intros o Ho; by apply elem_of_nil in Ho|].
    by rewrite length_replicate.
Qed.

(** ** Every reachable state satisfies the invariant *)

Lemma init_events_ids ns : ∀ i evs,
  init_events i ns = Some evs → transfer_ids evs = [].
Proof.
  induction ns as [|x ns IH]; intros i evs H; simpl in H.
  - by injection H as <-.
  - apply bind_Some in H as ([] & _ & H).
    apply bind_Some in H as (evs' & Hevs & H). injection H as <-.
    simpl. by apply (IH (S i)).
Qed.

Lemma Node_post_init_Some c x :
  Node_post_init c = Some x →
  cfg x = c ∧ online x = false ∧ failed x = false ∧
  (0 ≤ storage_size c - block_size x * n c)%Z ∧
  free_space x = (storage_size c - block_size x * n c)%Z ∧
  local_blocks x = replicate (Z.to_nat (n c)) true ∧
  backed_up_blocks x = replicate (Z.to_nat (n c)) None ∧
  remote_blocks_held x = [] ∧
  current_upload x = None ∧ current_download x = None.
Proof.
  unfold Node_post_init. intros H.
  destruct (Z.leb_spec 0 (storage_size c -
    (if (0 <? k c)%Z then (data_size c / k c)%Z else 0%Z) * n c)) as [Hle|];
    [|done].
  injection H as <-. simpl. done.
Qed.

Lemma Inv_init cs s : Backup_init cs = Some s → Inv s.
Proof.
  unfold Backup_init. intros H.
  apply bind_Some in H as (ns & Hns & H).
  apply bind_Some in H as (evs & Hevs & H). injection H as <-.
  apply init_events_ids in Hevs.
  assert (∀ j x, ns !! j = Some x → ∃ c, Node_post_init c = Some x) as Hn.
  { intros j x Hx. apply mapM_Some_1 in Hns.
    destruct (Forall2_lookup_r _ _ _ _ _ Hns Hx) as (c & _ & Hc). eauto. }
  split; [|split].
  - split.
    + intros j x Hx. destruct (Hn j x Hx) as (c & Hc).
      apply Node_post_init_Some in Hc
        as (-> & _ & _ & _ & _ & -> & -> & _).
      by rewrite !length_replicate.
    + intros X x i P Hx Hi. destruct (Hn X x Hx) as (c & Hc).
      apply Node_post_init_Some in Hc as (_ & _ & _ & _ & _ & _ & E & _).
      rewrite E in Hi. apply lookup_replicate in Hi as [? _]. done.
    + intros P p X i Hp Hin. destruct (Hn P p Hp) as (c & Hc).
      apply Node_post_init_Some in Hc
        as (_ & _ & _ & _ & _ & _ & _ & E & _).
      rewrite E in Hin. by apply elem_of_nil in Hin.
    + intros P p Hp. destruct (Hn P p Hp) as (c & Hc).
      apply Node_post_init_Some in Hc
        as (_ & _ & _ & _ & _ & _ & _ & -> & _).
      apply NoDup_nil_2.
    + intros P p Hp. destruct (Hn P p Hp) as (c & Hc).
      apply Node_post_init_Some in Hc
        as (-> & _ & _ & H0 & -> & _ & _ & -> & _).
      simpl. split; [done|]. split; [done|]. lia.
  - split; simpl.
    + rewrite Hevs. apply NoDup_nil_2.
    + intros e. rewrite Hevs. intros He. by apply elem_of_nil in He.
    + intros U u e Hu. destruct (Hn U u Hu) as (c & Hc).
      apply Node_post_init_Some in Hc
        as (_ & _ & _ & _ & _ & _ & _ & _ & -> & _).
      split; [done|]. by intros (t & (Ht & _) & _).
    + intros D d e Hd. destruct (Hn D d Hd) as (c & Hc).
      apply Node_post_init_Some in Hc
        as (_ & _ & _ & _ & _ & _ & _ & _ & _ & ->).
      split; [done|]. by intros (t & (Ht & _) & _).
    + by intros e t (Ht & _).
  - intros U u Hu _. destruct (Hn U u Hu) as (c & Hc).
    by apply Node_post_init_Some in Hc
      as (_ & _ & _ & _ & _ & _ & _ & _ & -> & ->).
Qed.

Lemma Inv_step s s' : Inv s → step s s' → Inv s'.
Proof.
  intros HI [q1 ev q2 Hq H].
  destruct ev as [nd|nd|nd|nd|e]; simpl in H.
  - eapply Inv_Online_process; [|exact H]. by apply (Inv_pop s q1 (Online nd)).
  - eapply Inv_Recover_process; [|exact H].
    by apply (Inv_pop s q1 (Recover nd)).
  - eapply Inv_Offline_process; [|exact H].
    by apply (Inv_pop s q1 (Offline nd)).
  - eapply Inv_Fail_process; [|exact H]. by apply (Inv_pop s q1 (Fail nd)).
  - by apply (Inv_TransferComplete_process s q1 e q2).
Qed.

Lemma reachable_Inv cs s : reachable cs s → Inv s.
Proof.
  induction 1 as [s H|s s' _ IH Hstep].
  - by apply (Inv_init cs).
  - by apply (Inv_step s).
Qed.

(** ** What each operation leaves unchanged *)

(** Computes the fields of nodes built by the field updates (on nodes given
    by their fields). *)
Ltac node_cbv :=
  cbv [erase_links erase_conn erase_slots fail_fields count_data_loss
       lose_local_blocks reset_free_space recovered
       set_online set_failed set_free_space set_local_blocks
       set_backed_up_blocks set_remote_blocks_held set_current_upload
       set_current_download set_total_data_loss_events
       set_total_data_recovered set_total_backups_made
       set_total_restores_made
       cfg online failed block_size free_space local_blocks
       backed_up_blocks remote_blocks_held current_upload current_download
       total_data_loss_events total_data_recovered total_backups_made
       total_restores_made].

Lemma erase_slots_conn x x' :
  erase_slots x' = erase_slots x → erase_conn x' = erase_conn x.
Proof. unfold erase_conn. by intros ->. Qed.

Lemma erase_conn_links x x' :
  erase_conn x' = erase_conn x → erase_links x' = erase_links x.
Proof. unfold erase_links. by intros ->. Qed.

Lemma erase_conn_fields x x' :
  erase_conn x' = erase_conn x →
  cfg x' = cfg x ∧ failed x' = failed x ∧ block_size x' = block_size x ∧
  free_space x' = free_space x ∧ local_blocks x' = local_blocks x ∧
  backed_up_blocks x' = backed_up_blocks x ∧
  remote_blocks_held x' = remote_blocks_held x ∧
  total_data_loss_events x' = total_data_loss_events x ∧
  total_data_recovered x' = total_data_recovered x ∧
  total_backups_made x' = total_backups_made x ∧
  total_restores_made x' = total_restores_made x.
Proof. intros E. injection E; intros. by repeat split. Qed.

Lemma erase_links_fields x x' :
  erase_links x' = erase_links x →
  cfg x' = cfg x ∧ failed x' = failed x ∧ block_size x' = block_size x ∧
  free_space x' = free_space x ∧ local_blocks x' = local_blocks x ∧
  remote_blocks_held x' = remote_blocks_held x ∧
  total_data_loss_events x' = total_data_loss_events x ∧
  total_data_recovered x' = total_data_recovered x ∧
  total_backups_made x' = total_backups_made x ∧
  total_restores_made x' = total_restores_made x.
Proof. intros E. injection E; intros. by repeat split. Qed.

Lemma nodes_rel_refl (R : nat → Node → Node → Prop) ns :
  (∀ j x, R j x x) → nodes_rel R ns ns.
Proof. intros HR. split; [done|]. intros j x x' Hx Hx'. by simplify_eq. Qed.

Lemma nodes_rel_conn_trans ns1 ns2 ns3 :
  nodes_rel (λ _ x x', erase_conn x' = erase_conn x) ns1 ns2 →
  nodes_rel (λ _ x x', erase_conn x' = erase_conn x) ns2 ns3 →
  nodes_rel (λ _ x x', erase_conn x' = erase_conn x) ns1 ns3.
Proof.
  apply nodes_rel_trans. intros j x y z E1 E2. congruence.
Qed.

Lemma nodes_rel_slots_conn ns1 ns2 :
  nodes_rel (λ _ x x', erase_slots x' = erase_slots x) ns1 ns2 →
  nodes_rel (λ _ x x', erase_conn x' = erase_conn x) ns1 ns2.
Proof.
  apply nodes_rel_impl. intros j x x' _. apply erase_slots_conn.
Qed.

Lemma schedule_next_upload_frame s U s' :
  schedule_next_upload s U = Some s' →
  nodes_rel (λ _ x x', erase_slots x' = erase_slots x) (nodes s) (nodes s').
Proof.
  intros H. apply nodes_rel_erase.
  apply schedule_next_upload_inv in H
    as (me & _ & _ & [->|(_ & P & bid & p & _ & _ & _ & _ & H)]); [done|].
  destruct H as [(-> & _)|(-> & _)]; apply with_transfer_frame.
Qed.

Lemma schedule_next_download_frame s D s' :
  schedule_next_download s D = Some s' →
  nodes_rel (λ _ x x', erase_slots x' = erase_slots x) (nodes s) (nodes s').
Proof.
  intros H. apply nodes_rel_erase.
  apply schedule_next_download_inv in H
    as (me & _ & _ & [->|(_ & P & bid & p & _ & _ & _ & _ & H)]); [done|].
  destruct H as [(-> & _)|(-> & _)]; apply with_transfer_frame.
Qed.

Lemma disconnect_frame s B s' :
  disconnect s B = Some s' →
  queue s' = queue s ∧
  nodes_rel (λ _ x x', erase_conn x' = erase_conn x) (nodes s) (nodes s').
Proof.
  unfold disconnect. intros H.
  apply bind_Some in H as (node & Hnode & H).
  apply bind_Some in H as (s2 & H2 & H).
  assert (queue s2 = queue s ∧
    nodes_rel (λ _ x x', erase_conn x' = erase_conn x) (nodes s) (nodes s2))
    as [Eq2 HR2].
  { destruct (current_upload node).
    - apply bind_Some in H2 as (t & _ & H2). injection H2 as <-.
      split; [done|]. nodes_rel_tac. by decide_cases.
    - injection H2 as <-. split; [done|]. nodes_rel_tac. by decide_cases. }
  destruct (current_download node).
  - apply bind_Some in H as (t & _ & H). injection H as <-.
    split; [done|]. eapply nodes_rel_conn_trans; [exact HR2|].
    nodes_rel_tac. by decide_cases.
  - injection H as <-. by split.
Qed.

Lemma Online_process_frame s nd s' :
  Online_process s nd = Some s' →
  nodes_rel (λ _ x x', erase_conn x' = erase_conn x) (nodes s) (nodes s').
Proof.
  unfold Online_process. intros H.
  apply bind_Some in H as (node & Hnode & H).
  destruct (online node || failed node).
  { injection H as <-. by apply nodes_rel_refl. }
  apply bind_Some in H as (s2 & H2 & H).
  apply bind_Some in H as (s3 & H3 & H).
  apply bind_Some in H as ([] & _ & H). injection H as <-. simpl.
  apply schedule_next_upload_frame, nodes_rel_slots_conn in H2.
  apply schedule_next_download_frame, nodes_rel_slots_conn in H3.
  eapply nodes_rel_conn_trans; [|exact H3].
  eapply nodes_rel_conn_trans; [|exact H2].
  nodes_rel_tac. by decide_cases.
Qed.

Lemma Fail_loop_frame items : ∀ s s',
  Fail_loop s items = Some s' →
  (∀ o i, (o, i) ∈ items →
     ∃ x, nodes s !! o = Some x ∧ i < length (backed_up_blocks x)) ∧
  nodes_rel (cleared_rel items) (nodes s) (nodes s').
Proof.
  induction items as [|[o i] rest IH]; intros s s' H; simpl in H.
  { injection H as <-. split; [by intros ?? ?%elem_of_nil|].
    apply nodes_rel_refl. intros j x.
    split; [done|]. split; [done|]. intros i.
    rewrite decide_False; [done|]. apply not_elem_of_nil. }
  apply bind_Some in H as (xo & Hxo & H).
  apply bind_Some in H as (bu & Hbu & H).
  apply list_assign_Some in Hbu as [Hlt ->].
  apply bind_Some in H as (s2 & H2 & H).
  apply IH in H as [Hrange HR].
  set (s1 := upd_node o
               (set_backed_up_blocks (<[i:=None]> (backed_up_blocks xo))) s)
    in *.
  assert (nodes_rel (λ _ x x', erase_slots x' = erase_slots x)
            (nodes s1) (nodes s2)) as HR12.
  { destruct (online xo);
      [|injection H2 as <-; by apply nodes_rel_refl].
    destruct (current_upload xo);
      [injection H2 as <-; by apply nodes_rel_refl|].
    by apply schedule_next_upload_frame in H2. }
  assert (nodes_rel (λ j x x', x' =
            if decide (o = j)
            then set_backed_up_blocks (<[i:=None]> (backed_up_blocks xo)) x
            else x) (nodes s) (nodes s1)) as HR01 by (by nodes_rel_tac).
  split.
  - intros o' i' [[= -> ->]|Hin]%elem_of_cons; [eauto|].
    destruct (Hrange o' i' Hin) as (x2 & Hx2 & Hlt2).
    destruct (nodes_rel_bwd _ _ _ _ _ HR12 Hx2) as (x1 & Hx1 & E12).
    destruct (nodes_rel_bwd _ _ _ _ _ HR01 Hx1) as (x & Hx & ->).
    exists x. split; [done|].
    apply erase_slots_same_data in E12 as (_ & _ & _ & _ & Eb & _).
    rewrite Eb in Hlt2. case_decide; [|done]. simpl in Hlt2.
    rewrite length_insert in Hlt2. by simplify_eq.
  - split; [destruct HR, HR12, HR01; congruence|].
    intros j x x' Hx Hx'.
    destruct (nodes_rel_fwd _ _ _ _ _ HR01 Hx) as (x1 & Hx1 & ->).
    destruct (nodes_rel_fwd _ _ _ _ _ HR12 Hx1) as (x2 & Hx2 & E12).
    destruct HR as [_ HR]. destruct (HR j x2 x' Hx2 Hx') as (El & Elen & Ebu).
    pose proof (erase_slots_same_data _ _ E12) as (_ & _ & _ & _ & Eb & _).
    apply erase_slots_conn, erase_conn_links in E12.
    split; [|split].
    + rewrite El, E12. by case_decide.
    + rewrite Elen, Eb. case_decide; [|done]. subst j. simpl.
      rewrite length_insert. congruence.
    + intros i0. rewrite Ebu, Eb.
      destruct (decide (o = j ∧ i = i0)) as [[<- <-]|Hne].
      * rewrite (decide_True (P:=o = o)) by done.
        assert (x = xo) as -> by congruence. simpl.
        rewrite list_lookup_insert_eq by done.
        rewrite (decide_True (P:=(o, i) ∈ (o, i) :: rest))
          by (apply elem_of_cons; by left).
        destruct (backed_up_blocks xo !! i) eqn:E.
        2:{ apply lookup_ge_None in E. lia. }
        by destruct (decide ((o, i) ∈ rest)).
      * assert (backed_up_blocks
                  (if decide (o = j)
                   then set_backed_up_blocks
                          (<[i:=None]> (backed_up_blocks xo)) x
                   else x) !! i0 = backed_up_blocks x !! i0) as ->.
        { case_decide; [|done]. subst j. simpl.
          assert (x = xo) as -> by congruence.
          rewrite list_lookup_insert_ne; [done|]. intros ->. tauto. }
        apply decide_ext. rewrite elem_of_cons. split; [tauto|].
        intros [[= -> ->]|?]; [tauto|done].
Qed.

Lemma fail_fields_links y y1 y5 :
  erase_links y1 = erase_links y →
  erase_links y5 =
    erase_links (lose_local_blocks (count_data_loss (set_failed true y1))) →
  erase_links
    (count_data_loss
       (lose_local_blocks
          (reset_free_space (set_remote_blocks_held [] y5))))
  = erase_links (fail_fields y).
Proof.
  destruct y, y1, y5. node_cbv.
  intros E1 E5. injection E1; intros; subst. injection E5; intros; subst.
  reflexivity.
Qed.

(** [Fail.process] on node [B], node by node. *)
Lemma Fail_process_spec s B s' :
  Fail_process s B = Some s' →
  ∃ b, nodes s !! B = Some b ∧
    (∀ o i, (o, i) ∈ remote_blocks_held b →
       ∃ x, nodes s !! o = Some x ∧ i < length (backed_up_blocks x)) ∧
    (∃ q, queue s' = q ++ [Recover B]) ∧
    nodes_rel (Fail_rel B (remote_blocks_held b)) (nodes s) (nodes s').
Proof.
  unfold Fail_process. intros H.
  apply bind_Some in H as (s1 & H1 & H).
  apply bind_Some in H as (node & Hnode & H).
  apply bind_Some in H as (s5 & H5 & H).
  apply bind_Some in H as ([] & _ & H). injection H as <-.
  apply disconnect_frame in H1 as [_ HR1].
  apply Fail_loop_frame in H5 as [Hrange HR5].
  assert (∀ j y1, nodes s1 !! j = Some y1 →
    nodes (upd_node B lose_local_blocks
             (upd_node B count_data_loss
                (upd_node B (set_failed true) s1))) !! j
    = Some (if decide (B = j)
            then lose_local_blocks (count_data_loss (set_failed true y1))
            else y1)) as H4.
  { intros j y1 Hy1. simpl. rewrite !list_alter_alter_eq.
    by rewrite (alter_lookup_fwd _ _ _ _ _ Hy1). }
  assert (∃ b, nodes s !! B = Some b ∧
            remote_blocks_held node = remote_blocks_held b)
    as (b & Hb & Erem).
  { simpl in Hnode. rewrite !list_alter_alter_eq in Hnode.
    apply alter_lookup_inv in Hnode as (b1 & Hb1 & ->).
    destruct (nodes_rel_bwd _ _ _ _ _ HR1 Hb1) as (b & Hb & Eb).
    exists b. split; [done|]. rewrite decide_True by done.
    by apply erase_conn_fields in Eb as (_ & _ & _ & _ & _ & _ & Er & _). }
  rewrite Erem in *.
  exists b. split; [done|]. split; [|split].
  - intros o i Hin. destruct (Hrange o i Hin) as (x4 & Hx4 & Hlt).
    simpl in Hx4. rewrite !list_alter_alter_eq in Hx4.
    apply alter_lookup_inv in Hx4 as (x1 & Hx1 & ->).
    destruct (nodes_rel_bwd _ _ _ _ _ HR1 Hx1) as (y & Hy & Ey).
    exists y. split; [done|].
    apply erase_conn_fields in Ey as (_ & _ & _ & _ & _ & Ebu & _).
    rewrite <- Ebu. by case_decide.
  - simpl. eauto.
  - split.
    { simpl. rewrite !length_alter. destruct HR5 as [-> _]. simpl.
      rewrite !length_alter. by destruct HR1. }
    intros j y y' Hy Hy'. simpl in Hy'.
    rewrite !list_alter_alter_eq in Hy'.
    apply alter_lookup_inv in Hy' as (y5 & Hy5 & ->).
    destruct (nodes_rel_fwd _ _ _ _ _ HR1 Hy) as (y1 & Hy1 & Ec).
    destruct HR5 as [_ HR5].
    destruct (HR5 j _ _ (H4 j y1 Hy1) Hy5) as (Elk & Eln & Ebb).
    pose proof (erase_conn_fields _ _ Ec)
      as (_ & _ & _ & _ & _ & Eb1 & _).
    apply erase_conn_links in Ec.
    unfold Fail_rel, cleared_rel.
    destruct (decide (B = j)) as [<-|Hne].
    + rewrite (decide_True (P:=B = B)) by done. split; [|split].
      * by apply (fail_fields_links y y1 y5).
      * simpl in *. by rewrite Eln, Eb1.
      * intros i. simpl in *. by rewrite Ebb, Eb1.
    + rewrite (decide_False (P:=j = B)) by done. split; [|split].
      * by rewrite Elk, Ec.
      * by rewrite Eln, Eb1.
      * intros i. by rewrite Ebb, Eb1.
Qed.

(** ** Runs *)

Lemma run_events_reachable cs picks : ∀ s s',
  reachable cs s → run_events picks s = Some s' → reachable cs s'.
Proof.
  induction picks as [|i picks IH]; intros s s' Hr H; simpl in H.
  - by injection H as <-.
  - apply bind_Some in H as (ev & Hev & H).
    apply bind_Some in H as (s1 & H1 & H).
    apply (IH s1); [|done]. apply (reachable_step cs s); [done|].
    apply (step_event s s1 (take i (queue s)) ev (drop (S i) (queue s))).
    + by rewrite take_drop_middle.
    + by rewrite <- delete_take_drop.
Qed.

Lemma run_from_reachable cs picks s :
  Backup_init cs ≫= run_events picks = Some s → reachable cs s.
Proof.
  intros H. apply bind_Some in H as (s0 & H0 & H).
  apply (run_events_reachable cs picks s0); [|done].
  by apply reachable_init.
Qed.

(** ** More frames *)

Lemma Recover_process_frame s nd s' :
  Recover_process s nd = Some s' →
  nodes_rel (λ j x x', erase_conn x' =
               erase_conn (if decide (j = nd) then set_failed false x else x))
    (nodes s) (nodes s').
Proof.
  unfold Recover_process. intros H.
  apply bind_Some in H as (node & Hnode & H).
  apply bind_Some in H as (s2 & H2 & H).
  apply bind_Some in H as ([] & _ & H). injection H as <-. simpl.
  apply Online_process_frame in H2.
  eapply (nodes_rel_trans
            (λ j x x', x' = if decide (nd = j) then set_failed false x
                            else x)
            (λ _ x x', erase_conn x' = erase_conn x)); [| |exact H2].
  - intros j x y z -> ->. by decide_cases.
  - by nodes_rel_tac.
Qed.

Lemma Offline_process_frame s nd s' :
  Offline_process s nd = Some s' →
  nodes_rel (λ _ x x', erase_conn x' = erase_conn x) (nodes s) (nodes s').
Proof.
  unfold Offline_process. intros H.
  apply bind_Some in H as (node & Hnode & H).
  destruct (failed node || negb (online node)).
  { injection H as <-. by apply nodes_rel_refl. }
  apply bind_Some in H as (s1 & H1 & H).
  apply bind_Some in H as ([] & _ & H). injection H as <-. simpl.
  by apply disconnect_frame in H1 as [_ ?].
Qed.

Lemma update_block_state_failed s t s1 :
  update_block_state s t = Some s1 →
  nodes_rel (λ _ x x', failed x' = failed x) (nodes s) (nodes s1).
Proof.
  unfold update_block_state. destruct (kind t).
  - unfold backup_update_block_state. intros H.
    apply bind_Some in H as (u & Hu & H).
    apply bind_Some in H as (d & Hd & H).
    destruct (_ <? _)%Z; [done|].
    apply bind_Some in H as (o1 & Ho1 & H).
    apply bind_Some in H as (bu & Hbu & H).
    apply bind_Some in H as (o3 & Ho3 & H).
    apply bind_Some in H as (bu' & Hbu' & H). injection H as <-.
    nodes_rel_tac. by decide_cases.
  - intros H. apply restore_update_spec in H as (d & _ & _ & _ & _ & HR).
    eapply nodes_rel_impl; [|exact HR]. intros j x x' _ ->.
    unfold recovered. case_decide; [|done]. by destruct (_ =? _)%Z.
Qed.

Lemma TransferComplete_process_failed s e s' :
  TransferComplete_process s e = Some s' →
  nodes_rel (λ _ x x', failed x' = failed x) (nodes s) (nodes s').
Proof.
  unfold TransferComplete_process. intros H.
  apply bind_Some in H as (t & Ht & H).
  destruct (canceled t).
  { injection H as <-. by apply nodes_rel_refl. }
  apply bind_Some in H as (u & Hu & H).
  apply bind_Some in H as (d & Hd & H).
  destruct (negb _); [done|].
  apply bind_Some in H as (s1 & H1 & H).
  apply bind_Some in H as (s4 & H4 & H).
  apply update_block_state_failed in H1.
  apply schedule_next_upload_frame in H4.
  apply schedule_next_download_frame in H.
  eapply (nodes_rel_trans (λ _ x x', failed x' = failed x)
            (λ _ x x', erase_slots x' = erase_slots x)); [| |exact H].
  { intros j x y z E1 E2. injection E2; intros. congruence. }
  eapply (nodes_rel_trans (λ _ x x', failed x' = failed x)
            (λ _ x x', erase_slots x' = erase_slots x)); [| |exact H4].
  { intros j x y z E1 E2. injection E2; intros. congruence. }
  eapply (nodes_rel_trans (λ _ x x', failed x' = failed x)
            (λ _ x x', failed x' = failed x)); [|exact H1|].
  { intros j x y z E1 E2. congruence. }
  nodes_rel_tac. by decide_cases.
Qed.

Lemma Fail_loop_inbound items : ∀ s s',
  Fail_loop s items = Some s' → inbound_loop s items s'.
Proof.
  induction items as [|[o i] rest IH]; intros s s' H; simpl in H.
  { injection H as <-. constructor. }
  apply bind_Some in H as (xo & Hxo & H).
  apply bind_Some in H as (bu & Hbu & H).
  apply list_assign_Some in Hbu as [Hlt ->].
  apply bind_Some in H as (s2 & H2 & H).
  apply (inbound_cons s o i xo s2); [done|done| |by apply IH].
  destruct (online xo); simpl; [|congruence].
  destruct (current_upload xo); simpl; [congruence|done].
Qed.

(** ** Fail *)

(** C1 (as the code has it): processing a Fail event on a node adds TWO to
    the node's data-loss counter, not one: [Fail.process] runs
    [node.total_data_loss_events += 1] twice (source lines 382 and 403). *)
Theorem C1_Fail_counts_data_loss_twice s nd x s' :
  nodes s !! nd = Some x → Fail_process s nd = Some s' →
  ∃ x', nodes s' !! nd = Some x' ∧
    total_data_loss_events x' = (total_data_loss_events x + 2)%Z.
Proof.
  intros Hx H. apply Fail_process_spec in H as (b & Hb & _ & _ & HR).
  destruct (nodes_rel_fwd _ _ _ _ _ HR Hx) as (x' & Hx' & El & _).
  exists x'. split; [done|]. rewrite decide_True in El by done.
  apply erase_links_fields in El as (_ & _ & _ & _ & _ & _ & -> & _).
  simpl. lia.
Qed.

Lemma C1_Fail_counts_data_loss_twice_witness :
  ∃ x', nodes st_failed !! 0 = Some x' ∧
    total_data_loss_events x' =
      (total_data_loss_events (node_of st_backed 0) + 2)%Z.
Proof.
  apply (C1_Fail_counts_data_loss_twice
           (popped st_backed [Fail 1; Offline 0; Offline 1]) 0
           (node_of st_backed 0) st_failed);
    vm_compute; reflexivity.
Defined.

(** ** Completion of a restore *)

Lemma recovered_fields z :
  erase_conn (recovered z) =
    erase_conn (set_total_data_recovered (total_data_recovered (recovered z)) z) ∧
  total_data_recovered (recovered z) =
    (total_data_recovered z +
     (if (count_true (local_blocks z) =? k (cfg z))%Z then 1 else 0))%Z.
Proof.
  unfold recovered. destruct (_ =? _)%Z; simpl; split; try done; lia.
Qed.

(** C5: when a restore completion that is not canceled is processed, the
    downloader's [local_blocks[block_id]] becomes true, its [restores_made]
    grows by one, and its [data_recovered] grows by one exactly when the
    number of its local blocks after the update is [k] (and stays as it was
    otherwise, in particular when the count is above [k]). *)
Theorem C5_restore_completion s e t d s' :
  transfers s !! e = Some t → canceled t = false →
  kind t = BlockRestoreComplete →
  nodes s !! downloader t = Some d →
  TransferComplete_process s e = Some s' →
  ∃ d', nodes s' !! downloader t = Some d' ∧
    local_blocks d' = <[block_id t := true]> (local_blocks d) ∧
    local_blocks d' !! block_id t = Some true ∧
    total_restores_made d' = (total_restores_made d + 1)%Z ∧
    (count_true (local_blocks d') = k (cfg d') →
     total_data_recovered d' = (total_data_recovered d + 1)%Z) ∧
    (count_true (local_blocks d') ≠ k (cfg d') →
     total_data_recovered d' = total_data_recovered d).
Proof.
  intros Ht Hc Hk Hd H. unfold TransferComplete_process in H.
  rewrite Ht in H. simpl in H. rewrite Hc in H.
  apply bind_Some in H as (u & Hu & H).
  apply bind_Some in H as (d0 & Hd0 & H).
  destruct (negb _); [done|].
  apply bind_Some in H as (s1 & H1 & H).
  apply bind_Some in H as (s4 & H4 & H).
  unfold update_block_state in H1. rewrite Hk in H1.
  apply restore_update_spec in H1 as (d1 & Hd1 & Hlt & _ & _ & HR1).
  assert (d1 = d) as -> by congruence.
  apply schedule_next_upload_frame in H4.
  apply schedule_next_download_frame in H.
  destruct (nodes_rel_fwd _ _ _ _ _ HR1 Hd) as (x1 & Hx1 & E1).
  unfold restore_rel in E1. rewrite decide_True in E1 by done.
  destruct (nodes_rel_fwd _ _ _ _ _
              (clear_slots_rel (nodes s1) (uploader t) (downloader t)) Hx1)
    as (x3 & Hx3 & E3).
  destruct (nodes_rel_fwd _ _ _ _ _ H4 Hx3) as (x4 & Hx4 & E4).
  destruct (nodes_rel_fwd _ _ _ _ _ H Hx4) as (d' & Hd' & E5).
  assert (erase_conn d' = erase_conn x1) as E.
  { apply erase_slots_conn in E4, E5. rewrite E5, E4, E3.
    by repeat case_decide. }
  exists d'. split; [done|].
  set (z := set_total_restores_made (total_restores_made d + 1)
              (set_local_blocks (<[block_id t:=true]> (local_blocks d)) d))
    in *.
  destruct (recovered_fields z) as [Ez Er].
  rewrite E1 in E. rewrite Ez in E.
  apply erase_conn_fields in E
    as (Ec & _ & _ & _ & El & _ & _ & _ & Erec & _ & Eres).
  simpl in Ec, El, Erec, Eres. rewrite Er in Erec. simpl in Erec.
  rewrite El, Ec, Eres, Erec.
  split; [done|]. split; [by apply list_lookup_insert_eq|].
  split; [done|].
  destruct (Z.eqb_spec (count_true (<[block_id t:=true]> (local_blocks d)))
              (k (cfg d))); split; intros; try done; lia.
Qed.

Lemma C5_restore_completion_witness :
  ∃ d', nodes st_restored !! 0 = Some d' ∧
    local_blocks d' = <[0 := true]> (local_blocks (node_of st_recovered 0)) ∧
    local_blocks d' !! 0 = Some true ∧
    total_restores_made d' =
      (total_restores_made (node_of st_recovered 0) + 1)%Z ∧
    (count_true (local_blocks d') = k (cfg d') →
     total_data_recovered d' =
       (total_data_recovered (node_of st_recovered 0) + 1)%Z) ∧
    (count_true (local_blocks d') ≠ k (cfg d') →
     total_data_recovered d' = total_data_recovered (node_of st_recovered 0)).
Proof.
  apply (C5_restore_completion
           (popped st_recovered [Fail 1; Offline 0; Offline 1; Offline 0;
                                 Fail 0])
           1 (new_transfer 1 0 0 true) (node_of st_recovered 0) st_restored);
    vm_compute; reflexivity.
Defined.

(** ** Canceled completions *)

(** C6: processing a transfer completion whose [canceled] flag is set
    changes nothing: the nodes, the transfer events and the queue after it
    are those before it (so no event is scheduled). *)
Theorem C6_canceled_completion_is_noop s e t :
  transfers s !! e = Some t → canceled t = true →
  process (Transfer e) s = Some s.
Proof.
  intros Ht Hc. simpl. unfold TransferComplete_process.
  rewrite Ht. simpl. by rewrite Hc.
Qed.

Lemma C6_canceled_completion_is_noop_witness :
  process (Transfer 0)
    (popped st_canceled [Fail 0; Fail 1; Offline 1; Online 0])
  = Some (popped st_canceled [Fail 0; Fail 1; Offline 1; Online 0]).
Proof.
  apply (C6_canceled_completion_is_noop
           (popped st_canceled [Fail 0; Fail 1; Offline 1; Online 0]) 0
           (set_canceled true (new_transfer 0 1 0 false)));
    vm_compute; reflexivity.
Defined.

(** ** Events on a failed node *)

(** C10: an Online or an Offline event on a node whose [failed] flag is set
    leaves the whole state as it is (no flag changes, nothing is scheduled),
    and an event after which the flag of the node is cleared can only be the
    Recover event of that node. *)
Theorem C10_failed_node_ignores_Online_Offline s nd x :
  nodes s !! nd = Some x → failed x = true →
  process (Online nd) s = Some s ∧
  process (Offline nd) s = Some s ∧
  ∀ ev s' x', process ev s = Some s' → nodes s' !! nd = Some x' →
    failed x' = false → ev = Recover nd.
Proof.
  intros Hx Hf. split; [|split].
  - simpl. unfold Online_process. rewrite Hx. simpl. rewrite Hf.
    by rewrite orb_true_r.
  - simpl. unfold Offline_process. rewrite Hx. simpl. by rewrite Hf.
  - intros ev s' x' H Hx' Hf'.
    destruct ev as [j|j|j|j|e]; simpl in H.
    + apply Online_process_frame in H. destruct H as [_ H].
      apply (H nd x x' Hx) in Hx'. apply erase_conn_fields in Hx'
        as (_ & E & _). congruence.
    + destruct (decide (nd = j)) as [->|Hne]; [done|].
      apply Recover_process_frame in H. destruct H as [_ H].
      apply (H nd x x' Hx) in Hx'. rewrite decide_False in Hx' by done.
      apply erase_conn_fields in Hx' as (_ & E & _). congruence.
    + apply Offline_process_frame in H. destruct H as [_ H].
      apply (H nd x x' Hx) in Hx'. apply erase_conn_fields in Hx'
        as (_ & E & _). congruence.
    + apply Fail_process_spec in H as (b & Hb & _ & _ & [_ H]).
      destruct (H nd x x' Hx Hx') as (E & _).
      apply erase_links_fields in E as (_ & E & _).
      rewrite E in Hf'. case_decide; simpl in Hf'; congruence.
    + apply TransferComplete_process_failed in H. destruct H as [_ H].
      pose proof (H nd x x' Hx Hx'). congruence.
Qed.

Lemma C10_failed_node_ignores_Online_Offline_witness :
  process (Online 0) st_failed = Some st_failed ∧
  process (Offline 0) st_failed = Some st_failed ∧
  ∀ ev s' x', process ev st_failed = Some s' → nodes s' !! 0 = Some x' →
    failed x' = false → ev = Recover 0.
Proof.
  apply (C10_failed_node_ignores_Online_Offline st_failed 0
           (node_of st_failed 0)); vm_compute; reflexivity.
Defined.

(** ** What a Fail does *)

(** The loop of [Fail.process] runs on the state that [disconnect] and the
    first statements leave, over the items that the failing node held. *)
Lemma Fail_process_exact s B b s' :
  nodes s !! B = Some b → Fail_process s B = Some s' →
  ∃ s1 s5, disconnect s B = Some s1 ∧
    inbound_loop (Fail_start B s1) (remote_blocks_held b) s5 ∧
    s' = Fail_end B s5.
Proof.
  intros Hb H. unfold Fail_process in H.
  apply bind_Some in H as (s1 & H1 & H).
  apply bind_Some in H as (node & Hnode & H).
  apply bind_Some in H as (s5 & H5 & H).
  apply bind_Some in H as ([] & _ & H). injection H as <-.
  exists s1, s5. split; [done|]. split; [|done].
  pose proof (disconnect_frame _ _ _ H1) as [_ HR1].
  destruct (nodes_rel_fwd _ _ _ _ _ HR1 Hb) as (b1 & Hb1 & E1).
  apply erase_conn_fields in E1 as (_ & _ & _ & _ & _ & _ & Er & _).
  simpl in Hnode. rewrite !list_alter_alter_eq in Hnode.
  apply alter_lookup_inv in Hnode as (y & Hy & ->).
  assert (y = b1) as -> by congruence.
  rewrite decide_True in H5 by done.
  change (remote_blocks_held _) with (remote_blocks_held b1) in H5.
  rewrite Er in H5. by apply Fail_loop_inbound.
Qed.

(** The loop is a function of the state it starts from. *)
Lemma inbound_loop_fun s items s1 s2 :
  inbound_loop s items s1 → inbound_loop s items s2 → s1 = s2.
Proof.
  intros H1. revert s2.
  induction H1 as [s|s owner bid o sa rest s1 Ho Hlt Ha _ IH];
    intros s2 H2; inversion H2 as [|? ? ? o' sb ? ? Ho' Hlt' Hb Hrest];
    subst; [done|].
  assert (o' = o) as -> by congruence.
  apply IH. assert (sb = sa) as ->; [|done].
  destruct (online o && bool_decide (current_upload o = None)); congruence.
Qed.

(** C7: processing Fail on node [B] sets every entry of [B.local_blocks] to
    false, empties [B.remote_blocks_held], resets [B.free_space] to
    [storage_size - block_size * n], clears [owner.backed_up_blocks[block_id]]
    for every [(owner, block_id)] that [B] held, and schedules a Recover
    event for [B].  In between, on the very state that [disconnect] and the
    marking of [B] as failed leave ([Fail_start]), it goes through the items
    that [B] held in order, clearing the entry of each and invoking the
    upload scheduler of its owner when the owner is online with no current
    upload ([inbound_loop]); the outcome is the state that this loop leaves,
    with the last statements on [B] ([Fail_end]), and nothing else. *)
Theorem C7_Fail_effects s B b s' :
  nodes s !! B = Some b → Fail_process s B = Some s' →
  (∃ b', nodes s' !! B = Some b' ∧
     local_blocks b' = replicate (Z.to_nat (n (cfg b))) false ∧
     remote_blocks_held b' = [] ∧
     free_space b' = (storage_size (cfg b) - block_size b * n (cfg b))%Z) ∧
  (∀ owner bid, (owner, bid) ∈ remote_blocks_held b →
     ∃ o', nodes s' !! owner = Some o' ∧
       backed_up_blocks o' !! bid = Some None) ∧
  (∃ q, queue s' = q ++ [Recover B]) ∧
  ∃ s1 s5, disconnect s B = Some s1 ∧
    inbound_loop (Fail_start B s1) (remote_blocks_held b) s5 ∧
    s' = Fail_end B s5 ∧
    ∀ s5', inbound_loop (Fail_start B s1) (remote_blocks_held b) s5' →
           s5' = s5.
Proof.
  intros Hb H. pose proof (Fail_process_exact s B b s' Hb H) as Hloop.
  apply Fail_process_spec in H as (b0 & Hb0 & Hrange & Hq & HR).
  assert (b0 = b) as -> by congruence.
  split; [|split; [|split; [done|]]].
  - destruct (nodes_rel_fwd _ _ _ _ _ HR Hb) as (b' & Hb' & El & _).
    exists b'. split; [done|]. rewrite decide_True in El by done.
    apply erase_links_fields in El
      as (_ & _ & _ & Ef & Elb & Er & _).
    by rewrite Ef, Elb, Er.
  - intros owner bid Hin. destruct (Hrange owner bid Hin) as (x & Hx & Hlt).
    destruct (nodes_rel_fwd _ _ _ _ _ HR Hx) as (o' & Ho' & _ & _ & Ebu).
    exists o'. split; [done|]. rewrite Ebu, decide_True by done.
    assert (backed_up_blocks (if decide (owner = B) then fail_fields x else x)
            = backed_up_blocks x) as -> by (by case_decide).
    apply lookup_lt_is_Some in Hlt as [v ->]. done.
  - destruct Hloop as (s1 & s5 & H1 & H5 & ->).
    exists s1, s5. split; [done|]. split; [done|]. split; [done|].
    intros s5' H5'. by apply (inbound_loop_fun _ _ _ _ H5').
Qed.

Lemma C7_Fail_effects_witness :
  (∃ b', nodes st_relay_failed !! 1 = Some b' ∧
     local_blocks b' =
       replicate (Z.to_nat (n (cfg (node_of st_relay 1)))) false ∧
     remote_blocks_held b' = [] ∧
     free_space b' =
       (storage_size (cfg (node_of st_relay 1))
        - block_size (node_of st_relay 1) * n (cfg (node_of st_relay 1)))%Z)
  ∧ (∀ owner bid, (owner, bid) ∈ remote_blocks_held (node_of st_relay 1) →
       ∃ o', nodes st_relay_failed !! owner = Some o' ∧
         backed_up_blocks o' !! bid = Some None)
  ∧ (∃ q, queue st_relay_failed = q ++ [Recover 1])
  ∧ ∃ s1 s5,
      disconnect
        (popped st_relay
           [Fail 0; Fail 2; Offline 0; Offline 1; Transfer 1; Offline 2]) 1
        = Some s1 ∧
      inbound_loop (Fail_start 1 s1)
        (remote_blocks_held (node_of st_relay 1)) s5 ∧
      st_relay_failed = Fail_end 1 s5 ∧
      ∀ s5', inbound_loop (Fail_start 1 s1)
               (remote_blocks_held (node_of st_relay 1)) s5' →
             s5' = s5.
Proof.
  apply (C7_Fail_effects
           (popped st_relay
              [Fail 0; Fail 2; Offline 0; Offline 1; Transfer 1; Offline 2])
           1 (node_of st_relay 1) st_relay_failed);
    vm_compute; reflexivity.
Defined.

(** On this example the owner a-0, online and idle when b-0 fails, has its
    upload scheduler invoked: it starts backing its block up again, on c-0,
    whose download from b-0 the failure has just canceled. *)
Example Fail_invokes_the_scheduler :
  reachable relay_cs st_relay ∧
  online (node_of st_relay 0) = true ∧
  current_upload (node_of st_relay 0) = None ∧
  remote_blocks_held (node_of st_relay 1) = [(0, 0)] ∧
  current_upload (node_of st_relay_failed 0) = Some 2 ∧
  current_download (node_of st_relay_failed 2) = Some 2 ∧
  transfers st_relay_failed !! 2 = Some (new_transfer 0 2 0 false) ∧
  transfers st_relay_failed !! 1
    = Some (set_canceled true (new_transfer 1 2 0 false)) ∧
  queue st_relay_failed =
    [Fail 0; Fail 2; Offline 0; Offline 1; Transfer 1; Offline 2;
     Transfer 2; Recover 1].
Proof.
  split; [|by vm_compute].
  apply (run_from_reachable relay_cs [0; 1; 2; 4]). by vm_compute.
Qed.

(** ** Fail, then Recover *)

(** C8 (amended): a Fail of a node immediately followed by its Recover
    leaves the node's [local_blocks] all false and its [backed_up_blocks] as
    they were before the Fail (not all absent: the copies that the peers
    hold are what the node restores from). *)
Theorem C8_Fail_then_Recover cs s q1 q2 B b s1 q3 q4 s2 :
  reachable cs s → queue s = q1 ++ Fail B :: q2 →
  nodes s !! B = Some b →
  process (Fail B) (popped s (q1 ++ q2)) = Some s1 →
  queue s1 = q3 ++ Recover B :: q4 →
  process (Recover B) (popped s1 (q3 ++ q4)) = Some s2 →
  ∃ b2, nodes s2 !! B = Some b2 ∧
    local_blocks b2 = replicate (Z.to_nat (n (cfg b))) false ∧
    backed_up_blocks b2 = backed_up_blocks b.
Proof.
  intros Hr Hq Hb HF Hq1 HR.
  apply reachable_Inv in Hr as (HD & _ & _). simpl in HF, HR.
  apply Fail_process_spec in HF as (b0 & Hb0 & _ & _ & HRF).
  simpl in Hb0, HRF. assert (b0 = b) as -> by congruence.
  apply Recover_process_frame in HR. simpl in HR.
  destruct (nodes_rel_fwd _ _ _ _ _ HRF Hb) as (b1 & Hb1 & El & Eln & Ebu).
  destruct (nodes_rel_fwd _ _ _ _ _ HR Hb1) as (b2 & Hb2 & Ec).
  exists b2. split; [done|].
  rewrite decide_True in Ec, El by done.
  apply erase_conn_fields in Ec as (_ & _ & _ & _ & Elb & Ebk & _).
  apply erase_links_fields in El as (_ & _ & _ & _ & Elb1 & _).
  simpl in Elb, Ebk. rewrite Elb, Ebk. split; [by rewrite Elb1|].
  apply list_eq. intros i. rewrite Ebu.
  rewrite (decide_True (P:=B = B)) by done.
  rewrite decide_False; [done|]. intros Hin.
  by destruct (InvD_bwd _ _ _ _ _ HD Hb Hin) as [? _].
Qed.

Lemma C8_Fail_then_Recover_witness :
  ∃ b2, nodes st_recovered !! 0 = Some b2 ∧
    local_blocks b2 =
      replicate (Z.to_nat (n (cfg (node_of st_backed 0)))) false ∧
    backed_up_blocks b2 = backed_up_blocks (node_of st_backed 0).
Proof.
  apply (C8_Fail_then_Recover demo_cs st_backed [] [Fail 1; Offline 0;
           Offline 1] 0 (node_of st_backed 0) st_failed
           [Fail 1; Offline 0; Offline 1] [] st_recovered);
    try (vm_compute; reflexivity).
  apply (run_from_reachable demo_cs [0; 1; 3]). vm_compute. reflexivity.
Defined.

(** C8, as the claim states it, fails: after the Fail and the Recover of
    a-0, which had backed its block up on b-0, block 0 of a-0 is still
    recorded as backed up on b-0. *)
Lemma C8_counterexample :
  reachable demo_cs st_backed ∧
  process (Fail 0) (popped st_backed [Fail 1; Offline 0; Offline 1])
    = Some st_failed ∧
  process (Recover 0) (popped st_failed [Fail 1; Offline 0; Offline 1])
    = Some st_recovered ∧
  local_blocks (node_of st_recovered 0) = [false] ∧
  backed_up_blocks (node_of st_recovered 0) = [Some 1] ∧
  backed_up_blocks (node_of st_recovered 0) ≠ [None].
Proof.
  split; [apply (run_from_reachable demo_cs [0; 1; 3]); by vm_compute|].
  repeat split; try (vm_compute; reflexivity). by vm_compute.
Qed.

(** ** The invariants of the specification *)

(** C2: in every reachable state (that is, immediately before or after an
    event is processed), if [X.backed_up_blocks[i]] is the peer [P], then
    [P.remote_blocks_held] maps [X] to [i]. *)
Theorem C2_bidirectional_consistency cs s X x i P :
  reachable cs s → nodes s !! X = Some x →
  backed_up_blocks x !! i = Some (Some P) →
  ∃ p, nodes s !! P = Some p ∧ dict_get X (remote_blocks_held p) = Some i.
Proof.
  intros Hr Hx Hi. apply reachable_Inv in Hr as (HD & _ & _).
  destruct (D_fwd _ _ _ HD X x i P Hx Hi) as (p & Hp & Hin).
  exists p. split; [done|]. apply dict_get_elem; [|done].
  by apply (D_keys _ _ _ HD P).
Qed.

Lemma C2_bidirectional_consistency_witness :
  ∃ p, nodes st_backed !! 1 = Some p ∧
    dict_get 0 (remote_blocks_held p) = Some 0.
Proof.
  apply (C2_bidirectional_consistency demo_cs st_backed 0
           (node_of st_backed 0) 0 1); try (vm_compute; reflexivity).
  apply (run_from_reachable demo_cs [0; 1; 3]). vm_compute. reflexivity.
Defined.

Lemma held_size_uniform ns d bs :
  (∀ o, o ∈ d.*1 → owner_block_size ns o = bs) →
  held_size ns d = (bs * Z.of_nat (length d))%Z.
Proof.
  induction d as [|[o i] d IH]; intros H; simpl; [lia|].
  rewrite IH.
  - rewrite (H o) by (simpl; apply elem_of_cons; by left). lia.
  - intros o' Ho'. apply H. simpl. apply elem_of_cons. by right.
Qed.

(** C3 (amended): in every reachable state, the [free_space] of every node
    is non-negative and equals [storage_size - block_size * n] minus the
    sizes of the blocks it holds, each of which has the block size of its
    OWNER; this is [block_size * |remote_blocks_held|] when the owners have
    the block size of the node. *)
Theorem C3_free_space cs s P p :
  reachable cs s → nodes s !! P = Some p →
  (0 ≤ free_space p)%Z ∧
  free_space p =
    (storage_size (cfg p) - block_size p * n (cfg p)
     - held_size (nodes s) (remote_blocks_held p))%Z ∧
  ((∀ o, o ∈ (remote_blocks_held p).*1 →
         owner_block_size (nodes s) o = block_size p) →
   free_space p =
     (storage_size (cfg p) - block_size p * n (cfg p)
      - block_size p * Z.of_nat (length (remote_blocks_held p)))%Z).
Proof.
  intros Hr Hp. apply reachable_Inv in Hr as (HD & _ & _).
  destruct (D_space _ _ _ HD P p Hp) as (_ & H0 & Heq).
  split; [done|]. split; [done|]. intros Hu.
  by rewrite <- (held_size_uniform (nodes s)).
Qed.

Lemma C3_free_space_witness :
  (0 ≤ free_space (node_of st_backed 1))%Z ∧
  free_space (node_of st_backed 1) =
    (storage_size (cfg (node_of st_backed 1))
     - block_size (node_of st_backed 1) * n (cfg (node_of st_backed 1))
     - held_size (nodes st_backed)
         (remote_blocks_held (node_of st_backed 1)))%Z ∧
  ((∀ o, o ∈ (remote_blocks_held (node_of st_backed 1)).*1 →
         owner_block_size (nodes st_backed) o
         = block_size (node_of st_backed 1)) →
   free_space (node_of st_backed 1) =
     (storage_size (cfg (node_of st_backed 1))
      - block_size (node_of st_backed 1) * n (cfg (node_of st_backed 1))
      - block_size (node_of st_backed 1)
        * Z.of_nat (length (remote_blocks_held (node_of st_backed 1))))%Z).
Proof.
  apply (C3_free_space demo_cs st_backed 1 (node_of st_backed 1));
    try (vm_compute; reflexivity).
  apply (run_from_reachable demo_cs [0; 1; 3]). vm_compute. reflexivity.
Defined.

(** C3, as the claim states it, fails: b-0 (blocks of 5 bytes, 20 bytes of
    storage, one block of its own) holds one block of a-0, of 10 bytes; its
    free space is 5, not 20 - 5 * 1 - 5 * 1 = 10. *)
Lemma C3_counterexample :
  reachable demo_cs st_backed ∧
  ∃ p, nodes st_backed !! 1 = Some p ∧
    free_space p = 5%Z ∧
    (storage_size (cfg p) - block_size p * n (cfg p)
     - block_size p * Z.of_nat (length (remote_blocks_held p)))%Z = 10%Z ∧
    free_space p ≠
      (storage_size (cfg p) - block_size p * n (cfg p)
       - block_size p * Z.of_nat (length (remote_blocks_held p)))%Z.
Proof.
  split; [apply (run_from_reachable demo_cs [0; 1; 3]); by vm_compute|].
  exists (node_of st_backed 1). by vm_compute.
Qed.

(** ** The vulnerable blocks of the summary *)

Lemma vulnerable_loop_count s x bu : ∀ acc,
  vulnerable_loop s x bu acc =
  (acc + Z.of_nat (length (filter
           (λ o : option nat, is_Some o ∧ count_holders s x = 1%nat) bu)))%Z.
Proof.
  induction bu as [|[P|] bu IH]; intros acc; simpl.
  - lia.
  - destruct (decide (count_holders s x = 1%nat)) as [H1|H1].
    + rewrite IH, filter_cons_True by (split; [by eexists|done]). simpl. lia.
    + rewrite IH, filter_cons_False; [done|]. by intros [_ ?].
  - rewrite IH, filter_cons_False; [done|]. intros [[? H] _]. done.
Qed.

Lemma filter_pairs_seq (P : nat * nat → Prop) `{∀ p, Decision (P p)}
    (Q : option nat → Prop) `{∀ o, Decision (Q o)} i
    (bu : list (option nat)) : ∀ off,
  (∀ k o, bu !! k = Some o → (P (i, off + k) ↔ Q o)) →
  length (filter P (pair i <$> seq off (length bu))) = length (filter Q bu).
Proof.
  induction bu as [|o bu IH]; intros off HPQ; simpl; [done|].
  assert (length (filter P (pair i <$> seq (S off) (length bu)))
          = length (filter Q bu)) as E.
  { apply IH. intros k o' Hk.
    replace (S off + k) with (off + S k) by lia. by apply HPQ. }
  pose proof (HPQ 0 o eq_refl) as Hhd. rewrite Nat.add_0_r in Hhd.
  rewrite !filter_cons.
  destruct (decide (Q o)) as [HQ|HQ];
    destruct (decide (P (i, off))) as [HP|HP]; try tauto;
    simpl; try f_equal; exact E.
Qed.

Lemma summary_loop_count s ns : ∀ i acc,
  (∀ j x, ns !! j = Some x → nodes s !! (i + j) = Some x) →
  (summary_loop s i ns acc).1 =
  (acc.1 + Z.of_nat (length (filter
     (λ p, block_present s p = true ∧ count_holders s p.1 = 1%nat)
     (imap (λ j, pair (i + j)%nat) ns ≫=
        (λ ix, pair ix.1 <$> seq 0%nat (length (backed_up_blocks ix.2)))))))%Z.
Proof.
  induction ns as [|x ns IH]; intros i acc Hns; simpl; [lia|].
  rewrite IH; simpl.
  2:{ intros j y Hj. pose proof (Hns (S j) y Hj) as Hy.
      by rewrite Nat.add_succ_r in Hy. }
  rewrite vulnerable_loop_count, filter_app, length_app.
  rewrite Nat.add_0_r.
  rewrite (filter_pairs_seq _
             (λ o : option nat, is_Some o ∧ count_holders s i = 1%nat)).
  2:{ intros k o Hk. unfold block_present. simpl.
      pose proof (Hns 0 x eq_refl) as Hx. rewrite Nat.add_0_r in Hx.
      rewrite Hx, Hk. destruct o; split; intros [H1 H2];
        (split; [|done]); try done; by destruct H1. }
  rewrite (imap_ext ((λ j, pair (i + j)) ∘ S) (λ j, pair (S i + j)) ns).
  2:{ intros j y _. simpl. f_equal. lia. }
  rewrite Nat2Z.inj_add, Z.add_assoc. reflexivity.
Qed.

(** C9 (what the code computes): when there is a node, the summary is
    produced, and its vulnerable-blocks figure is the number of the pairs
    (owner, block index) such that [owner.backed_up_blocks[index]] is present
    and exactly one node has the owner among the keys of its
    [remote_blocks_held].  The test [owners == 1] of [Backup.summary] does
    not look at the block: it counts the nodes holding any block of the
    owner, not the remote copies of the block, which is what the comment
    next to it and the claim describe. *)
Theorem C9_vulnerable_blocks s :
  nodes s ≠ [] →
  ∃ r, summary s = Some r ∧
    sum_vulnerable_blocks r = vulnerable_single_holder s.
Proof.
  intros Hne. unfold summary.
  destruct (nodes s) as [|x0 l] eqn:En; [done|]. rewrite <- En.
  eexists. split; [reflexivity|]. cbn [sum_vulnerable_blocks].
  rewrite summary_loop_count by (by intros j x).
  unfold vulnerable_single_holder, block_pairs. simpl. done.
Qed.

Lemma C9_vulnerable_blocks_witness :
  ∃ r, summary st_three = Some r ∧
    sum_vulnerable_blocks r = vulnerable_single_holder st_three.
Proof.
  apply (C9_vulnerable_blocks st_three). vm_compute. discriminate.
Defined.

(** The figure is 6 when the tables record the two blocks of each of three
    nodes on one and the same peer, which no run produces: a node holds at
    most one block of an owner. *)
Example summary_same_peer :
  sum_vulnerable_blocks <$> summary st_same_peer = Some 6%Z ∧
  map backed_up_blocks (nodes st_same_peer) =
    [[Some 1; Some 1]; [Some 2; Some 2]; [Some 0; Some 0]].
Proof. by vm_compute. Qed.

(** C9, the failing input: in the reachable [st_three] each of the three
    nodes has its two blocks backed up, each on one peer, so that every
    backed-up block has exactly one remote copy and is vulnerable as the
    code's comment and the claim have it, 6 in all; every owner is then held
    by two nodes and the summary reports 0. *)
Lemma C9_counterexample :
  reachable three_cs st_three ∧
  map backed_up_blocks (nodes st_three) =
    [[Some 1; Some 2]; [Some 0; Some 2]; [Some 0; Some 1]] ∧
  vulnerable_as_claimed st_three = 6%Z ∧
  sum_vulnerable_blocks <$> summary st_three = Some 0%Z.
Proof.
  split; [|by vm_compute].
  apply (run_from_reachable three_cs [0; 1; 2; 4; 4; 6; 6; 6; 6]).
  by vm_compute.
Qed.

(** ** Upload selection *)

Lemma upload_restore_loop_find s items :
  (∀ P bid, (P, bid) ∈ items →
     ∃ p, nodes s !! P = Some p ∧ bid < length (local_blocks p)) →
  upload_restore_loop s items = Some (find (restore_wanted s) items).
Proof.
  induction items as [|[P bid] items IH]; intros Hr; simpl; [done|].
  destruct (Hr P bid) as (p & Hp & Hlt); [apply elem_of_cons; by left|].
  assert (upload_restore_loop s items = Some (find (restore_wanted s) items))
    as IH'.
  { apply IH. intros P' bid' Hin. apply Hr, elem_of_cons. by right. }
  unfold restore_wanted at 1. simpl. rewrite Hp. simpl.
  apply lookup_lt_is_Some_2 in Hlt as [held Hheld]. rewrite Hheld.
  destruct (online p); simpl; [|done].
  destruct (current_download p); simpl; [done|].
  destruct held; simpl; done.
Qed.

Lemma find_block_from_find (f : nat → bool) lb : ∀ bu off,
  length lb = length bu →
  (∀ k, k < length lb →
     f (off + k) = bool_decide (lb !! k = Some true ∧ bu !! k = Some None)) →
  find_block_from off lb bu = find f (seq off (length lb)).
Proof.
  induction lb as [|held lb IH]; intros [|peer bu] off Hlen Hf;
    simpl in *; try done.
  assert (find_block_from (S off) lb bu = find f (seq (S off) (length lb)))
    as IH'.
  { apply IH; [lia|]. intros k Hk.
    replace (S off + k) with (off + S k) by lia. apply Hf. lia. }
  pose proof (Hf 0 ltac:(lia)) as Hhd. rewrite Nat.add_0_r in Hhd.
  simpl in Hhd. rewrite Hhd.
  destruct held, peer; simpl; done.
Qed.

Lemma find_block_to_back_up_first me :
  length (local_blocks me) = length (backed_up_blocks me) →
  find_block_to_back_up me = first_unbacked_block me.
Proof.
  intros Hlen. unfold find_block_to_back_up, first_unbacked_block.
  by apply find_block_from_find.
Qed.

Lemma upload_backup_loop_find U me ns : ∀ i,
  (∀ j p, ns !! j = Some p → online p = true →
     in_remote_owners (i + j) (backed_up_blocks me)
     = dict_mem U (remote_blocks_held p)) →
  upload_backup_loop U me i ns
  = fst <$> find (backup_peer_ok U me) (imap (λ j, pair (i + j)) ns).
Proof.
  induction ns as [|p ns IH]; intros i Hm; simpl; [done|].
  pose proof (Hm 0 p eq_refl) as Hhd. rewrite Nat.add_0_r in Hhd.
  assert (upload_backup_loop U me (S i) ns
          = fst <$> find (backup_peer_ok U me)
                      (imap ((λ j, pair (i + j)) ∘ S) ns)) as IH'.
  { rewrite IH.
    - f_equal. f_equal. apply imap_ext. intros j y _. simpl. f_equal. lia.
    - intros j y Hj. replace (S i + j) with (i + S j) by lia. by apply Hm. }
  unfold backup_peer_ok at 1. simpl. rewrite Nat.add_0_r.
  destruct (online p).
  - rewrite Hhd by done. by destruct (_ && _).
  - by destruct (bool_decide (i ≠ U)).
Qed.

Lemma InvDx_sched_pre B done ns :
  InvDx B done ns →
  (done = [] ∨ ∃ b, ns !! B = Some b ∧ online b = false) →
  sched_pre ns.
Proof.
  intros HD Hoff. split.
  - intros i x Hx. by destruct (D_len _ _ _ HD i x Hx) as [-> ->].
  - exact (D_fwd _ _ _ HD).
  - intros P p X i Hp Hon Hin.
    destruct (D_bwd _ _ _ HD P p X i Hp Hin) as (_ & x & Hx & Hi).
    exists x. split; [done|]. rewrite Hi, decide_False; [done|].
    intros [-> Hd]. destruct Hoff as [->|(b & Hb & Hb')].
    + by apply elem_of_nil in Hd.
    + congruence.
Qed.

(** The precondition holds between two events ... *)
Lemma reachable_sched_pre cs s : reachable cs s → sched_pre (nodes s).
Proof.
  intros Hr. apply reachable_Inv in Hr as (HD & _ & _).
  apply (InvDx_sched_pre 0 [] _ HD). by left.
Qed.

(** ... and inside the loop of [Fail.process], where the scheduler is called
    while the failing node still has its items. *)
Lemma Fail_loop_sched_pre B items done s :
  Fail_loop_inv B items done s → sched_pre (nodes s).
Proof.
  intros (HD & _ & _ & b & Hb & Hoff & _).
  apply (InvDx_sched_pre B done _ HD). right. by exists b.
Qed.

(** A peer that is online is among the non-absent entries of
    [U.backed_up_blocks] exactly when it holds a block of [U]. *)
Lemma remote_owners_holders ns U me P p :
  sched_pre ns → ns !! U = Some me → ns !! P = Some p → online p = true →
  in_remote_owners P (backed_up_blocks me)
  = dict_mem U (remote_blocks_held p).
Proof.
  intros HS Hme Hp Hon.
  destruct (dict_mem U (remote_blocks_held p)) eqn:Hd.
  - apply in_remote_owners_true. apply dict_mem_true in Hd.
    apply list_elem_of_fmap in Hd as ([U' i] & -> & Hin). simpl in *.
    destruct (S_bwd _ HS P p U' i Hp Hon Hin) as (x & Hx & Hi).
    assert (x = me) as -> by congruence.
    by eapply list_elem_of_lookup_2.
  - apply in_remote_owners_false. apply dict_mem_false in Hd.
    intros Hin. apply list_elem_of_lookup_1 in Hin as [i Hi].
    destruct (S_fwd _ HS U me i P Hme Hi) as (p' & Hp' & Hin).
    assert (p' = p) as -> by congruence.
    apply Hd. apply list_elem_of_fmap. by exists (U, i).
Qed.

(** C4: for an online node [U] with no upload in flight, wherever the
    scheduler is called, [schedule_next_upload] does what the selection of
    the specification says: a restore to the first item of
    [U.remote_blocks_held] whose owner is online, has no current download and
    lacks the block; failing that, a backup of the first block of [U] that is
    local and not backed up to the first node of [sim.nodes] that is distinct
    from [U], online, holds no block of [U], has no current download and has
    the room; and nothing otherwise. *)
Theorem C4_upload_selection s U me :
  sched_pre (nodes s) → nodes s !! U = Some me →
  online me = true → current_upload me = None →
  schedule_next_upload s U = selected_transfer s U (upload_selection s U me).
Proof.
  intros HS Hme Hon Hcu.
  unfold schedule_next_upload, upload_selection, first_restore,
    first_backup_peer.
  rewrite Hme. simpl. rewrite Hon, Hcu. simpl.
  rewrite upload_restore_loop_find.
  2:{ intros P bid Hin.
      destruct (S_bwd _ HS U me P bid Hme Hon Hin) as (p & Hp & Hi).
      exists p. split; [done|].
      apply lookup_lt_Some in Hi. by rewrite (S_len _ HS P p Hp). }
  simpl. destruct (find (restore_wanted s) (remote_blocks_held me))
    as [[P bid]|]; [done|].
  rewrite find_block_to_back_up_first by (by apply (S_len _ HS U)).
  destruct (first_unbacked_block me) as [i|]; [|done].
  rewrite upload_backup_loop_find.
  2:{ intros j p Hj Hpo. simpl.
      by apply (remote_owners_holders (nodes s)). }
  rewrite (imap_ext (λ j, pair (0 + j)) pair (nodes s)) by done.
  by destruct (fst <$> find (backup_peer_ok U me) (imap pair (nodes s))).
Qed.

Lemma C4_upload_selection_witness :
  schedule_next_upload st_idle_restore 2
  = selected_transfer st_idle_restore 2
      (upload_selection st_idle_restore 2 (node_of st_idle_restore 2)).
Proof.
  apply (C4_upload_selection st_idle_restore 2 (node_of st_idle_restore 2));
    try (vm_compute; reflexivity).
  apply (reachable_sched_pre three_cs).
  apply (run_from_reachable three_cs [0; 1; 2; 4; 4; 6; 6; 6; 6; 0; 5; 3]).
  vm_compute. reflexivity.
Defined.

(** The three outcomes of the selection, on the examples. *)
Example upload_selection_restore :
  upload_selection st_idle_restore 2 (node_of st_idle_restore 2)
  = UploadRestore 0 1 ∧
  schedule_next_upload st_idle_restore 2
  = Some (with_transfer st_idle_restore 2 0 1 true).
Proof. by vm_compute. Qed.

Example upload_selection_backup :
  upload_selection st_idle_backup 2 (node_of st_idle_backup 2)
  = UploadBackup 0 1 ∧
  schedule_next_upload st_idle_backup 2
  = Some (with_transfer st_idle_backup 2 1 0 false).
Proof. by vm_compute. Qed.

Example upload_selection_nothing :
  upload_selection st_three 2 (node_of st_three 2) = UploadNothing ∧
  schedule_next_upload st_three 2 = Some st_three.
Proof. by vm_compute. Qed.

(** * Further properties of the code *)

(** ** Completion of a backup *)

(** What the completion of a transfer, with the schedulers that follow it,
    leaves of a node: everything but its connection. *)
Lemma completion_tail s1 U D s4 s' j x1 :
  schedule_next_upload
    (upd_node U (set_current_upload None)
       (upd_node D (set_current_download None) s1)) U = Some s4 →
  schedule_next_download s4 D = Some s' →
  nodes s1 !! j = Some x1 →
  ∃ x', nodes s' !! j = Some x' ∧ erase_conn x' = erase_conn x1.
Proof.
  intros H4 H Hx1.
  apply schedule_next_upload_frame in H4.
  apply schedule_next_download_frame in H.
  destruct (nodes_rel_fwd _ _ _ _ _ (clear_slots_rel (nodes s1) U D) Hx1)
    as (x3 & Hx3 & E3).
  destruct (nodes_rel_fwd _ _ _ _ _ H4 Hx3) as (x4 & Hx4 & E4).
  destruct (nodes_rel_fwd _ _ _ _ _ H Hx4) as (x' & Hx' & E5).
  exists x'. split; [done|].
  apply erase_slots_conn in E4, E5. rewrite E5, E4, E3.
  by repeat case_decide.
Qed.

(** When a backup completion that is not canceled is processed, the uploader
    records the downloader for the block and counts one more backup, and the
    downloader records the block for the uploader and gives up the room of
    one block of the UPLOADER, which it has; nothing else of the two block
    tables, of the local blocks and of the counters changes. *)
Theorem X1_backup_completion s e t u d s' :
  transfers s !! e = Some t → canceled t = false →
  kind t = BlockBackupComplete → uploader t ≠ downloader t →
  nodes s !! uploader t = Some u → nodes s !! downloader t = Some d →
  TransferComplete_process s e = Some s' →
  (0 ≤ free_space d - block_size u)%Z ∧
  ∃ u' d', nodes s' !! uploader t = Some u' ∧
    nodes s' !! downloader t = Some d' ∧
    backed_up_blocks u' =
      <[block_id t := Some (downloader t)]> (backed_up_blocks u) ∧
    backed_up_blocks u' !! block_id t = Some (Some (downloader t)) ∧
    total_backups_made u' = (total_backups_made u + 1)%Z ∧
    remote_blocks_held u' = remote_blocks_held u ∧
    free_space u' = free_space u ∧
    remote_blocks_held d' =
      dict_set (uploader t) (block_id t) (remote_blocks_held d) ∧
    dict_get (uploader t) (remote_blocks_held d') = Some (block_id t) ∧
    free_space d' = (free_space d - block_size u)%Z ∧
    backed_up_blocks d' = backed_up_blocks d ∧
    total_backups_made d' = total_backups_made d ∧
    local_blocks u' = local_blocks u ∧ local_blocks d' = local_blocks d.
Proof.
  intros Ht Hc Hk Hne Hu Hd H. unfold TransferComplete_process in H.
  rewrite Ht in H. simpl in H. rewrite Hc in H.
  apply bind_Some in H as (u0 & Hu0 & H).
  apply bind_Some in H as (d0 & Hd0 & H).
  destruct (negb _); [done|].
  apply bind_Some in H as (s1 & H1 & H).
  apply bind_Some in H as (s4 & H4 & H).
  unfold update_block_state in H1. rewrite Hk in H1.
  apply backup_update_spec in H1
    as (u1 & d1 & Hu1 & Hd1 & Hlt & Hfs & _ & _ & HR); [|done].
  assert (u1 = u) as -> by congruence. assert (d1 = d) as -> by congruence.
  split; [done|].
  destruct (nodes_rel_fwd _ _ _ _ _ HR Hu) as (xu & Hxu & Eu).
  destruct (nodes_rel_fwd _ _ _ _ _ HR Hd) as (xd & Hxd & Ed).
  destruct (completion_tail _ _ _ _ _ _ _ H4 H Hxu) as (u' & Hu' & Eu').
  destruct (completion_tail _ _ _ _ _ _ _ H4 H Hxd) as (d' & Hd' & Ed').
  exists u', d'. split; [done|]. split; [done|].
  apply backup_rel_fields in Eu as Fu; [|done].
  apply backup_rel_fields in Ed as Fd; [|done].
  destruct Fu as (_ & _ & Elu & Ebu & Eru & Efu & _).
  destruct Fd as (_ & _ & Eld & Ebd & Erd & Efd & _).
  rewrite decide_True in Ebu by done.
  rewrite decide_False in Eru by done.
  rewrite decide_False in Efu by done.
  rewrite decide_False in Ebd by (intros ?; by apply Hne).
  rewrite decide_True in Erd by done.
  rewrite decide_True in Efd by done.
  assert (total_backups_made xu = (total_backups_made u + 1)%Z) as Etu.
  { unfold backup_rel in Eu. rewrite decide_True in Eu by done. by subst. }
  assert (total_backups_made xd = total_backups_made d) as Etd.
  { unfold backup_rel in Ed. rewrite decide_False in Ed by (intros ?; by apply Hne).
    rewrite decide_True in Ed by done. by subst. }
  apply erase_conn_fields in Eu'
    as (_ & _ & _ & -> & -> & -> & -> & _ & _ & -> & _).
  apply erase_conn_fields in Ed'
    as (_ & _ & _ & -> & -> & -> & -> & _ & _ & -> & _).
  rewrite Ebu, Etu, Eru, Efu, Erd, Efd, Ebd, Etd, Elu, Eld.
  repeat split; try done.
  - by apply list_lookup_insert_eq.
  - clear. induction (remote_blocks_held d) as [|[k' v'] l IH]; simpl.
    + by rewrite decide_True.
    + destruct (decide (k' = uploader t)) as [->|Hk]; simpl.
      * by rewrite decide_True.
      * by rewrite decide_False.
Qed.

Lemma X1_backup_completion_witness :
  (0 ≤ free_space (node_of st_inflight 1)
       - block_size (node_of st_inflight 0))%Z ∧
  ∃ u' d', nodes st_backed !! 0 = Some u' ∧
    nodes st_backed !! 1 = Some d' ∧
    backed_up_blocks u' =
      <[0 := Some 1]> (backed_up_blocks (node_of st_inflight 0)) ∧
    backed_up_blocks u' !! 0 = Some (Some 1) ∧
    total_backups_made u' =
      (total_backups_made (node_of st_inflight 0) + 1)%Z ∧
    remote_blocks_held u' = remote_blocks_held (node_of st_inflight 0) ∧
    free_space u' = free_space (node_of st_inflight 0) ∧
    remote_blocks_held d' =
      dict_set 0 0 (remote_blocks_held (node_of st_inflight 1)) ∧
    dict_get 0 (remote_blocks_held d') = Some 0 ∧
    free_space d' =
      (free_space (node_of st_inflight 1)
       - block_size (node_of st_inflight 0))%Z ∧
    backed_up_blocks d' = backed_up_blocks (node_of st_inflight 1) ∧
    total_backups_made d' = total_backups_made (node_of st_inflight 1) ∧
    local_blocks u' = local_blocks (node_of st_inflight 0) ∧
    local_blocks d' = local_blocks (node_of st_inflight 1).
Proof.
  apply (X1_backup_completion
           (popped st_inflight [Fail 0; Fail 1; Offline 0; Offline 1]) 0
           (new_transfer 0 1 0 false) (node_of st_inflight 0)
           (node_of st_inflight 1) st_backed);
    try (vm_compute; reflexivity).
  vm_compute. discriminate.
Defined.

(** ** The transfers in flight *)

(** In every reachable state, a transfer that is queued and not canceled has
    two distinct endpoints, both online, the uploader's [current_upload] and
    the downloader's [current_download] are that very transfer: the
    assertion [uploader.online and downloader.online] of
    [TransferComplete.process] holds when the event is popped. *)
Theorem X2_inflight_endpoints cs s e t :
  reachable cs s → transfers s !! e = Some t → canceled t = false →
  Transfer e ∈ queue s →
  uploader t ≠ downloader t ∧
  ∃ u d, nodes s !! uploader t = Some u ∧ nodes s !! downloader t = Some d ∧
    current_upload u = Some e ∧ current_download d = Some e ∧
    online u = true ∧ online d = true.
Proof.
  intros Hr Ht Hc Hq. apply reachable_Inv in Hr as (_ & HT & HO).
  assert (inflight s e t) as Hin
    by (split; [done|]; split; [done|]; by apply elem_of_transfer_ids).
  destruct (T_ok s HT e t Hin) as (Hne & u & d & Hu & Hd & _).
  split; [done|]. exists u, d. split; [done|]. split; [done|].
  assert (current_upload u = Some e) as Hcu
    by (apply (T_up s HT (uploader t) u e Hu); by exists t).
  assert (current_download d = Some e) as Hcd
    by (apply (T_down s HT (downloader t) d e Hd); by exists t).
  split; [done|]. split; [done|]. split.
  - destruct (online u) eqn:Hon; [done|].
    destruct (HO _ _ Hu Hon) as [? _]. congruence.
  - destruct (online d) eqn:Hon; [done|].
    destruct (HO _ _ Hd Hon) as [_ ?]. congruence.
Qed.

Lemma X2_inflight_endpoints_witness :
  uploader (new_transfer 0 1 0 false) ≠ downloader (new_transfer 0 1 0 false) ∧
  ∃ u d, nodes st_inflight !! uploader (new_transfer 0 1 0 false) = Some u ∧
    nodes st_inflight !! downloader (new_transfer 0 1 0 false) = Some d ∧
    current_upload u = Some 0 ∧ current_download d = Some 0 ∧
    online u = true ∧ online d = true.
Proof.
  apply (X2_inflight_endpoints demo_cs st_inflight 0
           (new_transfer 0 1 0 false)); try (vm_compute; reflexivity).
  - apply (run_from_reachable demo_cs [0; 1]). vm_compute. reflexivity.
  - apply (list_elem_of_lookup_2 _ 3). vm_compute. reflexivity.
Defined.

(** In every reachable state, the [current_upload] of a node is a transfer
    that is queued, not canceled and uploaded by that node, and its
    [current_download] one that is queued, not canceled and downloaded by
    it; a node that is offline has neither. *)
Theorem X3_slots_are_inflight cs s U u :
  reachable cs s → nodes s !! U = Some u →
  (∀ e, current_upload u = Some e →
     ∃ t, transfers s !! e = Some t ∧ canceled t = false ∧
       Transfer e ∈ queue s ∧ uploader t = U) ∧
  (∀ e, current_download u = Some e →
     ∃ t, transfers s !! e = Some t ∧ canceled t = false ∧
       Transfer e ∈ queue s ∧ downloader t = U) ∧
  (online u = false → current_upload u = None ∧ current_download u = None).
Proof.
  intros Hr Hu. apply reachable_Inv in Hr as (_ & HT & HO).
  split; [|split].
  - intros e He. apply (T_up s HT U u e Hu) in He as (t & (? & ? & ?) & ?).
    exists t. by rewrite <- elem_of_transfer_ids.
  - intros e He. apply (T_down s HT U u e Hu) in He as (t & (? & ? & ?) & ?).
    exists t. by rewrite <- elem_of_transfer_ids.
  - apply (HO U u Hu).
Qed.

Lemma X3_slots_are_inflight_witness :
  (∀ e, current_upload (node_of st_inflight 0) = Some e →
     ∃ t, transfers st_inflight !! e = Some t ∧ canceled t = false ∧
       Transfer e ∈ queue st_inflight ∧ uploader t = 0) ∧
  (∀ e, current_download (node_of st_inflight 0) = Some e →
     ∃ t, transfers st_inflight !! e = Some t ∧ canceled t = false ∧
       Transfer e ∈ queue st_inflight ∧ downloader t = 0) ∧
  (online (node_of st_inflight 0) = false →
   current_upload (node_of st_inflight 0) = None ∧
   current_download (node_of st_inflight 0) = None).
Proof.
  apply (X3_slots_are_inflight demo_cs st_inflight 0
           (node_of st_inflight 0)); try (vm_compute; reflexivity).
  apply (run_from_reachable demo_cs [0; 1]). vm_compute. reflexivity.
Defined.

(** ** The two block tables *)

(** In every reachable state, a node that holds block [i] for the owner [X]
    is not [X] itself, is the node that [X.backed_up_blocks[i]] records (the
    converse of the bidirectional consistency), and holds no other block of
    [X]: the keys of its [remote_blocks_held] are distinct. *)
Theorem X4_holder_is_recorded cs s P p X i :
  reachable cs s → nodes s !! P = Some p →
  dict_get X (remote_blocks_held p) = Some i →
  X ≠ P ∧
  (∃ x, nodes s !! X = Some x ∧ backed_up_blocks x !! i = Some (Some P)) ∧
  NoDup (remote_blocks_held p).*1 ∧
  ∀ j, (X, j) ∈ remote_blocks_held p → j = i.
Proof.
  intros Hr Hp Hi. apply reachable_Inv in Hr as (HD & _ & _).
  pose proof (D_keys _ _ _ HD P p Hp) as Hk.
  destruct (InvD_bwd _ _ _ _ _ HD Hp (dict_get_Some _ _ _ Hi)) as [Hne Hx].
  split; [done|]. split; [done|]. split; [done|].
  intros j Hj. apply (dict_get_elem _ _ _ Hk) in Hj. congruence.
Qed.

Lemma X4_holder_is_recorded_witness :
  0 ≠ 1 ∧
  (∃ x, nodes st_backed !! 0 = Some x ∧
     backed_up_blocks x !! 0 = Some (Some 1)) ∧
  NoDup (remote_blocks_held (node_of st_backed 1)).*1 ∧
  ∀ j, (0, j) ∈ remote_blocks_held (node_of st_backed 1) → j = 0.
Proof.
  apply (X4_holder_is_recorded demo_cs st_backed 1 (node_of st_backed 1) 0 0);
    try (vm_compute; reflexivity).
  apply (run_from_reachable demo_cs [0; 1; 3]). vm_compute. reflexivity.
Defined.

(** In every reachable state, the blocks of a node are backed up on
    pairwise distinct peers, none of which is the node itself, and each
    block vector has as many entries as the configuration has blocks. *)
Theorem X5_distinct_peers cs s X x :
  reachable cs s → nodes s !! X = Some x →
  length (local_blocks x) = Z.to_nat (n (cfg x)) ∧
  length (backed_up_blocks x) = Z.to_nat (n (cfg x)) ∧
  (∀ i P, backed_up_blocks x !! i = Some (Some P) → P ≠ X) ∧
  ∀ i j P, backed_up_blocks x !! i = Some (Some P) →
    backed_up_blocks x !! j = Some (Some P) → i = j.
Proof.
  intros Hr Hx. apply reachable_Inv in Hr as (HD & _ & _).
  destruct (D_len _ _ _ HD X x Hx) as [L1 L2].
  split; [done|]. split; [done|]. split.
  - intros i P Hi. destruct (D_fwd _ _ _ HD X x i P Hx Hi) as (p & Hp & Hin).
    destruct (InvD_bwd _ _ _ _ _ HD Hp Hin) as [Hne _]. congruence.
  - intros i j P Hi Hj.
    destruct (D_fwd _ _ _ HD X x i P Hx Hi) as (p & Hp & Hin).
    destruct (D_fwd _ _ _ HD X x j P Hx Hj) as (p' & Hp' & Hin').
    assert (p' = p) as -> by congruence.
    pose proof (D_keys _ _ _ HD P p Hp) as Hk.
    apply (dict_get_elem _ _ _ Hk) in Hin, Hin'. congruence.
Qed.

Lemma X5_distinct_peers_witness :
  length (local_blocks (node_of st_three 0))
    = Z.to_nat (n (cfg (node_of st_three 0))) ∧
  length (backed_up_blocks (node_of st_three 0))
    = Z.to_nat (n (cfg (node_of st_three 0))) ∧
  (∀ i P, backed_up_blocks (node_of st_three 0) !! i = Some (Some P) →
     P ≠ 0) ∧
  ∀ i j P, backed_up_blocks (node_of st_three 0) !! i = Some (Some P) →
    backed_up_blocks (node_of st_three 0) !! j = Some (Some P) → i = j.
Proof.
  apply (X5_distinct_peers three_cs st_three 0 (node_of st_three 0));
    try (vm_compute; reflexivity).
  apply (run_from_reachable three_cs [0; 1; 2; 4; 4; 6; 6; 6; 6]).
  vm_compute. reflexivity.
Defined.

(** ** The holders of an owner *)

Lemma imap_pair_shift (ns : list Node) off :
  imap ((λ j, pair (off + j)) ∘ S) ns = imap (λ j, pair (S off + j)) ns.
Proof. apply imap_ext. intros j y _. simpl. f_equal. lia. Qed.

Lemma filter_imap_snd (P : Node → Prop) `{∀ x, Decision (P x)} ns : ∀ off,
  length (filter (λ ip : nat * Node, P ip.2) (imap (λ j, pair (off + j)) ns))
  = length (filter P ns).
Proof.
  induction ns as [|x ns IH]; intros off; [done|].
  rewrite imap_cons, imap_pair_shift, !filter_cons.
  cbn [snd]. destruct (decide (P x)); cbn [length]; by rewrite IH.
Qed.

Lemma elem_of_imap_pair ns off (i : nat) (x : Node) :
  (i, x) ∈ imap (λ j, pair (off + j)) ns ↔
  off ≤ i ∧ ns !! (i - off) = Some x.
Proof.
  revert off. induction ns as [|y ns IH]; intros off.
  - simpl. rewrite elem_of_nil. split; [done|]. by intros [_ ?].
  - rewrite imap_cons, imap_pair_shift, elem_of_cons, IH. split.
    + intros [[= -> ->]|[Hle Hx]].
      * rewrite Nat.add_0_r, Nat.sub_diag. done.
      * split; [lia|]. by replace (i - off) with (S (i - S off)) by lia.
    + intros [Hle Hx]. destruct (decide (i = off)) as [->|Hne].
      * rewrite Nat.sub_diag in Hx. left. rewrite Nat.add_0_r.
        simpl in Hx. congruence.
      * right. split; [lia|].
        by replace (i - off) with (S (i - S off)) in Hx by lia.
Qed.

Lemma NoDup_imap_fst (ns : list Node) off :
  NoDup (imap (λ j, pair (off + j)) ns).*1.
Proof.
  revert off. induction ns as [|y ns IH]; intros off.
  - apply NoDup_nil_2.
  - rewrite imap_cons, imap_pair_shift, fmap_cons.
    apply NoDup_cons. split; [|apply IH].
    intros ([i x] & Hi & Hin)%list_elem_of_fmap. simpl in Hi.
    apply elem_of_imap_pair in Hin as [Hle _]. lia.
Qed.

Lemma omap_id_length (bu : list (option nat)) :
  length (omap id bu) = length (filter is_Some bu).
Proof.
  induction bu as [|[P|] bu IH]; [done| |].
  - rewrite filter_cons_True by (by eexists). simpl. by rewrite <- IH.
  - rewrite filter_cons_False by (by intros [? ?]). done.
Qed.

Lemma omap_id_NoDup (bu : list (option nat)) :
  (∀ i j P, bu !! i = Some (Some P) → bu !! j = Some (Some P) → i = j) →
  NoDup (omap id bu).
Proof.
  induction bu as [|o bu IH]; intros Hinj; simpl; [apply NoDup_nil_2|].
  assert (NoDup (omap id bu)) as Hnd.
  { apply IH. intros i j P Hi Hj.
    assert (S i = S j) by (by apply (Hinj (S i) (S j) P)). lia. }
  destruct o as [P|]; simpl; [|done].
  apply NoDup_cons. split; [|done].
  intros (o & Hin & Ho)%list_elem_of_omap. simpl in Ho. subst o.
  apply list_elem_of_lookup_1 in Hin as [j Hj].
  by pose proof (Hinj 0 (S j) P eq_refl Hj).
Qed.

Lemma InvD_holders_count s X x :
  InvD (nodes s) → nodes s !! X = Some x →
  count_holders s X = length (filter is_Some (backed_up_blocks x)).
Proof.
  intros HD Hx.
  unfold count_holders.
  rewrite <- (filter_imap_snd
                (λ other, dict_mem X (remote_blocks_held other) = true)
                (nodes s) 0).
  rewrite <- omap_id_length.
  set (H := filter _ _).
  rewrite <- (length_fmap fst H).
  apply Permutation_length, NoDup_Permutation.
  - eapply sublist_NoDup; [apply (NoDup_imap_fst (nodes s) 0)|].
    apply fmap_sublist, sublist_filter.
  - apply omap_id_NoDup. intros i j P Hi Hj.
    destruct (D_fwd _ _ _ HD X x i P Hx Hi) as (p & Hp & Hin).
    destruct (D_fwd _ _ _ HD X x j P Hx Hj) as (p' & Hp' & Hin').
    assert (p' = p) as -> by congruence.
    pose proof (D_keys _ _ _ HD P p Hp) as Hk.
    apply (dict_get_elem _ _ _ Hk) in Hin, Hin'. congruence.
  - intros P. rewrite list_elem_of_omap, list_elem_of_fmap. split.
    + intros ([P' p] & -> & Hin). simpl.
      apply list_elem_of_filter in Hin as [Hd Hin]. simpl in Hd.
      apply elem_of_imap_pair in Hin as [_ Hp].
      rewrite Nat.sub_0_r in Hp.
      apply dict_mem_true, list_elem_of_fmap in Hd as ([X' i] & -> & Hin).
      destruct (InvD_bwd _ _ _ _ _ HD Hp Hin) as (_ & x' & Hx' & Hi).
      simpl in *. assert (x' = x) as -> by congruence.
      exists (Some P'). split; [|done]. by eapply list_elem_of_lookup_2.
    + intros (o & Hin & Ho). simpl in Ho. subst o.
      apply list_elem_of_lookup_1 in Hin as [i Hi].
      destruct (D_fwd _ _ _ HD X x i P Hx Hi) as (p & Hp & Hin).
      exists (P, p). split; [done|]. apply list_elem_of_filter. split.
      * simpl. apply dict_mem_true, list_elem_of_fmap. by exists (X, i).
      * apply elem_of_imap_pair. split; [lia|]. by rewrite Nat.sub_0_r.
Qed.

(** In every reachable state, the nodes that hold a block of an owner are
    as many as the blocks that the owner has backed up: the number that
    [Backup.summary] compares with one is the number of the backed-up blocks
    of the owner. *)
Theorem X6_holders_count cs s X x :
  reachable cs s → nodes s !! X = Some x →
  count_holders s X = length (filter is_Some (backed_up_blocks x)).
Proof.
  intros Hr Hx. apply reachable_Inv in Hr as (HD & _ & _).
  by apply InvD_holders_count.
Qed.

Lemma X6_holders_count_witness :
  count_holders st_three 0
  = length (filter is_Some (backed_up_blocks (node_of st_three 0))).
Proof.
  apply (X6_holders_count three_cs st_three 0 (node_of st_three 0));
    try (vm_compute; reflexivity).
  apply (run_from_reachable three_cs [0; 1; 2; 4; 4; 6; 6; 6; 6]).
  vm_compute. reflexivity.
Defined.

(** ** Going offline *)

(** What [disconnect] leaves of the node and of the transfer events. *)
Lemma disconnect_effect s B b s' :
  nodes s !! B = Some b → disconnect s B = Some s' →
  (∃ b', nodes s' !! B = Some b' ∧ online b' = false ∧
     current_upload b' = None ∧ current_download b' = None) ∧
  (∀ e, current_upload b = Some e ∨ current_download b = Some e →
     ∃ t, transfers s' !! e = Some t ∧ canceled t = true) ∧
  (∀ e t, transfers s' !! e = Some t → canceled t = false →
     transfers s !! e = Some t) ∧
  length (transfers s') = length (transfers s).
Proof.
  unfold disconnect. intros Hb H. rewrite Hb in H. simpl in H.
  apply bind_Some in H as (s2 & H2 & H).
  assert ((∃ b2, nodes s2 !! B = Some b2 ∧ online b2 = false ∧
             current_upload b2 = None ∧
             (current_download b = None → current_download b2 = None)) ∧
          (∀ e, current_upload b = Some e →
             ∃ t, transfers s2 !! e = Some t ∧ canceled t = true) ∧
          (∀ e t, transfers s2 !! e = Some t → canceled t = false →
             transfers s !! e = Some t) ∧
          length (transfers s2) = length (transfers s))
    as ((b2 & Hb2 & Ho2 & Hu2 & Hd2) & Hc2 & Hk2 & Hl2).
  { destruct (current_upload b) as [e1|] eqn:Hcu.
    - apply bind_Some in H2 as (t & Ht & H2). injection H2 as <-.
      simpl in *. split; [|split; [|split]].
      + rewrite list_lookup_alter_eq.
        destruct (decide (downloader t = B)) as [->|Hne].
        * rewrite !list_lookup_alter_eq, Hb. simpl. eexists.
          split; [done|]. simpl. by repeat split.
        * rewrite list_lookup_alter_ne by done.
          rewrite list_lookup_alter_eq, Hb. simpl. eexists.
          split; [done|]. simpl. by repeat split.
      + intros e [= <-]. eexists. by rewrite list_lookup_alter_eq, Ht.
      + intros e t' He Hc. apply alter_lookup_inv in He as (t0 & Ht0 & ->).
        case_decide; [by subst|done].
      + by rewrite length_alter.
    - injection H2 as <-. simpl. split; [|split; [|split]]; try done.
      rewrite list_lookup_alter_eq, Hb. simpl. eexists.
      split; [done|]. simpl. by repeat split. }
  destruct (current_download b) as [e2|] eqn:Hcd.
  - apply bind_Some in H as (t & Ht & H). injection H as <-. simpl in *.
    split; [|split; [|split]].
    + rewrite list_lookup_alter_eq.
      destruct (decide (uploader t = B)) as [->|Hne].
      * rewrite list_lookup_alter_eq, Hb2. simpl. eexists.
        split; [done|]. simpl. by repeat split.
      * rewrite list_lookup_alter_ne, Hb2 by done. simpl. eexists.
        split; [done|]. simpl. by repeat split.
    + intros e [He|[= <-]].
      * destruct (Hc2 e He) as (t1 & Ht1 & Hc1).
        destruct (decide (e2 = e)) as [->|Hne].
        -- eexists. by rewrite list_lookup_alter_eq, Ht1.
        -- exists t1. by rewrite list_lookup_alter_ne.
      * eexists. by rewrite list_lookup_alter_eq, Ht.
    + intros e t' He Hc. apply alter_lookup_inv in He as (t0 & Ht0 & ->).
      case_decide; [by subst|]. by apply Hk2.
    + by rewrite length_alter.
  - injection H as <-. split; [|split; [|split]]; try done.
    + exists b2. repeat split; try done. by apply Hd2.
    + intros e [He|He]; [by apply Hc2|done].
Qed.

Lemma imap_lookup_eq {A} (f : nat → A → A) (l l' : list A) :
  (∀ j, l' !! j = f j <$> l !! j) → l' = imap f l.
Proof.
  intros H. apply list_eq. intros j. by rewrite H, list_lookup_imap.
Qed.

Lemma lookup_alter_fmap {A} (f : A → A) (l : list A) i j :
  alter f i l !! j = (if decide (i = j) then f else id) <$> l !! j.
Proof.
  case_decide; subst.
  - by rewrite list_lookup_alter_eq.
  - rewrite list_lookup_alter_ne by done. by destruct (l !! j).
Qed.

(** Compares, position by position, a chain of updates with its closed
    form. *)
Ltac pointwise b :=
  let j := fresh "j" in let x := fresh "x" in let Hx := fresh "Hx" in
  apply imap_lookup_eq; intros j; rewrite ?lookup_alter_fmap;
  match goal with
  | |- context [?l !! j] =>
      destruct (l !! j) as [x|] eqn:Hx; [|reflexivity]
  end;
  cbn [fmap option_fmap option_map]; f_equal;
  repeat case_decide; subst;
  try (assert (x = b) as -> by congruence);
  try reflexivity; try (exfalso; intuition congruence);
  try (destruct b; cbn [current_upload current_download] in *; subst;
       reflexivity).

Lemma disconnect_exact s B b s' :
  nodes s !! B = Some b → disconnect s B = Some s' →
  nodes s' = imap (disconnected_node s B b) (nodes s) ∧
  transfers s' = imap (disconnected_transfer b) (transfers s) ∧
  queue s' = queue s.
Proof.
  unfold disconnect. intros Hb H. rewrite Hb in H. cbn [mbind option_bind] in H.
  apply bind_Some in H as (s2 & H2 & H).
  unfold disconnected_node, disconnected_transfer, upload_peer, download_peer.
  destruct (current_upload b) as [e1|] eqn:Hcu;
    destruct (current_download b) as [e2|] eqn:Hcd;
    cbn [mbind option_bind].
  - apply bind_Some in H2 as (t1 & Ht1 & H2). injection H2 as <-.
    apply bind_Some in H as (t2 & Ht2 & H). injection H as <-.
    cbn [upd_node upd_transfer nodes transfers queue] in *.
    apply alter_lookup_inv in Ht2 as (t0 & Ht0 & ->).
    assert (uploader (if decide (e1 = e2) then set_canceled true t0 else t0)
            = uploader t0) as -> by (by case_decide).
    rewrite Ht1, Ht0. cbn [fmap option_fmap option_map].
    split; [|split; [|done]]; pointwise b.
  - apply bind_Some in H2 as (t1 & Ht1 & H2). injection H2 as <-.
    injection H as <-.
    cbn [upd_node upd_transfer nodes transfers queue] in *.
    rewrite Ht1. cbn [fmap option_fmap option_map].
    split; [|split; [|done]]; pointwise b.
  - injection H2 as <-.
    apply bind_Some in H as (t2 & Ht2 & H). injection H as <-.
    cbn [upd_node upd_transfer nodes transfers queue] in *.
    rewrite Ht2. cbn [fmap option_fmap option_map].
    split; [|split; [|done]]; pointwise b.
  - injection H2 as <-. injection H as <-.
    cbn [upd_node upd_transfer nodes transfers queue] in *.
    split; [|split; [|done]]; pointwise b.
Qed.

(** Processing Offline on a node that is online and has not failed gives
    exactly this state: the node goes offline and loses its two in-flight
    slots, the downloader of its upload loses its download, the uploader of
    its download loses its upload, and every other node is as it was; the
    transfers it was taking part in are marked as canceled, so that their
    completion events, still queued, do nothing when they are processed,
    and every other transfer event is as it was; the queue gets the Online
    event of the node and nothing else.  No block table, free space or
    counter of any node changes. *)
Theorem X7_Offline_cancels s B b s' :
  nodes s !! B = Some b → online b = true → failed b = false →
  Offline_process s B = Some s' →
  nodes s' = imap (disconnected_node s B b) (nodes s) ∧
  transfers s' = imap (disconnected_transfer b) (transfers s) ∧
  queue s' = queue s ++ [Online B] ∧
  (∃ b', nodes s' !! B = Some b' ∧ online b' = false ∧
     current_upload b' = None ∧ current_download b' = None) ∧
  (∀ e, current_upload b = Some e ∨ current_download b = Some e →
     (∃ t, transfers s' !! e = Some t ∧ canceled t = true) ∧
     process (Transfer e) s' = Some s') ∧
  (∀ e, current_upload b ≠ Some e → current_download b ≠ Some e →
     transfers s' !! e = transfers s !! e) ∧
  (∀ j, j ≠ B → upload_peer s b ≠ Some j → download_peer s b ≠ Some j →
     nodes s' !! j = nodes s !! j) ∧
  nodes_rel (λ _ x x', erase_conn x' = erase_conn x) (nodes s) (nodes s').
Proof.
  intros Hb Hon Hf H. pose proof (Offline_process_frame _ _ _ H) as HR.
  unfold Offline_process in H. rewrite Hb in H. simpl in H.
  rewrite Hf, Hon in H. simpl in H.
  apply bind_Some in H as (s1 & H1 & H).
  apply bind_Some in H as ([] & _ & H). injection H as <-.
  destruct (disconnect_effect _ _ _ _ Hb H1) as (Hb' & Hc & _ & _).
  destruct (disconnect_exact _ _ _ _ Hb H1) as (En & Et & Eq).
  cbn [schedule nodes transfers queue].
  split; [done|]. split; [done|]. split; [by rewrite Eq|].
  split; [done|]. split; [|split; [|split; [|done]]].
  - intros e He. destruct (Hc e He) as (t & Ht & Hct).
    split; [by exists t|]. simpl. unfold TransferComplete_process. simpl.
    rewrite Ht. simpl. by rewrite Hct.
  - intros e Hu Hd. rewrite Et, list_lookup_imap.
    destruct (transfers s !! e) as [t|]; [|done]. simpl.
    unfold disconnected_transfer. rewrite decide_False; [done|].
    by intros [?|?].
  - intros j Hj Hu Hd. rewrite En, list_lookup_imap.
    destruct (nodes s !! j) as [x|]; [|done]. simpl.
    unfold disconnected_node.
    rewrite (decide_False (P := j = B)) by done.
    rewrite !decide_False; [done| |]; by intros [?|?].
Qed.

Lemma X7_Offline_cancels_witness :
  nodes st_canceled =
    imap (disconnected_node
            (popped st_inflight [Fail 0; Fail 1; Transfer 0; Offline 1]) 0
            (node_of st_inflight 0))
      (nodes (popped st_inflight [Fail 0; Fail 1; Transfer 0; Offline 1])) ∧
  transfers st_canceled =
    imap (disconnected_transfer (node_of st_inflight 0))
      (transfers
         (popped st_inflight [Fail 0; Fail 1; Transfer 0; Offline 1])) ∧
  queue st_canceled =
    queue (popped st_inflight [Fail 0; Fail 1; Transfer 0; Offline 1])
    ++ [Online 0] ∧
  (∃ b', nodes st_canceled !! 0 = Some b' ∧ online b' = false ∧
     current_upload b' = None ∧ current_download b' = None) ∧
  (∀ e, current_upload (node_of st_inflight 0) = Some e ∨
        current_download (node_of st_inflight 0) = Some e →
     (∃ t, transfers st_canceled !! e = Some t ∧ canceled t = true) ∧
     process (Transfer e) st_canceled = Some st_canceled) ∧
  (∀ e, current_upload (node_of st_inflight 0) ≠ Some e →
        current_download (node_of st_inflight 0) ≠ Some e →
     transfers st_canceled !! e =
     transfers (popped st_inflight [Fail 0; Fail 1; Transfer 0; Offline 1])
       !! e) ∧
  (∀ j, j ≠ 0 →
     upload_peer (popped st_inflight [Fail 0; Fail 1; Transfer 0; Offline 1])
       (node_of st_inflight 0) ≠ Some j →
     download_peer
       (popped st_inflight [Fail 0; Fail 1; Transfer 0; Offline 1])
       (node_of st_inflight 0) ≠ Some j →
     nodes st_canceled !! j =
     nodes (popped st_inflight [Fail 0; Fail 1; Transfer 0; Offline 1])
       !! j) ∧
  nodes_rel (λ _ x x', erase_conn x' = erase_conn x)
    (nodes (popped st_inflight [Fail 0; Fail 1; Transfer 0; Offline 1]))
    (nodes st_canceled).
Proof.
  apply (X7_Offline_cancels
           (popped st_inflight [Fail 0; Fail 1; Transfer 0; Offline 1]) 0
           (node_of st_inflight 0) st_canceled);
    vm_compute; reflexivity.
Defined.

(** ** The block to back up *)

Lemma find_block_from_first lb : ∀ bu off,
  match find_block_from off lb bu with
  | Some b =>
      off ≤ b ∧ lb !! (b - off) = Some true ∧ bu !! (b - off) = Some None ∧
      ∀ j, j < b - off →
        ¬ (lb !! j = Some true ∧ bu !! j = Some None)
  | None => ∀ j, ¬ (lb !! j = Some true ∧ bu !! j = Some None)
  end.
Proof.
  induction lb as [|held lb IH]; intros [|peer bu] off; simpl;
    try (by intros j [? ?]).
  assert (held = true ∧ peer = None ∨ ¬ (held = true ∧ peer = None))
    as [[-> ->]|Hno]
    by (destruct held, peer;
        [right; by intros [_ ?]|by left|right; by intros [? _]
        |right; by intros [? _]]).
  { rewrite Nat.sub_diag. simpl. repeat split; try done. intros j Hj. lia. }
  assert (find_block_from off (held :: lb) (peer :: bu)
          = find_block_from (S off) lb bu) as E
    by (simpl; destruct held, peer; try done; by destruct Hno).
  simpl in E. rewrite E. specialize (IH bu (S off)).
  destruct (find_block_from (S off) lb bu) as [b|].
  - destruct IH as (Hle & H1 & H2 & Hmin).
    replace (b - off) with (S (b - S off)) by lia. simpl.
    repeat split; try done; [lia|].
    intros [|j] Hj; simpl; [|apply Hmin; lia].
    intros [[= ->] [= ->]]. by apply Hno.
  - intros [|j]; simpl; [|apply IH].
    intros [[= ->] [= ->]]. by apply Hno.
Qed.

(** [find_block_to_back_up] returns the FIRST index of a block that the
    node has locally and has not backed up, and nothing exactly when there
    is no such block. *)
Theorem X8_find_block_to_back_up x :
  match find_block_to_back_up x with
  | Some b =>
      local_blocks x !! b = Some true ∧
      backed_up_blocks x !! b = Some None ∧
      ∀ j, j < b → ¬ (local_blocks x !! j = Some true ∧
                      backed_up_blocks x !! j = Some None)
  | None =>
      ∀ j, ¬ (local_blocks x !! j = Some true ∧
              backed_up_blocks x !! j = Some None)
  end.
Proof.
  unfold find_block_to_back_up.
  pose proof (find_block_from_first (local_blocks x) (backed_up_blocks x) 0)
    as H.
  destruct (find_block_from 0 (local_blocks x) (backed_up_blocks x)) as [b|];
    [|done].
  rewrite Nat.sub_0_r in H. by destruct H as (_ & ? & ? & ?).
Qed.

(** ** The initial state *)

Lemma Node_post_init_fresh c :
  Node_post_init c =
    if (0 <=? storage_size c - own_block_size c * n c)%Z
    then Some (fresh_node c) else None.
Proof. done. Qed.

Lemma mapM_Node_post_init cs :
  mapM Node_post_init cs =
    if decide (Forall (λ c, 0 ≤ storage_size c - own_block_size c * n c)%Z cs)
    then Some (fresh_node <$> cs) else None.
Proof.
  induction cs as [|c cs IH]; [done|].
  cbn [mapM]. rewrite IH, Node_post_init_fresh.
  destruct (Z.leb_spec 0 (storage_size c - own_block_size c * n c)) as [Hc|Hc].
  - simpl. destruct (decide (Forall _ cs)) as [Hcs|Hcs]; simpl.
    + rewrite decide_True by (by constructor). done.
    + rewrite decide_False; [done|]. by intros [_ ?]%Forall_cons.
  - simpl. rewrite decide_False; [done|]. intros [? _]%Forall_cons. lia.
Qed.

Lemma init_events_fresh cs : ∀ i,
  init_events i (fresh_node <$> cs) =
    if decide (Forall (λ c, Qeq_bool (average_lifetime c) 0 = false) cs)
    then Some (seq i (length cs) ≫= (λ j, [Online j; Fail j])) else None.
Proof.
  induction cs as [|c cs IH]; intros i; [done|].
  cbn [fmap list_fmap init_events]. unfold exp_rv. simpl.
  destruct (Qeq_bool (average_lifetime c) 0) eqn:Hc; simpl.
  - rewrite decide_False; [done|]. intros [? _]%Forall_cons. congruence.
  - change (list_fmap _ _ fresh_node cs) with (fresh_node <$> cs).
    rewrite IH. destruct (decide (Forall _ cs)) as [Hcs|Hcs]; simpl.
    + rewrite decide_True by (by constructor). done.
    + rewrite decide_False; [done|]. by intros [_ ?]%Forall_cons.
Qed.

(** The initial state: every node is as [Node.__post_init__] makes it
    (offline, not failed, all its blocks local, none backed up, holding
    nothing, no transfer, counters at zero), no transfer event exists and
    the queue holds the Online and the Fail event of each node, in the
    order of the nodes. *)
Theorem X10_Backup_init_state cs s :
  Backup_init cs = Some s →
  nodes s = fresh_node <$> cs ∧ transfers s = [] ∧
  queue s = seq 0 (length cs) ≫= (λ j, [Online j; Fail j]).
Proof.
  unfold Backup_init. rewrite mapM_Node_post_init.
  destruct (decide (Forall _ cs)) as [H1|H1]; simpl; [|done].
  rewrite init_events_fresh.
  destruct (decide (Forall _ cs)) as [H2|H2]; simpl; [|done].
  by intros [= <-].
Qed.

Lemma X10_Backup_init_state_witness :
  nodes (run_from demo_cs []) = fresh_node <$> demo_cs ∧
  transfers (run_from demo_cs []) = [] ∧
  queue (run_from demo_cs []) =
    seq 0 (length demo_cs) ≫= (λ j, [Online j; Fail j]).
Proof.
  apply (X10_Backup_init_state demo_cs (run_from demo_cs [])).
  vm_compute. reflexivity.
Defined.

(** * No exception in a run *)

(** ** Keeping [InvP] *)

Lemma InvP_frame s s' :
  InvP s →
  nodes_rel (λ j x x', cfg x' = cfg x ∧ block_size x' = block_size x ∧
     (free_space x' = free_space x ∨
      ∀ e t, inflight s' e t → kind t = BlockBackupComplete →
             downloader t ≠ j)) (nodes s) (nodes s') →
  (∀ ev nd, ev ∈ queue s' → event_node ev = Some nd →
     ev ∈ queue s ∨ nd < length (nodes s)) →
  (∀ e t, inflight s' e t → inflight s e t) →
  InvP s'.
Proof.
  intros HP HR Hq Hin. split.
  - intros j x' Hx'.
    destruct (nodes_rel_bwd _ _ _ _ _ HR Hx') as (x & Hx & -> & _).
    by apply (P_cfg s HP j).
  - intros ev nd Hev Hnd. destruct HR as [-> _].
    destruct (Hq ev nd Hev Hnd) as [H|H]; [|done].
    by apply (P_events s HP ev).
  - intros e t Ht Hk.
    destruct (P_room s HP e t (Hin e t Ht) Hk) as (u & d & Hu & Hd & Hle).
    destruct (nodes_rel_fwd _ _ _ _ _ HR Hu) as (u' & Hu' & _ & Eb & _).
    destruct (nodes_rel_fwd _ _ _ _ _ HR Hd) as (d' & Hd' & _ & _ & [Ef|Ef]).
    + exists u', d'. split; [done|]. split; [done|]. by rewrite Eb, Ef.
    + by destruct (Ef e t Ht Hk).
Qed.

Lemma InvP_upd_node s B f :
  (∀ x, cfg (f x) = cfg x ∧ block_size (f x) = block_size x ∧
        free_space (f x) = free_space x) →
  InvP s → InvP (upd_node B f s).
Proof.
  intros Hf HP. apply (InvP_frame s); try done.
  - nodes_rel_tac. case_decide; [|by repeat split; try left].
    destruct (Hf x) as (? & ? & ?). repeat split; try done. by left.
  - intros ev nd Hev _. by left.
Qed.

Lemma InvP_schedule s ev nd :
  event_node ev = Some nd → nd < length (nodes s) →
  InvP s → InvP (schedule ev s).
Proof.
  intros Hev Hnd HP. apply (InvP_frame s); try done.
  - apply nodes_rel_refl. intros j x. repeat split. by left.
  - intros ev' nd' Hin Hnd'. simpl in Hin.
    apply elem_of_app in Hin as [Hin|Hin]; [by left|].
    apply list_elem_of_singleton in Hin as ->. right. congruence.
  - intros e t (Ht & Hc & Hq). split; [done|]. split; [done|].
    simpl in Hq. rewrite transfer_ids_app in Hq.
    apply elem_of_app in Hq as [Hq|Hq]; [done|].
    destruct ev; simpl in Hev; try done; by apply elem_of_nil in Hq.
Qed.

Lemma InvP_popped s q1 ev q2 :
  queue s = q1 ++ ev :: q2 → InvP s → InvP (popped s (q1 ++ q2)).
Proof.
  intros Hq HP. apply (InvP_frame s); try done.
  - apply nodes_rel_refl. intros j x. repeat split. by left.
  - intros ev' nd Hin _. left. simpl in Hin. rewrite Hq.
    rewrite elem_of_app in *. rewrite elem_of_cons. tauto.
  - intros e t (Ht & Hc & Hin). split; [done|]. split; [done|].
    simpl in Hin. rewrite Hq. rewrite transfer_ids_app in *. simpl.
    rewrite elem_of_app in *. destruct ev; simpl; try tauto.
    rewrite elem_of_cons. tauto.
Qed.

Lemma InvP_with_transfer s up dn bid r u d :
  InvT s → InvP s →
  nodes s !! up = Some u → nodes s !! dn = Some d →
  (r = false → (block_size u ≤ free_space d)%Z) →
  InvP (with_transfer s up dn bid r).
Proof.
  intros HT HP Hu Hd Hroom.
  assert (nodes_rel (λ _ x x', cfg x' = cfg x ∧ block_size x' = block_size x ∧
            free_space x' = free_space x)
            (nodes s) (nodes (with_transfer s up dn bid r))) as HR.
  { unfold with_transfer. nodes_rel_tac. by decide_cases. }
  split.
  - intros j x' Hx'.
    destruct (nodes_rel_bwd _ _ _ _ _ HR Hx') as (x & Hx & -> & _).
    by apply (P_cfg s HP j).
  - intros ev nd Hev Hnd. destruct HR as [-> _].
    unfold with_transfer in Hev. simpl in Hev.
    apply elem_of_app in Hev as [Hev|Hev]; [by apply (P_events s HP ev)|].
    apply list_elem_of_singleton in Hev as ->. done.
  - intros e t Ht Hk.
    apply (inflight_with_transfer s up dn bid r e t HT) in Ht
      as [Ht|[-> ->]].
    + destruct (P_room s HP e t Ht Hk) as (u0 & d0 & Hu0 & Hd0 & Hle).
      destruct (nodes_rel_fwd _ _ _ _ _ HR Hu0) as (u' & Hu' & _ & Eb & _).
      destruct (nodes_rel_fwd _ _ _ _ _ HR Hd0) as (d' & Hd' & _ & _ & Ef).
      exists u', d'. split; [done|]. split; [done|]. by rewrite Eb, Ef.
    + destruct r; [done|]. simpl.
      destruct (nodes_rel_fwd _ _ _ _ _ HR Hu) as (u' & Hu' & _ & Eb & _).
      destruct (nodes_rel_fwd _ _ _ _ _ HR Hd) as (d' & Hd' & _ & _ & Ef).
      exists u', d'. split; [done|]. split; [done|].
      rewrite Eb, Ef. by apply Hroom.
Qed.

(** ** The schedulers raise nothing *)

Lemma schedule_transfer_is_Some s up dn bid r u d :
  nodes s !! up = Some u → nodes s !! dn = Some d →
  current_upload u = None → current_download d = None →
  run_ok (cfg u) → run_ok (cfg d) → up ≠ dn →
  schedule_transfer s up dn bid r = Some (with_transfer s up dn bid r).
Proof.
  intros Hu Hd Hcu Hcd (Hsu & _) (_ & Hsd & _) Hne.
  apply schedule_transfer_Some. exists u, d. repeat split; try done. lia.
Qed.

Lemma sched_pre_range s U me P bid :
  sched_pre (nodes s) → nodes s !! U = Some me → online me = true →
  (P, bid) ∈ remote_blocks_held me →
  ∃ p, nodes s !! P = Some p ∧ bid < length (local_blocks p).
Proof.
  intros HS Hme Hon Hin.
  destruct (S_bwd _ HS U me P bid Hme Hon Hin) as (p & Hp & Hi).
  exists p. split; [done|].
  apply lookup_lt_Some in Hi. by rewrite (S_len _ HS P p Hp).
Qed.

Lemma schedule_next_upload_good s U me :
  InvT s → sched_pre (nodes s) → self_free (nodes s) → InvP s →
  nodes s !! U = Some me → online me = true →
  ∃ s', schedule_next_upload s U = Some s' ∧ InvP s'.
Proof.
  intros HT HS Hsf HP Hme Hon. unfold schedule_next_upload.
  rewrite Hme. simpl. rewrite Hon. simpl.
  destruct (current_upload me) as [e|] eqn:Hcu; [by exists s|].
  rewrite upload_restore_loop_find
    by (intros P bid Hin; by apply (sched_pre_range s U me)).
  simpl.
  destruct (find (restore_wanted s) (remote_blocks_held me))
    as [[P bid]|] eqn:Hfind.
  { apply find_some in Hfind as [Hin Hw]. apply list_elem_of_In in Hin.
    unfold restore_wanted in Hw. simpl in Hw.
    destruct (nodes s !! P) as [p|] eqn:Hp; [|done].
    apply andb_prop in Hw as [Hw _]. apply andb_prop in Hw as [_ Hcd].
    apply bool_decide_eq_true in Hcd.
    assert (U ≠ P) as Hne by (intros <-; by apply (Hsf U me U bid)).
    rewrite (schedule_transfer_is_Some s U P bid true me p); try done;
      try by eapply (P_cfg s HP).
    eexists. split; [done|].
    by apply (InvP_with_transfer s U P bid true me p). }
  destruct (find_block_to_back_up me) as [bid|]; [|by exists s].
  destruct (upload_backup_loop U me 0 (nodes s)) as [P|] eqn:Hloop;
    [|by exists s].
  apply upload_backup_loop_Some in Hloop
    as (_ & p & Hp & Hne & _ & _ & Hcd & Hroom).
  rewrite Nat.sub_0_r in Hp.
  rewrite (schedule_transfer_is_Some s U P bid false me p); try done;
    try by eapply (P_cfg s HP).
  eexists. split; [done|].
  by apply (InvP_with_transfer s U P bid false me p).
Qed.

Lemma download_restore_loop_is_Some s lb : ∀ bu off,
  (∀ i P, bu !! i = Some (Some P) → is_Some (nodes s !! P)) →
  is_Some (download_restore_loop s off lb bu).
Proof.
  induction lb as [|held lb IH]; intros [|peer bu] off Hv; simpl;
    try (by eexists).
  assert (is_Some (download_restore_loop s (S off) lb bu)) as IH'
    by (apply IH; intros i P Hi; by apply (Hv (S i))).
  destruct held; [done|]. destruct peer as [P|]; [|done].
  destruct (Hv 0 P eq_refl) as [p Hp]. rewrite Hp. simpl.
  destruct (online p); [|done]. destruct (current_upload p); [done|].
  by eexists.
Qed.

Lemma download_backup_loop_room self me ns : ∀ i peer bid,
  download_backup_loop self me i ns = Some (peer, bid) →
  ∃ p, ns !! (peer - i) = Some p ∧ (block_size p ≤ free_space me)%Z.
Proof.
  induction ns as [|p ns IH]; intros i peer bid H; simpl in H; [done|].
  assert (download_backup_loop self me (S i) ns = Some (peer, bid) →
          ∃ p0, (p :: ns) !! (peer - i) = Some p0 ∧
                (block_size p0 ≤ free_space me)%Z) as Hrest.
  { intros H'. pose proof (download_backup_loop_Some _ _ _ _ _ _ H') as [Hle _].
    destruct (IH _ _ _ H') as (p0 & Hp0 & Hr). exists p0.
    split; [|done]. by replace (peer - i) with (S (peer - S i)) by lia. }
  destruct (_ && _) eqn:Hc; [|by apply Hrest].
  destruct (find_block_to_back_up p); [|by apply Hrest].
  injection H as <- <-. rewrite Nat.sub_diag. exists p. split; [done|].
  apply andb_prop in Hc as [_ Hc]. by apply Z.leb_le.
Qed.

Lemma schedule_next_download_good s D me :
  InvT s → sched_pre (nodes s) → self_free (nodes s) → InvP s →
  nodes s !! D = Some me → online me = true →
  ∃ s', schedule_next_download s D = Some s' ∧ InvP s'.
Proof.
  intros HT HS Hsf HP Hme Hon. unfold schedule_next_download.
  rewrite Hme. simpl. rewrite Hon. simpl.
  destruct (current_download me) as [e|] eqn:Hcd; [by exists s|].
  destruct (download_restore_loop_is_Some s (local_blocks me)
              (backed_up_blocks me) 0) as [r Hr].
  { intros i P Hi. destruct (S_fwd _ HS D me i P Hme Hi) as (p & Hp & _).
    by exists p. }
  rewrite Hr. simpl. destruct r as [[P bid]|].
  { apply download_restore_loop_Some in Hr
      as (_ & _ & Hbu & p & Hp & _ & Hcu).
    rewrite Nat.sub_0_r in Hbu.
    assert (P ≠ D) as Hne.
    { intros ->. destruct (S_fwd _ HS D me bid D Hme Hbu) as (p' & Hp' & Hin).
      by apply (Hsf D p' D bid). }
    rewrite (schedule_transfer_is_Some s P D bid true p me); try done;
      try by eapply (P_cfg s HP).
    eexists. split; [done|].
    by apply (InvP_with_transfer s P D bid true p me). }
  destruct (download_backup_loop D me 0 (nodes s)) as [[P bid]|] eqn:Hloop;
    [|by exists s].
  pose proof (download_backup_loop_room _ _ _ _ _ _ Hloop) as (p' & Hp' & Hroom).
  apply download_backup_loop_Some in Hloop
    as (_ & p & Hp & Hne & _ & Hcu & _).
  rewrite Nat.sub_0_r in Hp, Hp'. assert (p' = p) as -> by congruence.
  rewrite (schedule_transfer_is_Some s P D bid false p me); try done;
    try by eapply (P_cfg s HP).
  eexists. split; [done|].
  by apply (InvP_with_transfer s P D bid false p me).
Qed.

(** The two facts on the tables that the schedulers need follow from the
    invariant. *)
Lemma InvDx_self_free B done ns : InvDx B done ns → self_free ns.
Proof.
  intros HD P p X i Hp Hin.
  by destruct (D_bwd _ _ _ HD P p X i Hp Hin) as [? _].
Qed.

Lemma Inv_sched_pre s : Inv s → sched_pre (nodes s) ∧ self_free (nodes s).
Proof.
  intros (HD & _ & _). split.
  - apply (InvDx_sched_pre 0 [] _ HD). by left.
  - by apply (InvDx_self_free 0 []).
Qed.

(** ** Every event is processed *)

Lemma erase_slots_online x x' :
  erase_slots x' = erase_slots x → online x' = online x.
Proof. intros E. by injection E. Qed.

Lemma exp_rv_ok (mean : Q) : Qeq_bool mean 0 = false → exp_rv mean = Some tt.
Proof. unfold exp_rv. by intros ->. Qed.

Lemma Online_process_good s nd :
  Inv s → InvP s → nd < length (nodes s) →
  ∃ s', Online_process s nd = Some s' ∧ InvP s'.
Proof.
  intros HI HP Hnd. unfold Online_process.
  apply lookup_lt_is_Some_2 in Hnd as [node Hnode]. rewrite Hnode. simpl.
  destruct (online node || failed node); [by exists s|].
  set (s1 := upd_node nd (set_online true) s).
  assert (Inv s1) as HI1.
  { apply Inv_upd_node; [|done]. intros x. by repeat split. }
  assert (InvP s1) as HP1 by (by apply InvP_upd_node).
  assert (nodes s1 !! nd = Some (set_online true node)) as Hn1
    by (unfold s1; simpl; by rewrite list_lookup_alter_eq, Hnode).
  destruct (Inv_sched_pre s1 HI1) as [HS1 Hsf1].
  destruct (schedule_next_upload_good s1 nd _ (proj1 (proj2 HI1)) HS1 Hsf1
              HP1 Hn1 eq_refl) as (s2 & H2 & HP2).
  rewrite H2. simpl.
  pose proof (Inv_schedule_next_upload _ _ _ HI1 H2) as HI2.
  pose proof (schedule_next_upload_frame _ _ _ H2) as HR2.
  destruct (nodes_rel_fwd _ _ _ _ _ HR2 Hn1) as (n2 & Hn2 & E2).
  apply erase_slots_online in E2. simpl in E2.
  destruct (Inv_sched_pre s2 HI2) as [HS2 Hsf2].
  destruct (schedule_next_download_good s2 nd _ (proj1 (proj2 HI2)) HS2 Hsf2
              HP2 Hn2 E2) as (s3 & H3 & HP3).
  rewrite H3. simpl.
  destruct (P_cfg s HP nd node Hnode) as (_ & _ & Hup & _).
  rewrite (exp_rv_ok _ Hup). simpl. eexists. split; [done|].
  apply (InvP_schedule s3 (Offline nd) nd); [done| |done].
  apply schedule_next_download_frame in H3.
  destruct H3 as [-> _]. destruct HR2 as [-> _].
  unfold s1. simpl. rewrite length_alter. by apply lookup_lt_Some in Hnode.
Qed.

Lemma Recover_process_good s nd :
  Inv s → InvP s → nd < length (nodes s) →
  ∃ s', Recover_process s nd = Some s' ∧ InvP s'.
Proof.
  intros HI HP Hnd. unfold Recover_process.
  pose proof Hnd as Hnd'.
  apply lookup_lt_is_Some_2 in Hnd as [node Hnode]. rewrite Hnode. simpl.
  set (s1 := upd_node nd (set_failed false) s).
  assert (Inv s1) as HI1.
  { apply Inv_upd_node; [|done]. intros x. by repeat split. }
  assert (InvP s1) as HP1 by (by apply InvP_upd_node).
  destruct (Online_process_good s1 nd HI1 HP1) as (s2 & H2 & HP2).
  { unfold s1. simpl. by rewrite length_alter. }
  rewrite H2. simpl.
  destruct (P_cfg s HP nd node Hnode) as (_ & _ & _ & _ & Hlife & _).
  rewrite (exp_rv_ok _ Hlife). simpl. eexists. split; [done|].
  apply (InvP_schedule s2 (Fail nd) nd); [done| |done].
  apply Online_process_frame in H2. destruct H2 as [-> _].
  unfold s1. simpl. by rewrite length_alter.
Qed.

Lemma disconnect_good s nd :
  Inv s → InvP s → nd < length (nodes s) →
  ∃ s', disconnect s nd = Some s' ∧ InvP s'.
Proof.
  intros (HD & HT & HO) HP Hnd.
  apply lookup_lt_is_Some_2 in Hnd as [node Hnode].
  assert (∃ s', disconnect s nd = Some s') as [s' H].
  { unfold disconnect. rewrite Hnode. simpl.
    destruct (current_upload node) as [e1|] eqn:Hcu.
    - apply (T_up s HT nd node e1 Hnode) in Hcu as (t1 & (Ht1 & _) & _).
      simpl. rewrite Ht1. simpl.
      destruct (current_download node) as [e2|] eqn:Hcd; [|by eexists].
      apply (T_down s HT nd node e2 Hnode) in Hcd as (t2 & (Ht2 & _) & _).
      simpl.
      destruct (alter (set_canceled true) e1 (transfers s) !! e2)
        as [t2'|] eqn:Ht2'; [by eexists|].
      rewrite list_lookup_alter in Ht2'.
      case_decide; [subst; by rewrite Ht1 in Ht2'|congruence].
    - simpl.
      destruct (current_download node) as [e2|] eqn:Hcd; [|by eexists].
      apply (T_down s HT nd node e2 Hnode) in Hcd as (t2 & (Ht2 & _) & _).
      simpl. rewrite Ht2. by eexists. }
  exists s'. split; [done|].
  destruct (disconnect_effect _ _ _ _ Hnode H) as (_ & _ & Hk & _).
  apply disconnect_frame in H as [Eq HR].
  apply (InvP_frame s); try done.
  - eapply nodes_rel_impl; [|exact HR]. intros j x x' _ E.
    apply erase_conn_fields in E as (? & _ & ? & ? & _).
    repeat split; try done. by left.
  - intros ev nd' Hev _. left. by rewrite <- Eq.
  - intros e t (Ht & Hc & Hq). split; [by apply Hk|]. split; [done|].
    by rewrite <- Eq.
Qed.

Lemma Offline_process_good s nd :
  Inv s → InvP s → nd < length (nodes s) →
  ∃ s', Offline_process s nd = Some s' ∧ InvP s'.
Proof.
  intros HI HP Hnd. unfold Offline_process.
  destruct (disconnect_good s nd HI HP Hnd) as (s1 & H1 & HP1).
  pose proof Hnd as Hnd'.
  apply lookup_lt_is_Some_2 in Hnd as [node Hnode]. rewrite Hnode. simpl.
  destruct (failed node || negb (online node)); [by exists s|].
  rewrite H1. simpl.
  destruct (P_cfg s HP nd node Hnode) as (_ & _ & _ & Hdown & _).
  rewrite (exp_rv_ok _ Hdown). simpl. eexists. split; [done|].
  apply (InvP_schedule s1 (Online nd) nd); [done| |done].
  apply disconnect_frame in H1 as [_ [-> _]]. done.
Qed.

(** ** Completions raise nothing *)

Lemma backup_update_is_Some s t u d :
  uploader t ≠ downloader t →
  nodes s !! uploader t = Some u → nodes s !! downloader t = Some d →
  (0 ≤ free_space d - block_size u)%Z →
  block_id t < length (backed_up_blocks u) →
  is_Some (backup_update_block_state s t).
Proof.
  intros Hne Hu Hd Hfs Hlt. unfold backup_update_block_state.
  rewrite Hu, Hd. simpl.
  destruct (Z.ltb_spec (free_space d - block_size u) 0) as [?|_]; [lia|].
  rewrite list_lookup_alter_ne, Hu by done. simpl.
  rewrite list_assign_is_Some by done. simpl.
  rewrite list_lookup_alter_ne by done.
  rewrite list_lookup_alter_eq.
  rewrite list_lookup_alter_ne, Hu by done. simpl.
  rewrite list_assign_is_Some by (by rewrite length_insert). simpl.
  by eexists.
Qed.

Lemma restore_update_is_Some s t d :
  nodes s !! downloader t = Some d →
  block_id t < length (local_blocks d) →
  is_Some (restore_update_block_state s t).
Proof.
  intros Hd Hlt. unfold restore_update_block_state.
  rewrite Hd. simpl. rewrite list_assign_is_Some by done. simpl.
  destruct (_ =? _)%Z; by eexists.
Qed.

(** The state in which the transfer [t] has completed and left the slots of
    its two endpoints, before the schedulers run. *)
Lemma Inv_completed s q1 e q2 t s1 :
  Inv s → queue s = q1 ++ Transfer e :: q2 → inflight s e t →
  update_block_state (popped s (q1 ++ q2)) t = Some s1 →
  Inv (upd_node (uploader t) (set_current_upload None)
         (upd_node (downloader t) (set_current_download None) s1)) ∧
  nodes_rel (λ j x x', cfg x' = cfg x ∧ block_size x' = block_size x ∧
     online x' = online x ∧
     (j ≠ downloader t → free_space x' = free_space x))
    (nodes s) (nodes s1) ∧
  transfers s1 = transfers s ∧ queue s1 = q1 ++ q2.
Proof.
  intros (HD & HT & HO) Hq Hin H1.
  pose proof (T_ok s HT e t Hin) as Hok.
  pose proof Hok as (Hne & u & d & Hu & Hd & Hk).
  unfold update_block_state in H1. destruct (kind t) eqn:Ek.
  - apply backup_update_spec in H1
      as (u' & d' & Hu' & Hd' & Hlt & Hfs & Et & Eq & HR); [|done].
    simpl in Hu', Hd', Et, Eq, HR.
    assert (u' = u) as -> by congruence.
    assert (d' = d) as -> by congruence.
    assert (InvD (nodes s1)) as HD1
      by (by apply (InvD_backup (nodes s) _ t u d)).
    split.
    + apply (Inv_complete s _ e t q1 q2); try done.
      * eapply InvDx_same; [|exact HD1].
        eapply nodes_rel_impl; [|apply clear_slots_rel].
        intros j x x' _ ->. by decide_cases.
      * eapply nodes_rel_trans; [|exact HR|apply clear_slots_rel].
        intros j x y z Hrel ->.
        apply backup_rel_fields in Hrel
          as (_ & _ & El & Eb & Er & _ & Eu & Ed & Eo); [|done].
        decide_cases; rewrite ?El, ?Eb, ?Er, ?Eu, ?Ed, ?Eo;
          repeat split; try done; intros; by decide_cases.
    + split; [|done]. eapply nodes_rel_impl; [|exact HR].
      intros j x x' _ Hrel.
      apply backup_rel_fields in Hrel
        as (? & ? & _ & _ & _ & Ef & _ & _ & ?); [|done].
      repeat split; try done. intros Hj. by rewrite decide_False in Ef.
  - apply restore_update_spec in H1 as (d' & Hd' & Hlt & Et & Eq & HR).
    simpl in Hd', Et, Eq, HR.
    assert (d' = d) as -> by congruence.
    assert (InvD (nodes s1)) as HD1.
    { eapply InvDx_same; [|exact HD].
      eapply nodes_rel_impl; [|exact HR].
      intros j x x' _ Hrel. by apply restore_rel_fields in Hrel as [? _]. }
    split.
    + apply (Inv_complete s _ e t q1 q2); try done.
      * eapply InvDx_same; [|exact HD1].
        eapply nodes_rel_impl; [|apply clear_slots_rel].
        intros j x x' _ ->. by decide_cases.
      * eapply nodes_rel_trans; [|exact HR|apply clear_slots_rel].
        intros j x y z Hrel ->.
        apply restore_rel_fields in Hrel
          as ((_ & _ & _ & El & Eb & Er) & (Eu & Ed) & Eo).
        decide_cases; rewrite ?El, ?Eb, ?Er, ?Eu, ?Ed, ?Eo;
          repeat split; try done.
    + split; [|done]. eapply nodes_rel_impl; [|exact HR].
      intros j x x' _ Hrel.
      apply restore_rel_fields in Hrel as ((? & ? & ? & _) & _ & ?).
      by repeat split.
Qed.

Lemma TransferComplete_process_good s q1 e q2 :
  Inv s → InvP s → queue s = q1 ++ Transfer e :: q2 →
  ∃ s', TransferComplete_process (popped s (q1 ++ q2)) e = Some s' ∧
    InvP s'.
Proof.
  intros HI HP Hq. pose proof HI as (HD & HT & HO).
  assert (e ∈ transfer_ids (queue s)) as He.
  { rewrite Hq. apply elem_of_transfer_ids, elem_of_app. right.
    apply elem_of_cons. by left. }
  destruct (lookup_lt_is_Some_2 _ _ (T_range s HT e He)) as [t Ht].
  unfold TransferComplete_process. simpl. rewrite Ht. simpl.
  destruct (canceled t) eqn:Hc.
  { eexists. split; [done|]. by apply (InvP_popped s q1 (Transfer e) q2). }
  assert (inflight s e t) as Hin by done.
  pose proof (T_ok s HT e t Hin) as (Hne & u & d & Hu & Hd & Hk).
  assert (online u = true) as Hou.
  { destruct (online u) eqn:Hon; [done|].
    destruct (HO _ _ Hu Hon) as [Hcu _].
    assert (current_upload u = Some e) as E
      by (apply (T_up s HT (uploader t) u e Hu); by exists t).
    congruence. }
  assert (online d = true) as Hod.
  { destruct (online d) eqn:Hon; [done|].
    destruct (HO _ _ Hd Hon) as [_ Hcd].
    assert (current_download d = Some e) as E
      by (apply (T_down s HT (downloader t) d e Hd); by exists t).
    congruence. }
  rewrite Hu, Hd. simpl. rewrite Hou, Hod. simpl.
  assert (is_Some (update_block_state (popped s (q1 ++ q2)) t)) as [s1 H1].
  { unfold update_block_state. destruct (kind t) eqn:Ek.
    - destruct Hk as (Hbu & _).
      destruct (P_room s HP e t Hin Ek) as (u0 & d0 & Hu0 & Hd0 & Hle).
      assert (u0 = u) as -> by congruence.
      assert (d0 = d) as -> by congruence.
      apply (backup_update_is_Some _ t u d); try done; [lia|].
      by apply lookup_lt_Some in Hbu.
    - by apply (restore_update_is_Some _ t d). }
  rewrite H1. simpl.
  destruct (Inv_completed s q1 e q2 t s1 HI Hq Hin H1)
    as (HI3 & HR1 & Et & Eq).
  set (s3 := upd_node (uploader t) (set_current_upload None)
               (upd_node (downloader t) (set_current_download None) s1))
    in *.
  pose proof (T_nodup s HT) as Hnd. rewrite Hq in Hnd.
  apply ids_pop_transfer in Hnd as [_ Hids].
  assert (∀ e' t', inflight s3 e' t' → inflight s e' t' ∧ e' ≠ e) as Hsub.
  { intros e' t' (Ht' & Hc' & Hq'). unfold s3 in Ht', Hq'.
    simpl in Ht', Hq'. rewrite Et in Ht'. rewrite Eq in Hq'.
    apply Hids in Hq' as [Hq' Hne']. rewrite <- Hq in Hq'. done. }
  assert (nodes_rel (λ j x x', cfg x' = cfg x ∧
            block_size x' = block_size x ∧ online x' = online x ∧
            (j ≠ downloader t → free_space x' = free_space x))
            (nodes s) (nodes s3)) as HR3.
  { eapply nodes_rel_trans; [|exact HR1|apply clear_slots_rel].
    intros j x y z (? & ? & ? & Hf) ->.
    decide_cases; repeat split; try done; intros; by apply Hf. }
  assert (InvP s3) as HP3.
  { apply (InvP_frame s); try done.
    - eapply nodes_rel_impl; [|exact HR3].
      intros j x x' _ (? & ? & _ & Hf). split; [done|]. split; [done|].
      destruct (decide (j = downloader t)) as [->|Hj]; [|left; by apply Hf].
      right. intros e' t' Hin' _ Heq.
      destruct (Hsub e' t' Hin') as [Hin0 Hne0]. apply Hne0.
      by apply (inflight_down_inj s e' t' e t).
    - intros ev nd Hev _. left. unfold s3 in Hev. simpl in Hev.
      rewrite Eq in Hev. rewrite Hq.
      rewrite elem_of_app in *. rewrite elem_of_cons. tauto.
    - intros e' t' Hin'. by apply Hsub. }
  destruct (nodes_rel_fwd _ _ _ _ _ HR3 Hu) as (u3 & Hu3 & _ & _ & Eo3 & _).
  destruct (Inv_sched_pre s3 HI3) as [HS3 Hsf3].
  destruct (schedule_next_upload_good s3 (uploader t) u3
              (proj1 (proj2 HI3)) HS3 Hsf3 HP3 Hu3) as (s4 & H4 & HP4);
    [congruence|].
  rewrite H4. simpl.
  pose proof (Inv_schedule_next_upload _ _ _ HI3 H4) as HI4.
  pose proof (schedule_next_upload_frame _ _ _ H4) as HR4.
  destruct (nodes_rel_fwd _ _ _ _ _ HR3 Hd) as (d3 & Hd3 & _ & _ & Eod & _).
  destruct (nodes_rel_fwd _ _ _ _ _ HR4 Hd3) as (d4 & Hd4 & E4).
  apply erase_slots_online in E4.
  destruct (Inv_sched_pre s4 HI4) as [HS4 Hsf4].
  destruct (schedule_next_download_good s4 (downloader t) d4
              (proj1 (proj2 HI4)) HS4 Hsf4 HP4 Hd4) as (s5 & H5 & HP5);
    [congruence|].
  by exists s5.
Qed.

(** ** Fail raises nothing *)

(** One turn of the loop of [Fail.process], up to the call of the
    scheduler. *)
Lemma Fail_loop_inv_clear B items done rest s X i o :
  Fail_loop_inv B items done s → items = done ++ (X, i) :: rest →
  nodes s !! X = Some o →
  Fail_loop_inv B items (done ++ [(X, i)])
    (upd_node X (set_backed_up_blocks (<[i:=None]> (backed_up_blocks o))) s).
Proof.
  intros (HD & HT & HO & b & Hb & Hoff & Hrem) Hitems Ho.
  assert ((X, i) ∈ remote_blocks_held b) as Hin.
  { rewrite Hrem, Hitems. apply elem_of_app. right. apply elem_of_cons.
    by left. }
  destruct (D_bwd B done _ HD B b X i Hb Hin) as (HXB & _).
  assert ((X, i) ∉ done) as Hnd.
  { pose proof (D_keys B done _ HD B b Hb) as Hk.
    rewrite Hrem, Hitems, fmap_app in Hk.
    apply NoDup_app in Hk as (_ & Hk & _). intros Hd.
    apply (Hk X); [apply list_elem_of_fmap; by exists (X, i)|].
    simpl. apply elem_of_cons. by left. }
  split; [by apply (InvDx_clear B done (nodes s) b)|].
  assert (InvT (upd_node X
            (set_backed_up_blocks (<[i:=None]> (backed_up_blocks o))) s) ∧
          InvO (upd_node X
            (set_backed_up_blocks (<[i:=None]> (backed_up_blocks o))) s))
    as [HT1 HO1].
  { apply (InvTO_mono s); try done. nodes_rel_tac.
    case_decide.
    - assert (x = o) as -> by congruence.
      split; [done|]. split; [done|]. split; [apply bu_le_clear|].
      by apply rl_le_eq.
    - split; [done|]. split; [done|]. split; [by apply bu_le_eq|].
      by apply rl_le_eq. }
  split; [done|]. split; [done|]. exists b. split; [|done].
  simpl. by rewrite list_lookup_alter_ne.
Qed.

(** The call of the scheduler in the loop keeps its invariant. *)
Lemma Fail_loop_inv_sched B items done s X s' :
  Fail_loop_inv B items done s → schedule_next_upload s X = Some s' →
  Fail_loop_inv B items done s'.
Proof.
  intros HL H. pose proof (Fail_loop_inv_bwd_online _ _ _ _ HL) as Hbwd.
  destruct HL as (HD & HT & HO & b & Hb & Hoff & Hrem).
  apply schedule_next_upload_InvT in H as (HT' & HO' & E); try done.
  split; [by apply (InvDx_erase _ _ (nodes s))|].
  split; [done|]. split; [done|].
  destruct (nodes_rel_fwd _ _ _ _ _ (nodes_rel_erase _ _ E) Hb)
    as (b' & Hb' & Eb).
  exists b'. split; [done|]. injection Eb; intros. split; congruence.
Qed.

Lemma Fail_loop_good B items rest : ∀ done s,
  Fail_loop_inv B items done s → items = done ++ rest → InvP s →
  ∃ s', Fail_loop s rest = Some s' ∧ InvP s'.
Proof.
  induction rest as [|[X i] rest IH]; intros done s HL Hitems HP.
  { by exists s. }
  pose proof HL as (HD & HT & HO & b & Hb & Hoff & Hrem).
  assert ((X, i) ∈ remote_blocks_held b) as Hin.
  { rewrite Hrem, Hitems. apply elem_of_app. right. apply elem_of_cons.
    by left. }
  destruct (D_bwd B done _ HD B b X i Hb Hin) as (HXB & o & Ho & Hoi).
  simpl. rewrite Ho. simpl.
  rewrite list_assign_is_Some by (by apply lookup_lt_Some in Hoi). simpl.
  set (s1 := upd_node X
               (set_backed_up_blocks (<[i:=None]> (backed_up_blocks o))) s).
  pose proof (Fail_loop_inv_clear B items done rest s X i o HL Hitems Ho)
    as HL1. fold s1 in HL1.
  assert (InvP s1) as HP1 by (by apply InvP_upd_node).
  assert (∃ s2, match online o, current_upload o with
                | true, None => schedule_next_upload s1 X
                | _, _ => Some s1
                end = Some s2 ∧ InvP s2 ∧
                Fail_loop_inv B items (done ++ [(X, i)]) s2)
    as (s2 & -> & HP2 & HL2).
  { destruct (online o) eqn:Hon; [|by exists s1].
    destruct (current_upload o) eqn:Hcu; [by exists s1|].
    pose proof HL1 as (HD1 & HT1 & _).
    destruct (schedule_next_upload_good s1 X
                (set_backed_up_blocks (<[i:=None]> (backed_up_blocks o)) o)
                HT1 (Fail_loop_sched_pre _ _ _ _ HL1)
                (InvDx_self_free _ _ _ HD1) HP1) as (s2 & H2 & HP2).
    - unfold s1. simpl. by rewrite list_lookup_alter_eq, Ho.
    - done.
    - exists s2. split; [done|]. split; [done|].
      by apply (Fail_loop_inv_sched _ _ _ s1 X). }
  simpl. apply (IH (done ++ [(X, i)])); [done| |done].
  by rewrite <- app_assoc.
Qed.

Lemma Fail_process_good s nd :
  Inv s → InvP s → nd < length (nodes s) →
  ∃ s', Fail_process s nd = Some s' ∧ InvP s'.
Proof.
  intros HI HP Hnd. unfold Fail_process.
  destruct (disconnect_good s nd HI HP Hnd) as (s1 & H1 & HP1).
  rewrite H1. cbn [mbind option_bind].
  pose proof (Inv_disconnect s nd s1 HI H1) as HI1.
  pose proof HI1 as (HD1 & HT1 & HO1).
  pose proof (proj2 (disconnect_frame _ _ _ H1)) as [Hlen1 _].
  remember (upd_node nd lose_local_blocks
              (upd_node nd count_data_loss
                 (upd_node nd (set_failed true) s1))) as s4 eqn:Es4.
  assert (InvP s4) as HP4.
  { subst s4. by repeat apply InvP_upd_node. }
  assert (nodes_rel (λ j x x', same_data x x' ∧ same_slots x x' ∧
            online x' = online x ∧
            remote_blocks_held x' = remote_blocks_held x)
            (nodes s1) (nodes s4)) as HR4.
  { subst s4. nodes_rel_tac.
    destruct (D_len 0 [] _ HD1 j x Hx) as [L1 L2].
    decide_cases; repeat split; try done.
    unfold lose_local_blocks. simpl. by rewrite length_replicate. }
  assert (is_Some (nodes s4 !! nd)) as [node Hnode].
  { apply lookup_lt_is_Some_2. destruct HR4 as [-> _]. by rewrite Hlen1. }
  rewrite Hnode. cbn [mbind option_bind].
  assert (Fail_loop_inv nd (remote_blocks_held node) [] s4) as HL4.
  { destruct HI as (_ & HT & HO).
    split; [|split; [|split]].
    - apply (InvDx_nil 0). apply (InvDx_same 0 [] (nodes s1)); [|done].
      eapply nodes_rel_impl; [|exact HR4]. by intros ??? _ [? _].
    - apply (InvTO_mono s1); try done; [by subst s4..|].
      eapply nodes_rel_impl; [|exact HR4].
      intros j x x' _ ((_ & _ & _ & El & Eb & Er) & Hs & Eo & _).
      split; [done|]. split; [done|].
      split; [by apply bu_le_eq|by apply rl_le_eq].
    - apply (InvTO_mono s1); try done; [by subst s4..|].
      eapply nodes_rel_impl; [|exact HR4].
      intros j x x' _ ((_ & _ & _ & El & Eb & Er) & Hs & Eo & _).
      split; [done|]. split; [done|].
      split; [by apply bu_le_eq|by apply rl_le_eq].
    - exists node. split; [done|]. split; [|done].
      destruct (nodes_rel_bwd _ _ _ _ _ HR4 Hnode)
        as (b1 & Hb1 & _ & _ & Eo & _).
      rewrite Eo. by apply (disconnect_offline s nd s1). }
  destruct (Fail_loop_good nd (remote_blocks_held node)
              (remote_blocks_held node) [] s4 HL4 eq_refl HP4)
    as (s5 & H5 & HP5).
  rewrite H5. cbn [mbind option_bind].
  apply (Fail_loop_keeps nd (remote_blocks_held node)
           (remote_blocks_held node) [] s4 s5) in HL4; [|done|done].
  destruct HL4 as (HD5 & HT5 & HO5 & b5 & Hb5 & Hoff5 & Hrem5).
  assert (run_ok (cfg node)) as (_ & _ & _ & _ & _ & Hrec)
    by (by apply (P_cfg s4 HP4 nd)).
  rewrite (exp_rv_ok _ Hrec). simpl. eexists. split; [done|].
  apply (InvP_schedule _ (Recover nd) nd); [done| |].
  { simpl. rewrite !length_alter. by apply lookup_lt_Some in Hb5. }
  apply (InvP_frame s5); try done.
  - nodes_rel_tac. case_decide; [|by repeat split; try left].
    subst. repeat split; try done. right. intros e t Hin _ Heq.
    destruct (HO5 _ _ Hb5 Hoff5) as [_ Hcd].
    assert (current_download b5 = Some e) as E.
    { apply (T_down s5 HT5 (downloader t) b5 e); [by rewrite Heq|].
      by exists t. }
    congruence.
  - intros ev nd' Hev _. by left.
Qed.

(** ** Every reachable state satisfies [InvP] *)

Lemma InvP_init cs s :
  Forall run_ok cs → Backup_init cs = Some s → InvP s.
Proof.
  intros Hok H.
  unfold Backup_init in H. rewrite mapM_Node_post_init in H.
  destruct (decide (Forall _ cs)) as [H1|H1]; simpl in H; [|done].
  rewrite init_events_fresh in H.
  destruct (decide (Forall _ cs)) as [H2|H2]; simpl in H; [|done].
  injection H as <-. split; simpl.
  - intros i x Hx. apply list_lookup_fmap_Some in Hx as (c & -> & Hc).
    simpl. rewrite Forall_forall in Hok. apply Hok.
    by eapply list_elem_of_lookup_2.
  - intros ev nd Hev Hnd. rewrite length_fmap.
    apply list_elem_of_bind in Hev as (j & Hev & Hj).
    apply elem_of_seq in Hj.
    rewrite !elem_of_cons in Hev. rewrite elem_of_nil in Hev.
    destruct Hev as [->|[->|[]]]; simpl in Hnd; injection Hnd as <-; lia.
  - by intros e t (Ht & _).
Qed.

Lemma process_good s q1 ev q2 :
  Inv s → InvP s → queue s = q1 ++ ev :: q2 →
  ∃ s', process ev (popped s (q1 ++ q2)) = Some s' ∧ InvP s'.
Proof.
  intros HI HP Hq.
  assert (∀ nd, event_node ev = Some nd → nd < length (nodes s)) as Hnd.
  { intros nd. apply (P_events s HP ev). rewrite Hq.
    apply elem_of_app. right. apply elem_of_cons. by left. }
  pose proof (InvP_popped s q1 ev q2 Hq HP) as HP'.
  destruct ev as [nd|nd|nd|nd|e]; simpl.
  - apply Online_process_good; [|done|by apply Hnd].
    by apply (Inv_pop s q1 (Online nd)).
  - apply Recover_process_good; [|done|by apply Hnd].
    by apply (Inv_pop s q1 (Recover nd)).
  - apply Offline_process_good; [|done|by apply Hnd].
    by apply (Inv_pop s q1 (Offline nd)).
  - apply Fail_process_good; [|done|by apply Hnd].
    by apply (Inv_pop s q1 (Fail nd)).
  - by apply TransferComplete_process_good.
Qed.

Lemma reachable_InvP cs s : Forall run_ok cs → reachable cs s → InvP s.
Proof.
  intros Hok. induction 1 as [s H|s s' Hr IH [q1 ev q2 Hq H]].
  - by apply (InvP_init cs).
  - destruct (process_good s q1 ev q2 (reachable_Inv cs s Hr) IH Hq)
      as (s'' & H'' & HP). congruence.
Qed.

Lemma time_in_range_nonzero t :
  time_in_range t = true → Qeq_bool t 0 = false.
Proof.
  unfold time_in_range. intros [H _]%andb_prop. apply Qle_bool_imp_le in H.
  destruct (Qeq_bool t 0) eqn:E; [|done]. apply Qeq_bool_eq in E.
  rewrite E in H. unfold Qle in H. simpl in H. lia.
Qed.

Lemma in_range_run_ok c : in_range c → run_ok c.
Proof.
  intros (Hu & Hd & _ & _ & H1 & H2 & H3 & H4 & _).
  repeat split; try lia; by apply time_in_range_nonzero.
Qed.

(** In a run on configurations within the range of the floating-point
    arithmetic (positive speeds, a data size below [2^1000], mean times
    between [2^-64] and [2^64] seconds), processing any pending event goes
    through: no assertion of [schedule_transfer], [schedule_next_upload],
    [schedule_next_download], [Offline], [TransferComplete] or
    [update_block_state] fails, no index is out of range, no division is by
    zero and none leaves the floats.  The simulated time and the texts of
    the log messages are not represented. *)
Theorem X11_no_exception cs s q1 ev q2 :
  Forall in_range cs → reachable cs s → queue s = q1 ++ ev :: q2 →
  is_Some (process ev (popped s (q1 ++ q2))).
Proof.
  intros Hok Hr Hq.
  assert (Forall run_ok cs) as Hok'
    by (eapply Forall_impl; [exact Hok|apply in_range_run_ok]).
  destruct (process_good s q1 ev q2 (reachable_Inv cs s Hr)
              (reachable_InvP cs s Hok' Hr) Hq) as (s' & H & _).
  by exists s'.
Qed.

Lemma X11_no_exception_witness :
  is_Some (process (Transfer 0)
             (popped st_inflight ([Fail 0; Fail 1; Offline 0] ++ [Offline 1]))).
Proof.
  apply (X11_no_exception demo_cs st_inflight [Fail 0; Fail 1; Offline 0]
           (Transfer 0) [Offline 1]).
  - repeat constructor; simpl; try lia; reflexivity.
  - apply (run_from_reachable demo_cs [0; 1]). vm_compute. reflexivity.
  - vm_compute. reflexivity.
Defined.

(** In a run on configurations whose speeds and mean times are not zero,
    the downloader of a backup that is queued and not canceled has the room
    for the block of the uploader, as when the transfer was scheduled:
    [assert peer.free_space >= 0] of
    [BlockBackupComplete.update_block_state] holds when it completes. *)
Theorem X12_room_for_backups cs s e t :
  Forall run_ok cs → reachable cs s →
  transfers s !! e = Some t → canceled t = false → Transfer e ∈ queue s →
  kind t = BlockBackupComplete →
  ∃ u d, nodes s !! uploader t = Some u ∧ nodes s !! downloader t = Some d ∧
    (0 ≤ free_space d - block_size u)%Z.
Proof.
  intros Hok Hr Ht Hc Hq Hk.
  destruct (P_room s (reachable_InvP cs s Hok Hr) e t) as (u & d & ? & ? & ?);
    [|done|].
  - split; [done|]. split; [done|]. by apply elem_of_transfer_ids.
  - exists u, d. split; [done|]. split; [done|]. lia.
Qed.

Lemma X12_room_for_backups_witness :
  ∃ u d, nodes st_inflight !! uploader (new_transfer 0 1 0 false) = Some u ∧
    nodes st_inflight !! downloader (new_transfer 0 1 0 false) = Some d ∧
    (0 ≤ free_space d - block_size u)%Z.
Proof.
  apply (X12_room_for_backups demo_cs st_inflight 0
           (new_transfer 0 1 0 false)); try (vm_compute; reflexivity).
  - repeat constructor; done.
  - apply (run_from_reachable demo_cs [0; 1]). vm_compute. reflexivity.
  - apply (list_elem_of_lookup_2 _ 3). vm_compute. reflexivity.
Defined.

(** * Download selection *)

Lemma download_restore_loop_find s (f : nat → option nat) lb : ∀ bu off,
  length lb = length bu →
  (∀ i P, bu !! i = Some (Some P) → is_Some (nodes s !! P)) →
  (∀ k, k < length lb → f (off + k) = restore_source s lb bu k) →
  download_restore_loop s off lb bu =
    Some ((λ iP : nat * nat, (iP.2, iP.1))
            <$> find_map f (seq off (length lb))).
Proof.
  induction lb as [|held lb IH]; intros [|peer bu] off Hlen Hv Hf;
    simpl in *; try done.
  assert (download_restore_loop s (S off) lb bu =
            Some ((λ iP : nat * nat, (iP.2, iP.1))
                    <$> find_map f (seq (S off) (length lb)))) as IH'.
  { apply IH; [lia| |].
    - intros i P Hi. by apply (Hv (S i)).
    - intros k Hk. replace (S off + k) with (off + S k) by lia.
      rewrite Hf by lia. done. }
  pose proof (Hf 0 ltac:(lia)) as Hhd. rewrite Nat.add_0_r in Hhd.
  unfold restore_source in Hhd. simpl in Hhd. rewrite Hhd.
  destruct held; [done|]. destruct peer as [P|]; [|done].
  destruct (Hv 0 P eq_refl) as [p Hp]. rewrite Hp. simpl.
  destruct (online p); simpl; [|done].
  destruct (current_upload p); simpl; done.
Qed.

Lemma download_backup_loop_find D me ns : ∀ i,
  download_backup_loop D me i ns =
    (λ r : nat * Node * nat, (r.1.1, r.2))
      <$> find_map (backup_source D me) (imap (λ j, pair (i + j)) ns).
Proof.
  induction ns as [|p ns IH]; intros i; [done|].
  rewrite imap_cons, imap_pair_shift. cbn [download_backup_loop find_map].
  unfold backup_source at 1. cbn [fst snd]. rewrite Nat.add_0_r.
  destruct (_ && _); [|by rewrite IH].
  destruct (find_block_to_back_up p); [done|]. by rewrite IH.
Qed.

(** For an online node [D] with no download in flight,
    [schedule_next_download] schedules the restore of the first block that
    [D] misses and whose recorded peer is online with no current upload;
    failing that, the backup on [D] of a block of the first node of
    [sim.nodes] that is not [D], is online with no current upload, has no
    block on [D] yet, fits in the free space of [D] and has a block to back
    up; and nothing otherwise. *)
Theorem X13_download_selection s D me :
  sched_pre (nodes s) → nodes s !! D = Some me →
  online me = true → current_download me = None →
  schedule_next_download s D
  = selected_download s D (download_selection s D me).
Proof.
  intros HS Hme Hon Hcd.
  unfold schedule_next_download, download_selection.
  rewrite Hme. simpl. rewrite Hon, Hcd. simpl.
  rewrite (download_restore_loop_find s
             (restore_source s (local_blocks me) (backed_up_blocks me))).
  2:{ by apply (S_len _ HS D). }
  2:{ intros i P Hi. destruct (S_fwd _ HS D me i P Hme Hi) as (p & Hp & _).
      by exists p. }
  2:{ done. }
  simpl.
  destruct (find_map _ (seq 0 (length (local_blocks me)))) as [[i P]|];
    [done|].
  simpl. rewrite download_backup_loop_find.
  rewrite (imap_ext (λ j, pair (0 + j)) pair (nodes s)) by done.
  by destruct (find_map (backup_source D me) (imap pair (nodes s)))
    as [[[P p] bid]|].
Qed.

Lemma X13_download_selection_witness :
  schedule_next_download st_idle_restore 0
  = selected_download st_idle_restore 0
      (download_selection st_idle_restore 0 (node_of st_idle_restore 0)).
Proof.
  apply (X13_download_selection st_idle_restore 0
           (node_of st_idle_restore 0)); try (vm_compute; reflexivity).
  apply (reachable_sched_pre three_cs).
  apply (run_from_reachable three_cs [0; 1; 2; 4; 4; 6; 6; 6; 6; 0; 5; 3]).
  vm_compute. reflexivity.
Defined.

(** The outcomes of the selection, on the examples. *)
Example download_selection_restore :
  download_selection st_idle_restore 0 (node_of st_idle_restore 0)
  = DownloadRestore 2 1 ∧
  schedule_next_download st_idle_restore 0
  = Some (with_transfer st_idle_restore 2 0 1 true).
Proof. by vm_compute. Qed.

Example download_selection_backup :
  download_selection st_idle_backup 1 (node_of st_idle_backup 1)
  = DownloadBackup 2 0 ∧
  schedule_next_download st_idle_backup 1
  = Some (with_transfer st_idle_backup 2 1 0 false).
Proof. by vm_compute. Qed.

(** * Coming online *)

(** What a scheduler adds: at most one transfer. *)
Lemma adds_transfers_refl k s : adds_transfers k s s.
Proof.
  split; [|done]. exists []. rewrite app_nil_r. split; [done|].
  split; [simpl; lia|]. intros ev Hev. by apply elem_of_nil in Hev.
Qed.

Lemma adds_transfers_with_transfer s up dn bid r :
  adds_transfers 1 s (with_transfer s up dn bid r).
Proof.
  split; [|split].
  - exists [Transfer (length (transfers s))]. split; [done|].
    split; [done|]. intros ev ->%list_elem_of_singleton. eauto.
  - intros e t Ht. simpl. by apply lookup_app_l_Some.
  - simpl. rewrite length_app. lia.
Qed.

Lemma adds_transfers_trans k1 k2 s1 s2 s3 :
  adds_transfers k1 s1 s2 → adds_transfers k2 s2 s3 →
  adds_transfers (k1 + k2) s1 s3.
Proof.
  intros ((q1 & E1 & L1 & H1) & T1 & N1) ((q2 & E2 & L2 & H2) & T2 & N2).
  split; [|split].
  - exists (q1 ++ q2). rewrite E2, E1, app_assoc. split; [done|].
    rewrite length_app. split; [lia|]. intros ev [Hev|Hev]%elem_of_app.
    + by apply H1.
    + destruct (H2 ev Hev) as (e & -> & Hle). exists e. split; [done|]. lia.
  - intros e t Ht. by apply T2, T1.
  - lia.
Qed.

Lemma schedule_next_upload_adds s U s' :
  schedule_next_upload s U = Some s' → adds_transfers 1 s s'.
Proof.
  intros H. apply schedule_next_upload_inv in H
    as (me & _ & _ & [->|(_ & P & bid & p & _ & _ & _ & _ & [[-> _]|[-> _]])]).
  - apply adds_transfers_refl.
  - apply adds_transfers_with_transfer.
  - apply adds_transfers_with_transfer.
Qed.

Lemma schedule_next_download_adds s D s' :
  schedule_next_download s D = Some s' → adds_transfers 1 s s'.
Proof.
  intros H. apply schedule_next_download_inv in H
    as (me & _ & _ & [->|(_ & P & bid & p & _ & _ & _ & _ & [[-> _]|[-> _]])]).
  - apply adds_transfers_refl.
  - apply adds_transfers_with_transfer.
  - apply adds_transfers_with_transfer.
Qed.

Lemma nodes_rel_slots_trans f ns1 ns2 ns3 :
  nodes_rel (λ j x x', erase_slots x' = erase_slots (f j x)) ns1 ns2 →
  nodes_rel (λ _ x x', erase_slots x' = erase_slots x) ns2 ns3 →
  nodes_rel (λ j x x', erase_slots x' = erase_slots (f j x)) ns1 ns3.
Proof.
  apply nodes_rel_trans. intros j x y z E1 E2. by rewrite E2.
Qed.

Lemma Online_process_effect s nd x s' :
  nodes s !! nd = Some x → Online_process s nd = Some s' →
  if online x || failed x then s' = s
  else
    (∃ x', nodes s' !! nd = Some x' ∧ online x' = true ∧ failed x' = false) ∧
    nodes_rel (λ j y y', erase_slots y' =
                 erase_slots (if decide (j = nd) then set_online true y
                              else y)) (nodes s) (nodes s') ∧
    ∃ s3, adds_transfers 2 s s3 ∧ transfers s' = transfers s3 ∧
      queue s' = queue s3 ++ [Offline nd].
Proof.
  intros Hx H. unfold Online_process in H. rewrite Hx in H. simpl in H.
  destruct (online x || failed x) eqn:Hof; [by injection H as <-|].
  apply orb_false_elim in Hof as [Hon Hf].
  apply bind_Some in H as (s2 & H2 & H).
  apply bind_Some in H as (s3 & H3 & H).
  apply bind_Some in H as ([] & _ & H). injection H as <-.
  pose proof (schedule_next_upload_adds _ _ _ H2) as A2.
  pose proof (schedule_next_download_adds _ _ _ H3) as A3.
  apply schedule_next_upload_frame in H2.
  apply schedule_next_download_frame in H3.
  assert (nodes_rel (λ j y y', erase_slots y' =
            erase_slots (if decide (j = nd) then set_online true y else y))
            (nodes s) (nodes s3)) as HR.
  { eapply nodes_rel_slots_trans; [|exact H3].
    eapply (nodes_rel_slots_trans
              (λ j y, if decide (j = nd) then set_online true y else y));
      [|exact H2].
    nodes_rel_tac. by decide_cases. }
  split; [|split; [done|]].
  - destruct (nodes_rel_fwd _ _ _ _ _ HR Hx) as (x' & Hx' & E).
    exists x'. split; [done|]. rewrite decide_True in E by done.
    injection E; intros. split; congruence.
  - exists s3. split; [|done].
    by apply (adds_transfers_trans 1 1 (upd_node nd (set_online true) s) s2).
Qed.

(** Processing Online on a node that is online already, or failed, changes
    nothing.  Otherwise the node comes online and nothing else of any node
    changes but the in-flight slots; at most two transfers are scheduled
    (an upload and a download of the node), the transfer events that
    existed are untouched, and the Offline event of the node is scheduled
    after them. *)
Theorem X14_Online_effect s nd x s' :
  nodes s !! nd = Some x → Online_process s nd = Some s' →
  if online x || failed x then s' = s
  else
    (∃ x', nodes s' !! nd = Some x' ∧ online x' = true ∧ failed x' = false) ∧
    nodes_rel (λ j y y', erase_slots y' =
                 erase_slots (if decide (j = nd) then set_online true y
                              else y)) (nodes s) (nodes s') ∧
    ∃ s3, adds_transfers 2 s s3 ∧ transfers s' = transfers s3 ∧
      queue s' = queue s3 ++ [Offline nd].
Proof. apply Online_process_effect. Qed.

Lemma X14_Online_effect_witness :
  if online (node_of (run_from demo_cs [0]) 1)
     || failed (node_of (run_from demo_cs [0]) 1)
  then st_inflight = popped (run_from demo_cs [0]) [Fail 0; Fail 1; Offline 0]
  else
    (∃ x', nodes st_inflight !! 1 = Some x' ∧ online x' = true ∧
       failed x' = false) ∧
    nodes_rel (λ j y y', erase_slots y' =
                 erase_slots (if decide (j = 1) then set_online true y
                              else y))
      (nodes (popped (run_from demo_cs [0]) [Fail 0; Fail 1; Offline 0]))
      (nodes st_inflight) ∧
    ∃ s3, adds_transfers 2
            (popped (run_from demo_cs [0]) [Fail 0; Fail 1; Offline 0]) s3 ∧
      transfers st_inflight = transfers s3 ∧
      queue st_inflight = queue s3 ++ [Offline 1].
Proof.
  apply (X14_Online_effect
           (popped (run_from demo_cs [0]) [Fail 0; Fail 1; Offline 0]) 1
           (node_of (run_from demo_cs [0]) 1) st_inflight);
    vm_compute; reflexivity.
Defined.

Lemma Recover_process_effect s nd x s' :
  nodes s !! nd = Some x → Recover_process s nd = Some s' →
  (∃ x', nodes s' !! nd = Some x' ∧ online x' = true ∧ failed x' = false) ∧
  nodes_rel (λ j y y', erase_slots y' =
               erase_slots (if decide (j = nd)
                            then set_online true (set_failed false y)
                            else y)) (nodes s) (nodes s') ∧
  if online x
  then transfers s' = transfers s ∧ queue s' = queue s ++ [Fail nd]
  else ∃ s3, adds_transfers 2 s s3 ∧ transfers s' = transfers s3 ∧
         queue s' = queue s3 ++ [Offline nd; Fail nd].
Proof.
  intros Hx H. unfold Recover_process in H. rewrite Hx in H. simpl in H.
  apply bind_Some in H as (s2 & H2 & H).
  apply bind_Some in H as ([] & _ & H). injection H as <-.
  set (s1 := upd_node nd (set_failed false) s) in *.
  assert (nodes s1 !! nd = Some (set_failed false x)) as Hx1
    by (unfold s1; simpl; by rewrite list_lookup_alter_eq, Hx).
  pose proof (Online_process_effect s1 nd _ s2 Hx1 H2) as HO. simpl in HO.
  rewrite orb_false_r in HO.
  assert (nodes_rel (λ j y y', y' = if decide (j = nd)
            then set_failed false y else y) (nodes s) (nodes s1)) as HR1.
  { unfold s1. nodes_rel_tac. by decide_cases. }
  assert (nodes_rel (λ j y y', erase_slots y' =
            erase_slots (if decide (j = nd)
                         then set_online true (set_failed false y) else y))
            (nodes s) (nodes s2)) as HR.
  { destruct (online x) eqn:Hon.
    - subst s2. eapply nodes_rel_impl; [|exact HR1].
      intros j y y' Hy ->. case_decide; [|done]. subst.
      assert (y = x) as -> by congruence.
      destruct x; simpl in *. by subst.
    - destruct HO as (_ & HR2 & _).
      eapply nodes_rel_trans; [|exact HR1|exact HR2].
      intros j y z w -> E. rewrite E. by case_decide. }
  split; [|split; [done|]].
  - destruct (nodes_rel_fwd _ _ _ _ _ HR Hx) as (x' & Hx' & E).
    exists x'. split; [done|]. rewrite decide_True in E by done.
    injection E; intros. split; congruence.
  - destruct (online x) eqn:Hon.
    + by subst s2.
    + destruct HO as (_ & _ & s3 & A & Et & Eq). exists s3.
      split; [done|]. split; [done|]. simpl. rewrite Eq.
      by rewrite <- app_assoc.
Qed.

(** Processing Recover on a node clears its [failed] flag and then does
    what Online does: the node is online afterwards, nothing else of any
    node changes but the in-flight slots, and its next Fail event is
    scheduled last, after the Offline event if the node was offline. *)
Theorem X15_Recover_effect s nd x s' :
  nodes s !! nd = Some x → Recover_process s nd = Some s' →
  (∃ x', nodes s' !! nd = Some x' ∧ online x' = true ∧ failed x' = false) ∧
  nodes_rel (λ j y y', erase_slots y' =
               erase_slots (if decide (j = nd)
                            then set_online true (set_failed false y)
                            else y)) (nodes s) (nodes s') ∧
  if online x
  then transfers s' = transfers s ∧ queue s' = queue s ++ [Fail nd]
  else ∃ s3, adds_transfers 2 s s3 ∧ transfers s' = transfers s3 ∧
         queue s' = queue s3 ++ [Offline nd; Fail nd].
Proof. apply Recover_process_effect. Qed.

Lemma X15_Recover_effect_witness :
  (∃ x', nodes st_recovered !! 0 = Some x' ∧ online x' = true ∧
     failed x' = false) ∧
  nodes_rel (λ j y y', erase_slots y' =
               erase_slots (if decide (j = 0)
                            then set_online true (set_failed false y)
                            else y))
    (nodes (popped st_failed [Fail 1; Offline 0; Offline 1]))
    (nodes st_recovered) ∧
  if online (node_of st_failed 0)
  then transfers st_recovered
       = transfers (popped st_failed [Fail 1; Offline 0; Offline 1]) ∧
       queue st_recovered
       = queue (popped st_failed [Fail 1; Offline 0; Offline 1]) ++ [Fail 0]
  else ∃ s3,
         adds_transfers 2 (popped st_failed [Fail 1; Offline 0; Offline 1])
           s3 ∧
         transfers st_recovered = transfers s3 ∧
         queue st_recovered = queue s3 ++ [Offline 0; Fail 0].
Proof.
  apply (X15_Recover_effect
           (popped st_failed [Fail 1; Offline 0; Offline 1]) 0
           (node_of st_failed 0) st_recovered);
    vm_compute; reflexivity.
Defined.

(** * Flags and counters *)

(** Proves [node_step x x'] from the equations between the fields of the two
    nodes that the context holds. *)
Ltac node_step_tac :=
  split; simpl in *;
  [ congruence | congruence
  | lazymatch goal with
    | |- (failed ?x = true → _) → _ → _ =>
        let Hf := fresh "Hf" in let Hf' := fresh "Hf'" in
        let E := fresh "E" in
        intros Hf Hf';
        destruct (bool_dec (failed x) true) as [E|E];
        [specialize (Hf E)|]; congruence
    end
  | lia | lia | lia | lia ].

Lemma node_step_refl x : node_step x x.
Proof. split; try done; try lia. Qed.

Lemma node_step_trans x y z : node_step x y → node_step y z → node_step x z.
Proof.
  intros [] []. split; try congruence; try lia. auto.
Qed.

Lemma node_step_slots x x' :
  erase_slots x' = erase_slots x → node_step x x'.
Proof.
  intros E. injection E; intros. node_step_tac.
Qed.

Lemma nodes_rel_step_trans ns1 ns2 ns3 :
  nodes_rel (λ _ x x', node_step x x') ns1 ns2 →
  nodes_rel (λ _ x x', node_step x x') ns2 ns3 →
  nodes_rel (λ _ x x', node_step x x') ns1 ns3.
Proof.
  apply nodes_rel_trans. intros j x y z. apply node_step_trans.
Qed.

Lemma nodes_rel_step_slots ns1 ns2 :
  nodes_rel (λ _ x x', erase_slots x' = erase_slots x) ns1 ns2 →
  nodes_rel (λ _ x x', node_step x x') ns1 ns2.
Proof.
  apply nodes_rel_impl. intros j x x' _. apply node_step_slots.
Qed.

Lemma Online_process_step s nd s' :
  Online_process s nd = Some s' →
  nodes_rel (λ _ x x', node_step x x') (nodes s) (nodes s').
Proof.
  intros H. destruct (nodes s !! nd) as [x|] eqn:Hx.
  2:{ unfold Online_process in H. by rewrite Hx in H. }
  pose proof (Online_process_effect s nd x s' Hx H) as HO.
  destruct (online x || failed x) eqn:Hof.
  { subst. apply nodes_rel_refl; intros; apply node_step_refl. }
  apply orb_false_elim in Hof as [_ Hf].
  destruct HO as (_ & HR & _). eapply nodes_rel_impl; [|exact HR].
  intros j y y' Hy E. injection E; intros.
  case_decide; [|node_step_tac].
  subst j. assert (y = x) as -> by congruence.
  node_step_tac.
Qed.

Lemma Recover_process_step s nd s' :
  Recover_process s nd = Some s' →
  nodes_rel (λ _ x x', node_step x x') (nodes s) (nodes s').
Proof.
  intros H. destruct (nodes s !! nd) as [x|] eqn:Hx.
  2:{ unfold Recover_process in H. by rewrite Hx in H. }
  destruct (Recover_process_effect s nd x s' Hx H) as (_ & HR & _).
  eapply nodes_rel_impl; [|exact HR].
  intros j y y' Hy E. injection E; intros.
  case_decide; node_step_tac.
Qed.

Lemma disconnect_slots s B s' :
  disconnect s B = Some s' →
  nodes_rel (λ j x x', erase_slots x' =
               erase_slots (if decide (j = B) then set_online false x else x))
    (nodes s) (nodes s').
Proof.
  unfold disconnect. intros H.
  apply bind_Some in H as (node & Hnode & H).
  apply bind_Some in H as (s2 & H2 & H).
  assert (nodes_rel (λ j x x', erase_slots x' =
            erase_slots (if decide (j = B) then set_online false x else x))
            (nodes s) (nodes s2)) as HR2.
  { destruct (current_upload node).
    - apply bind_Some in H2 as (t & _ & H2). injection H2 as <-.
      nodes_rel_tac. by decide_cases.
    - injection H2 as <-. nodes_rel_tac. by decide_cases. }
  destruct (current_download node).
  - apply bind_Some in H as (t & _ & H). injection H as <-.
    eapply nodes_rel_slots_trans; [exact HR2|].
    nodes_rel_tac. by decide_cases.
  - by injection H as <-.
Qed.

Lemma disconnect_step s B s' :
  disconnect s B = Some s' →
  nodes_rel (λ _ x x', node_step x x') (nodes s) (nodes s').
Proof.
  intros H. apply disconnect_slots in H.
  eapply nodes_rel_impl; [|exact H].
  intros j y y' Hy E. injection E; intros.
  case_decide; node_step_tac.
Qed.

Lemma Offline_process_step s nd s' :
  Offline_process s nd = Some s' →
  nodes_rel (λ _ x x', node_step x x') (nodes s) (nodes s').
Proof.
  unfold Offline_process. intros H.
  apply bind_Some in H as (node & Hnode & H).
  destruct (failed node || negb (online node)).
  { injection H as <-. apply nodes_rel_refl; intros; apply node_step_refl. }
  apply bind_Some in H as (s1 & H1 & H).
  apply bind_Some in H as ([] & _ & H). injection H as <-. simpl.
  by apply (disconnect_step s nd).
Qed.

Lemma nodes_rel_online_trans (f : nat → Node → bool) ns1 ns2 ns3 :
  nodes_rel (λ j x x', online x' = f j x) ns1 ns2 →
  nodes_rel (λ _ x x', online x' = online x) ns2 ns3 →
  nodes_rel (λ j x x', online x' = f j x) ns1 ns3.
Proof.
  apply nodes_rel_trans. intros j x y z E1 E2. congruence.
Qed.

Lemma Fail_loop_online items : ∀ s s',
  Fail_loop s items = Some s' →
  nodes_rel (λ _ x x', online x' = online x) (nodes s) (nodes s').
Proof.
  induction items as [|[o i] rest IH]; intros s s' H; simpl in H.
  { injection H as <-. by apply nodes_rel_refl. }
  apply bind_Some in H as (xo & Hxo & H).
  apply bind_Some in H as (bu & Hbu & H).
  apply bind_Some in H as (s2 & H2 & H).
  apply IH in H.
  eapply (nodes_rel_online_trans (λ _ x, online x)); [|exact H].
  assert (nodes_rel (λ _ x x', online x' = online x)
            (nodes s) (nodes (upd_node o (set_backed_up_blocks bu) s)))
    as HR1 by (nodes_rel_tac; by decide_cases).
  destruct (online xo); [|by injection H2 as <-].
  destruct (current_upload xo); [by injection H2 as <-|].
  apply schedule_next_upload_frame in H2.
  eapply (nodes_rel_online_trans (λ _ x, online x)); [exact HR1|].
  eapply nodes_rel_impl; [|exact H2]. intros j x x' _.
  apply erase_slots_online.
Qed.

Lemma upd_node_online B f s :
  (∀ x, online (f x) = online x) →
  nodes_rel (λ _ x x', online x' = online x)
    (nodes s) (nodes (upd_node B f s)).
Proof. intros Hf. nodes_rel_tac. case_decide; [apply Hf|done]. Qed.

Lemma Fail_process_online s B s' :
  Fail_process s B = Some s' →
  nodes_rel (λ j x x', online x' = if decide (j = B) then false else online x)
    (nodes s) (nodes s').
Proof.
  unfold Fail_process. intros H.
  apply bind_Some in H as (s1 & H1 & H).
  apply bind_Some in H as (node & Hnode & H).
  apply bind_Some in H as (s5 & H5 & H).
  apply bind_Some in H as ([] & _ & H). injection H as <-.
  apply disconnect_slots in H1. apply Fail_loop_online in H5.
  assert (nodes_rel (λ j x x', online x' =
            if decide (j = B) then false else online x)
            (nodes s) (nodes s1)) as HR1.
  { eapply nodes_rel_impl; [|exact H1]. intros j x x' _ E.
    apply erase_slots_online in E. rewrite E. by case_decide. }
  clear H1 Hnode.
  change (nodes (schedule (Recover B) ?z)) with (nodes z).
  repeat (eapply (nodes_rel_online_trans
            (λ j x, if decide (j = B) then false else online x));
          [|by apply upd_node_online]).
  eapply (nodes_rel_online_trans
            (λ j x, if decide (j = B) then false else online x));
    [|exact H5].
  repeat (eapply (nodes_rel_online_trans
            (λ j x, if decide (j = B) then false else online x));
          [|by apply upd_node_online]).
  exact HR1.
Qed.

Lemma fail_fields_counters x :
  cfg (fail_fields x) = cfg x ∧ block_size (fail_fields x) = block_size x ∧
  failed (fail_fields x) = true ∧
  total_data_loss_events (fail_fields x) = (total_data_loss_events x + 2)%Z ∧
  total_data_recovered (fail_fields x) = total_data_recovered x ∧
  total_backups_made (fail_fields x) = total_backups_made x ∧
  total_restores_made (fail_fields x) = total_restores_made x.
Proof. destruct x. node_cbv. repeat split; try reflexivity. lia. Qed.

Lemma Fail_process_step s B s' :
  Fail_process s B = Some s' →
  nodes_rel (λ _ x x', node_step x x') (nodes s) (nodes s').
Proof.
  intros H. pose proof (Fail_process_online _ _ _ H) as [_ Hon].
  apply Fail_process_spec in H as (b & _ & _ & _ & HR).
  split; [by destruct HR|]. intros j x x' Hx Hx'.
  specialize (Hon j x x' Hx Hx').
  destruct HR as [_ HR]. destruct (HR j x x' Hx Hx') as (E & _).
  apply erase_links_fields in E
    as (Ec & Ef & Eb & _ & _ & _ & El & Er & Ek & Es).
  destruct (decide (j = B)) as [->|Hne].
  - destruct (fail_fields_counters x) as (F1 & F2 & F3 & F4 & F5 & F6 & F7).
    rewrite F1 in Ec. rewrite F2 in Eb. rewrite F3 in Ef.
    rewrite F4 in El. rewrite F5 in Er. rewrite F6 in Ek. rewrite F7 in Es.
    node_step_tac.
  - node_step_tac.
Qed.

Lemma node_step_backup_up x bu v :
  node_step x (set_total_backups_made (total_backups_made x + 1)
                 (set_backed_up_blocks bu (set_backed_up_blocks v x))).
Proof. destruct x. node_cbv. split; node_cbv; try done; lia. Qed.

Lemma node_step_backup_down x fs d :
  node_step x (set_remote_blocks_held d (set_free_space fs x)).
Proof. destruct x. node_cbv. split; node_cbv; try done; lia. Qed.

Lemma node_step_restore x lb :
  node_step x (recovered
                 (set_total_restores_made (total_restores_made x + 1)
                    (set_local_blocks lb x))).
Proof.
  destruct x. node_cbv. destruct (_ =? _)%Z; split; node_cbv; try done; lia.
Qed.

Lemma upd_node_step B f s :
  (∀ x, node_step x (f x)) →
  nodes_rel (λ _ x x', node_step x x') (nodes s) (nodes (upd_node B f s)).
Proof.
  intros Hf. nodes_rel_tac. case_decide; [apply Hf|apply node_step_refl].
Qed.

(** Proves [node_step x (f x)] for a field update [f]. *)
Ltac setter_step :=
  let x := fresh "x" in
  intros x; destruct x; split; node_cbv; try done; lia.

Lemma nodes_rel_step_refl ns :
  nodes_rel (λ _ x x', node_step x x') ns ns.
Proof. apply nodes_rel_refl. intros. apply node_step_refl. Qed.

Lemma update_block_state_step s t s1 :
  update_block_state s t = Some s1 →
  nodes_rel (λ _ x x', node_step x x') (nodes s) (nodes s1).
Proof.
  unfold update_block_state. destruct (kind t).
  - unfold backup_update_block_state. intros H.
    apply bind_Some in H as (u & Hu & H).
    apply bind_Some in H as (d & Hd & H).
    destruct (_ <? _)%Z; [done|].
    apply bind_Some in H as (o1 & Ho1 & H).
    apply bind_Some in H as (bu & Hbu & H).
    apply bind_Some in H as (o3 & Ho3 & H).
    apply bind_Some in H as (bu' & Hbu' & H). injection H as <-.
    clear. do 5 (eapply nodes_rel_step_trans;
                 [|apply upd_node_step; setter_step]).
    apply nodes_rel_step_refl.
  - unfold restore_update_block_state. intros H.
    apply bind_Some in H as (d & Hd & H).
    apply bind_Some in H as (lb & Hlb & H).
    destruct (_ =? _)%Z; injection H as <-; clear.
    + simpl. rewrite !list_alter_alter_eq.
      change (alter ?f ?i (nodes s)) with (nodes (upd_node i f s)).
      apply upd_node_step. intros x. destruct x. cbv [compose].
      split; node_cbv; try done; lia.
    + do 2 (eapply nodes_rel_step_trans;
            [|apply upd_node_step; setter_step]).
      apply nodes_rel_step_refl.
Qed.

Lemma TransferComplete_process_step s e s' :
  TransferComplete_process s e = Some s' →
  nodes_rel (λ _ x x', node_step x x') (nodes s) (nodes s').
Proof.
  unfold TransferComplete_process. intros H.
  apply bind_Some in H as (t & Ht & H).
  destruct (canceled t).
  { injection H as <-. apply nodes_rel_step_refl. }
  apply bind_Some in H as (u & Hu & H).
  apply bind_Some in H as (d & Hd & H).
  destruct (negb _); [done|].
  apply bind_Some in H as (s1 & H1 & H).
  apply bind_Some in H as (s4 & H4 & H).
  apply update_block_state_step in H1.
  apply schedule_next_upload_frame, nodes_rel_step_slots in H4.
  apply schedule_next_download_frame, nodes_rel_step_slots in H.
  eapply nodes_rel_step_trans; [|exact H].
  eapply nodes_rel_step_trans; [|exact H4].
  eapply nodes_rel_step_trans; [exact H1|].
  do 2 (eapply nodes_rel_step_trans;
        [|apply upd_node_step; setter_step]).
  apply nodes_rel_step_refl.
Qed.

Lemma process_step ev s s' :
  process ev s = Some s' →
  nodes_rel (λ _ x x', node_step x x') (nodes s) (nodes s').
Proof.
  destruct ev; simpl.
  - apply Online_process_step.
  - apply Recover_process_step.
  - apply Offline_process_step.
  - apply Fail_process_step.
  - apply TransferComplete_process_step.
Qed.

(** Whatever the event, processing it adds or removes no node, changes no
    configuration and no block size, leaves a failed node offline if the
    failed nodes were offline, and never decreases a counter of a node; the
    recoveries of a node grow by no more than its restores. *)
Theorem X16_event_keeps_nodes ev s s' :
  process ev s = Some s' →
  length (nodes s') = length (nodes s) ∧
  ∀ j x, nodes s !! j = Some x →
    ∃ x', nodes s' !! j = Some x' ∧ node_step x x'.
Proof.
  intros H. apply process_step in H. split; [by destruct H|].
  intros j x Hx. exact (nodes_rel_fwd _ _ _ _ _ H Hx).
Qed.

Lemma X16_event_keeps_nodes_witness :
  length (nodes st_failed)
  = length (nodes (popped st_backed [Fail 1; Offline 0; Offline 1])) ∧
  ∀ j x, nodes (popped st_backed [Fail 1; Offline 0; Offline 1]) !! j
         = Some x →
    ∃ x', nodes st_failed !! j = Some x' ∧ node_step x x'.
Proof.
  apply (X16_event_keeps_nodes (Fail 0)
           (popped st_backed [Fail 1; Offline 0; Offline 1]) st_failed).
  vm_compute. reflexivity.
Defined.

Lemma reachable_node_step cs s :
  reachable cs s →
  length (nodes s) = length cs ∧
  ∀ i x, nodes s !! i = Some x →
    ∃ c, cs !! i = Some c ∧ node_step (fresh_node c) x.
Proof.
  induction 1 as [s H|s s' Hr [IHl IH] [q1 ev q2 Hq H]].
  - unfold Backup_init in H. rewrite mapM_Node_post_init in H.
    destruct (decide (Forall _ cs)) as [H1|H1]; simpl in H; [|done].
    apply bind_Some in H as (evs & _ & H). injection H as <-. simpl.
    split; [by rewrite length_fmap|]. intros i x Hx.
    apply list_lookup_fmap_Some in Hx as (c & -> & Hc).
    exists c. split; [done|]. apply node_step_refl.
  - apply process_step in H. simpl in H. split; [destruct H; congruence|].
    intros i x' Hx'.
    destruct (nodes_rel_bwd _ _ _ _ _ H Hx') as (x & Hx & Hstep).
    destruct (IH i x Hx) as (c & Hc & Hc').
    exists c. split; [done|]. by apply (node_step_trans _ x).
Qed.

(** In every reachable state the nodes are those of the configurations, in
    their order, each with its configuration and the block size computed
    from it; a node that has failed and not recovered yet is offline and
    takes part in no transfer; the counters are not negative, and a node has
    recovered its data at most as many times as it has restored a block. *)
Theorem X17_reachable_nodes cs s i x :
  reachable cs s → nodes s !! i = Some x →
  length (nodes s) = length cs ∧ cs !! i = Some (cfg x) ∧
  block_size x = own_block_size (cfg x) ∧
  (failed x = true →
   online x = false ∧ current_upload x = None ∧ current_download x = None) ∧
  (0 ≤ total_data_loss_events x)%Z ∧ (0 ≤ total_backups_made x)%Z ∧
  (0 ≤ total_data_recovered x ≤ total_restores_made x)%Z.
Proof.
  intros Hr Hx. destruct (reachable_node_step cs s Hr) as [Hlen Hn].
  destruct (Hn i x Hx) as (c & Hc & [E1 E2 Hfl H1 H2 H3 H4]).
  apply reachable_Inv in Hr as (_ & _ & HO).
  simpl in *. subst c. repeat split; try done; try lia.
  - apply Hfl; [done|done].
  - apply (HO i x Hx). by apply Hfl.
  - apply (HO i x Hx). by apply Hfl.
Qed.

Lemma X17_reachable_nodes_witness :
  length (nodes st_failed) = length demo_cs ∧
  demo_cs !! 0 = Some (cfg (node_of st_failed 0)) ∧
  block_size (node_of st_failed 0)
  = own_block_size (cfg (node_of st_failed 0)) ∧
  (failed (node_of st_failed 0) = true →
   online (node_of st_failed 0) = false ∧
   current_upload (node_of st_failed 0) = None ∧
   current_download (node_of st_failed 0) = None) ∧
  (0 ≤ total_data_loss_events (node_of st_failed 0))%Z ∧
  (0 ≤ total_backups_made (node_of st_failed 0))%Z ∧
  (0 ≤ total_data_recovered (node_of st_failed 0)
     ≤ total_restores_made (node_of st_failed 0))%Z.
Proof.
  apply (X17_reachable_nodes demo_cs st_failed 0 (node_of st_failed 0));
    try (vm_compute; reflexivity).
  apply (run_from_reachable demo_cs [0; 1; 3; 0]). vm_compute. reflexivity.
Defined.

(** * Scheduling a transfer *)

(** [schedule_transfer] raises when an endpoint is busy (its assertions),
    when the slower of the two speeds is zero (the division) and when the
    two endpoints are the same node (the assertion of the transfer event).
    When it returns, it was called on two idle, distinct nodes with nonzero
    speeds, and it has appended one transfer event, not canceled, of the
    kind asked for, queued its completion, made it the uploader's
    [current_upload] and the downloader's [current_download], and changed
    nothing else. *)
Theorem X18_schedule_transfer s up dn bid r :
  (∀ u d, nodes s !! up = Some u → nodes s !! dn = Some d →
     is_Some (current_upload u) ∨ is_Some (current_download d) ∨
     Z.min (upload_speed (cfg u)) (download_speed (cfg d)) = 0%Z ∨
     up = dn →
     schedule_transfer s up dn bid r = None) ∧
  ∀ s', schedule_transfer s up dn bid r = Some s' →
    (∃ u d, nodes s !! up = Some u ∧ nodes s !! dn = Some d ∧
       current_upload u = None ∧ current_download d = None ∧
       Z.min (upload_speed (cfg u)) (download_speed (cfg d)) ≠ 0%Z ∧
       up ≠ dn) ∧
    transfers s' =
      transfers s ++
      [mkTransfer (if r then BlockRestoreComplete else BlockBackupComplete)
         up dn bid false] ∧
    queue s' = queue s ++ [Transfer (length (transfers s))] ∧
    nodes_rel (λ j x x',
      erase_slots x' = erase_slots x ∧
      current_upload x' =
        (if decide (j = up) then Some (length (transfers s))
         else current_upload x) ∧
      current_download x' =
        (if decide (j = dn) then Some (length (transfers s))
         else current_download x)) (nodes s) (nodes s').
Proof.
  split.
  - intros u d Hu Hd Hbad.
    destruct (schedule_transfer s up dn bid r) as [s'|] eqn:H; [|done].
    apply schedule_transfer_Some in H
      as (u' & d' & Hu' & Hd' & Hcu & Hcd & Hsp & Hne & _).
    assert (u' = u) as -> by congruence.
    assert (d' = d) as -> by congruence.
    rewrite Hcu, Hcd in Hbad.
    destruct Hbad as [[? ?]|[[? ?]|[?|?]]]; done.
  - intros s' H. apply schedule_transfer_Some in H
      as (u & d & Hu & Hd & Hcu & Hcd & Hsp & Hne & ->).
    split; [by exists u, d|]. split; [done|]. split; [done|].
    unfold with_transfer. nodes_rel_tac. by decide_cases.
Qed.

(** * The vulnerable blocks of a run *)

Lemma filter_and_const {A} (P : A → Prop) `{∀ a, Decision (P a)}
    (Q : Prop) `{Decision Q} (l : list A) :
  length (filter (λ a, P a ∧ Q) l)
  = if decide Q then length (filter P l) else 0.
Proof.
  induction l as [|a l IH]; [by destruct (decide Q)|].
  rewrite !filter_cons. destruct (decide Q) as [HQ|HQ].
  - destruct (decide (P a)).
    + rewrite decide_True by done. simpl. by rewrite IH.
    + rewrite decide_False by (by intros [? _]). done.
  - rewrite decide_False by (by intros [_ ?]). done.
Qed.

Lemma summary_loop_single s ns : ∀ i acc,
  (∀ j x, ns !! j = Some x →
     count_holders s (i + j)
     = length (filter is_Some (backed_up_blocks x))) →
  (summary_loop s i ns acc).1 =
  (acc.1 + Z.of_nat (length (filter
     (λ x, length (filter is_Some (backed_up_blocks x)) = 1%nat) ns)))%Z.
Proof.
  induction ns as [|x ns IH]; intros i acc Hc; simpl; [lia|].
  rewrite IH; simpl.
  2:{ intros j y Hj. pose proof (Hc (S j) y Hj) as E.
      by rewrite Nat.add_succ_r in E. }
  rewrite vulnerable_loop_count, filter_and_const.
  pose proof (Hc 0 x eq_refl) as E. rewrite Nat.add_0_r in E.
  rewrite E, filter_cons.
  destruct (decide (length (filter is_Some (backed_up_blocks x)) = 1%nat))
    as [E1|E1]; simpl; lia.
Qed.

(** In every reachable state, the vulnerable-blocks figure of the summary
    is the number of the nodes that have exactly one block backed up (a
    node with more has each block on a different peer, and none of its
    blocks is counted), so it is at most the number of nodes. *)
Theorem X19_vulnerable_in_a_run cs s r :
  reachable cs s → summary s = Some r →
  sum_vulnerable_blocks r =
    Z.of_nat (length (filter
      (λ x, length (filter is_Some (backed_up_blocks x)) = 1%nat)
      (nodes s))) ∧
  (0 ≤ sum_vulnerable_blocks r ≤ Z.of_nat (length (nodes s)))%Z.
Proof.
  intros Hr H. apply reachable_Inv in Hr as (HD & _ & _).
  assert (sum_vulnerable_blocks r
          = (summary_loop s 0 (nodes s) (0%Z, 0%Z)).1) as ->.
  { unfold summary in H. destruct (nodes s) as [|x0 l]; [done|].
    by injection H as <-. }
  rewrite summary_loop_single
    by (intros j x Hx; by apply InvD_holders_count).
  simpl. split; [done|]. split; [lia|].
  apply inj_le, length_filter.
Qed.

Lemma X19_vulnerable_in_a_run_witness :
  sum_vulnerable_blocks (mkSummary 0 0 1 0 1 2) =
    Z.of_nat (length (filter
      (λ x, length (filter is_Some (backed_up_blocks x)) = 1%nat)
      (nodes st_backed))) ∧
  (0 ≤ sum_vulnerable_blocks (mkSummary 0 0 1 0 1 2)
     ≤ Z.of_nat (length (nodes st_backed)))%Z.
Proof.
  apply (X19_vulnerable_in_a_run demo_cs st_backed (mkSummary 0 0 1 0 1 2));
    try (vm_compute; reflexivity).
  apply (run_from_reachable demo_cs [0; 1; 3]). vm_compute. reflexivity.
Defined.
